(** * simFDS web front end: the text-processing core of [app.py]

    The development embeds the three pure functions of [app.py] that turn
    text into graph descriptions:
    - [_subscript_label]       (the label formatter),
    - [build_dependency_dot]   (the dependency extractor),
    - [_reorder_statespace_dot] (the state-graph canonicalizer),
    together with the parts of Python's [str] and [re] they call.

    A Python [str] is a sequence of Unicode code points, so a string is a
    list of code points here; exceptions are values of an error monad.

    The code around these functions ([run_command],
    [compute_system_artifacts] and the two routes) is embedded over a file
    system and commands of which nothing is assumed: a computation takes a
    state of the surroundings to a state, the events that took place and an
    answer. *)

From Stdlib Require Import NArith String Ascii.
From stdpp Require Import base decidable option list sorting gmap.
Local Open Scope N_scope.

(** ** Strings as code point sequences *)

Abbreviation char := N (only parsing).
Abbreviation str := (list N) (only parsing).

(** An ASCII literal of the source, as a [str]. *)
Definition L (s : string) : str :=
  map (fun a : ascii => N_of_ascii a) (list_ascii_of_string s).

(** The double quote, which the literals above cannot contain. *)
Definition dq : char := 34.

(** The line feed. *)
Definition nl : str := [10].

(** ** Exceptions *)

Inductive exn : Type :=
| ValueError
| IndexError.

Inductive result (A : Type) : Type :=
| Ok (a : A)
| Raise (e : exn).
Arguments Ok {A} a.
Arguments Raise {A} e.

Definition bind {A B : Type} (r : result A) (f : A -> result B) : result B :=
  match r with
  | Ok a => f a
  | Raise e => Raise e
  end.

Notation "x <- r ;; k" := (bind r (fun x => k))
  (at level 100, r at next level, right associativity).

(** Running a fallible function over a list, left to right, stopping at the
    first exception. *)
Fixpoint map_result {A B : Type} (f : A -> result B) (l : list A) : result (list B) :=
  match l with
  | [] => Ok []
  | x :: l' => y <- f x ;; ys <- map_result f l' ;; Ok (y :: ys)
  end.

(** ** Unicode character classes

    The tables are those of CPython 3.11 (Unicode 14.0.0), as inclusive
    ranges of code points. *)

Definition in_ranges (rs : list (N * N)) (c : char) : bool :=
  existsb (fun r => (fst r <=? c) && (c <=? snd r)) rs.

(** Code points with [str.isspace], which is also the class [\s] of [re] on [str] patterns. *)
Definition space_ranges : list (N * N) :=
  [(9, 13); (28, 32); (133, 133); (160, 160); (5760, 5760); (8192, 8202);
   (8232, 8233); (8239, 8239); (8287, 8287); (12288, 12288)]%N.

(** Code points of the class [\d] of [re] on [str] patterns: the decimal digits of every script (general category Nd). *)
Definition decimal_ranges : list (N * N) :=
  [(48, 57); (1632, 1641); (1776, 1785); (1984, 1993); (2406, 2415);
   (2534, 2543); (2662, 2671); (2790, 2799); (2918, 2927); (3046, 3055);
   (3174, 3183); (3302, 3311); (3430, 3439); (3558, 3567); (3664, 3673);
   (3792, 3801); (3872, 3881); (4160, 4169); (4240, 4249); (6112, 6121);
   (6160, 6169); (6470, 6479); (6608, 6617); (6784, 6793); (6800, 6809);
   (6992, 7001); (7088, 7097); (7232, 7241); (7248, 7257); (42528, 42537);
   (43216, 43225); (43264, 43273); (43472, 43481); (43504, 43513);
   (43600, 43609); (44016, 44025); (65296, 65305); (66720, 66729);
   (68912, 68921); (69734, 69743); (69872, 69881); (69942, 69951);
   (70096, 70105); (70384, 70393); (70736, 70745); (70864, 70873);
   (71248, 71257); (71360, 71369); (71472, 71481); (71904, 71913);
   (72016, 72025); (72784, 72793); (73040, 73049); (73120, 73129);
   (92768, 92777); (92864, 92873); (93008, 93017); (120782, 120831);
   (123200, 123209); (123632, 123641); (125264, 125273); (130032, 130041)]%N.

(** Code points of the class [\w] of [re] on [str] patterns: alphanumeric characters of every script and the underscore. *)
Definition word_ranges : list (N * N) :=
  [(48, 57); (65, 90); (95, 95); (97, 122); (170, 170); (178, 179);
   (181, 181); (185, 186); (188, 190); (192, 214); (216, 246); (248, 705);
   (710, 721); (736, 740); (748, 748); (750, 750); (880, 884); (886, 887);
   (890, 893); (895, 895); (902, 902); (904, 906); (908, 908); (910, 929);
   (931, 1013); (1015, 1153); (1162, 1327); (1329, 1366); (1369, 1369);
   (1376, 1416); (1488, 1514); (1519, 1522); (1568, 1610); (1632, 1641);
   (1646, 1647); (1649, 1747); (1749, 1749); (1765, 1766); (1774, 1788);
   (1791, 1791); (1808, 1808); (1810, 1839); (1869, 1957); (1969, 1969);
   (1984, 2026); (2036, 2037); (2042, 2042); (2048, 2069); (2074, 2074);
   (2084, 2084); (2088, 2088); (2112, 2136); (2144, 2154); (2160, 2183);
   (2185, 2190); (2208, 2249); (2308, 2361); (2365, 2365); (2384, 2384);
   (2392, 2401); (2406, 2415); (2417, 2432); (2437, 2444); (2447, 2448);
   (2451, 2472); (2474, 2480); (2482, 2482); (2486, 2489); (2493, 2493);
   (2510, 2510); (2524, 2525); (2527, 2529); (2534, 2545); (2548, 2553);
   (2556, 2556); (2565, 2570); (2575, 2576); (2579, 2600); (2602, 2608);
   (2610, 2611); (2613, 2614); (2616, 2617); (2649, 2652); (2654, 2654);
   (2662, 2671); (2674, 2676); (2693, 2701); (2703, 2705); (2707, 2728);
   (2730, 2736); (2738, 2739); (2741, 2745); (2749, 2749); (2768, 2768);
   (2784, 2785); (2790, 2799); (2809, 2809); (2821, 2828); (2831, 2832);
   (2835, 2856); (2858, 2864); (2866, 2867); (2869, 2873); (2877, 2877);
   (2908, 2909); (2911, 2913); (2918, 2927); (2929, 2935); (2947, 2947);
   (2949, 2954); (2958, 2960); (2962, 2965); (2969, 2970); (2972, 2972);
   (2974, 2975); (2979, 2980); (2984, 2986); (2990, 3001); (3024, 3024);
   (3046, 3058); (3077, 3084); (3086, 3088); (3090, 3112); (3114, 3129);
   (3133, 3133); (3160, 3162); (3165, 3165); (3168, 3169); (3174, 3183);
   (3192, 3198); (3200, 3200); (3205, 3212); (3214, 3216); (3218, 3240);
   (3242, 3251); (3253, 3257); (3261, 3261); (3293, 3294); (3296, 3297);
   (3302, 3311); (3313, 3314); (3332, 3340); (3342, 3344); (3346, 3386);
   (3389, 3389); (3406, 3406); (3412, 3414); (3416, 3425); (3430, 3448);
   (3450, 3455); (3461, 3478); (3482, 3505); (3507, 3515); (3517, 3517);
   (3520, 3526); (3558, 3567); (3585, 3632); (3634, 3635); (3648, 3654);
   (3664, 3673); (3713, 3714); (3716, 3716); (3718, 3722); (3724, 3747);
   (3749, 3749); (3751, 3760); (3762, 3763); (3773, 3773); (3776, 3780);
   (3782, 3782); (3792, 3801); (3804, 3807); (3840, 3840); (3872, 3891);
   (3904, 3911); (3913, 3948); (3976, 3980); (4096, 4138); (4159, 4169);
   (4176, 4181); (4186, 4189); (4193, 4193); (4197, 4198); (4206, 4208);
   (4213, 4225); (4238, 4238); (4240, 4249); (4256, 4293); (4295, 4295);
   (4301, 4301); (4304, 4346); (4348, 4680); (4682, 4685); (4688, 4694);
   (4696, 4696); (4698, 4701); (4704, 4744); (4746, 4749); (4752, 4784);
   (4786, 4789); (4792, 4798); (4800, 4800); (4802, 4805); (4808, 4822);
   (4824, 4880); (4882, 4885); (4888, 4954); (4969, 4988); (4992, 5007);
   (5024, 5109); (5112, 5117); (5121, 5740); (5743, 5759); (5761, 5786);
   (5792, 5866); (5870, 5880); (5888, 5905); (5919, 5937); (5952, 5969);
   (5984, 5996); (5998, 6000); (6016, 6067); (6103, 6103); (6108, 6108);
   (6112, 6121); (6128, 6137); (6160, 6169); (6176, 6264); (6272, 6276);
   (6279, 6312); (6314, 6314); (6320, 6389); (6400, 6430); (6470, 6509);
   (6512, 6516); (6528, 6571); (6576, 6601); (6608, 6618); (6656, 6678);
   (6688, 6740); (6784, 6793); (6800, 6809); (6823, 6823); (6917, 6963);
   (6981, 6988); (6992, 7001); (7043, 7072); (7086, 7141); (7168, 7203);
   (7232, 7241); (7245, 7293); (7296, 7304); (7312, 7354); (7357, 7359);
   (7401, 7404); (7406, 7411); (7413, 7414); (7418, 7418); (7424, 7615);
   (7680, 7957); (7960, 7965); (7968, 8005); (8008, 8013); (8016, 8023);
   (8025, 8025); (8027, 8027); (8029, 8029); (8031, 8061); (8064, 8116);
   (8118, 8124); (8126, 8126); (8130, 8132); (8134, 8140); (8144, 8147);
   (8150, 8155); (8160, 8172); (8178, 8180); (8182, 8188); (8304, 8305);
   (8308, 8313); (8319, 8329); (8336, 8348); (8450, 8450); (8455, 8455);
   (8458, 8467); (8469, 8469); (8473, 8477); (8484, 8484); (8486, 8486);
   (8488, 8488); (8490, 8493); (8495, 8505); (8508, 8511); (8517, 8521);
   (8526, 8526); (8528, 8585); (9312, 9371); (9450, 9471); (10102, 10131);
   (11264, 11492); (11499, 11502); (11506, 11507); (11517, 11517);
   (11520, 11557); (11559, 11559); (11565, 11565); (11568, 11623);
   (11631, 11631); (11648, 11670); (11680, 11686); (11688, 11694);
   (11696, 11702); (11704, 11710); (11712, 11718); (11720, 11726);
   (11728, 11734); (11736, 11742); (11823, 11823); (12293, 12295);
   (12321, 12329); (12337, 12341); (12344, 12348); (12353, 12438);
   (12445, 12447); (12449, 12538); (12540, 12543); (12549, 12591);
   (12593, 12686); (12690, 12693); (12704, 12735); (12784, 12799);
   (12832, 12841); (12872, 12879); (12881, 12895); (12928, 12937);
   (12977, 12991); (13312, 19903); (19968, 42124); (42192, 42237);
   (42240, 42508); (42512, 42539); (42560, 42606); (42623, 42653);
   (42656, 42735); (42775, 42783); (42786, 42888); (42891, 42954);
   (42960, 42961); (42963, 42963); (42965, 42969); (42994, 43009);
   (43011, 43013); (43015, 43018); (43020, 43042); (43056, 43061);
   (43072, 43123); (43138, 43187); (43216, 43225); (43250, 43255);
   (43259, 43259); (43261, 43262); (43264, 43301); (43312, 43334);
   (43360, 43388); (43396, 43442); (43471, 43481); (43488, 43492);
   (43494, 43518); (43520, 43560); (43584, 43586); (43588, 43595);
   (43600, 43609); (43616, 43638); (43642, 43642); (43646, 43695);
   (43697, 43697); (43701, 43702); (43705, 43709); (43712, 43712);
   (43714, 43714); (43739, 43741); (43744, 43754); (43762, 43764);
   (43777, 43782); (43785, 43790); (43793, 43798); (43808, 43814);
   (43816, 43822); (43824, 43866); (43868, 43881); (43888, 44002);
   (44016, 44025); (44032, 55203); (55216, 55238); (55243, 55291);
   (63744, 64109); (64112, 64217); (64256, 64262); (64275, 64279);
   (64285, 64285); (64287, 64296); (64298, 64310); (64312, 64316);
   (64318, 64318); (64320, 64321); (64323, 64324); (64326, 64433);
   (64467, 64829); (64848, 64911); (64914, 64967); (65008, 65019);
   (65136, 65140); (65142, 65276); (65296, 65305); (65313, 65338);
   (65345, 65370); (65382, 65470); (65474, 65479); (65482, 65487);
   (65490, 65495); (65498, 65500); (65536, 65547); (65549, 65574);
   (65576, 65594); (65596, 65597); (65599, 65613); (65616, 65629);
   (65664, 65786); (65799, 65843); (65856, 65912); (65930, 65931);
   (66176, 66204); (66208, 66256); (66273, 66299); (66304, 66339);
   (66349, 66378); (66384, 66421); (66432, 66461); (66464, 66499);
   (66504, 66511); (66513, 66517); (66560, 66717); (66720, 66729);
   (66736, 66771); (66776, 66811); (66816, 66855); (66864, 66915);
   (66928, 66938); (66940, 66954); (66956, 66962); (66964, 66965);
   (66967, 66977); (66979, 66993); (66995, 67001); (67003, 67004);
   (67072, 67382); (67392, 67413); (67424, 67431); (67456, 67461);
   (67463, 67504); (67506, 67514); (67584, 67589); (67592, 67592);
   (67594, 67637); (67639, 67640); (67644, 67644); (67647, 67669);
   (67672, 67702); (67705, 67742); (67751, 67759); (67808, 67826);
   (67828, 67829); (67835, 67867); (67872, 67897); (67968, 68023);
   (68028, 68047); (68050, 68096); (68112, 68115); (68117, 68119);
   (68121, 68149); (68160, 68168); (68192, 68222); (68224, 68255);
   (68288, 68295); (68297, 68324); (68331, 68335); (68352, 68405);
   (68416, 68437); (68440, 68466); (68472, 68497); (68521, 68527);
   (68608, 68680); (68736, 68786); (68800, 68850); (68858, 68899);
   (68912, 68921); (69216, 69246); (69248, 69289); (69296, 69297);
   (69376, 69415); (69424, 69445); (69457, 69460); (69488, 69505);
   (69552, 69579); (69600, 69622); (69635, 69687); (69714, 69743);
   (69745, 69746); (69749, 69749); (69763, 69807); (69840, 69864);
   (69872, 69881); (69891, 69926); (69942, 69951); (69956, 69956);
   (69959, 69959); (69968, 70002); (70006, 70006); (70019, 70066);
   (70081, 70084); (70096, 70106); (70108, 70108); (70113, 70132);
   (70144, 70161); (70163, 70187); (70272, 70278); (70280, 70280);
   (70282, 70285); (70287, 70301); (70303, 70312); (70320, 70366);
   (70384, 70393); (70405, 70412); (70415, 70416); (70419, 70440);
   (70442, 70448); (70450, 70451); (70453, 70457); (70461, 70461);
   (70480, 70480); (70493, 70497); (70656, 70708); (70727, 70730);
   (70736, 70745); (70751, 70753); (70784, 70831); (70852, 70853);
   (70855, 70855); (70864, 70873); (71040, 71086); (71128, 71131);
   (71168, 71215); (71236, 71236); (71248, 71257); (71296, 71338);
   (71352, 71352); (71360, 71369); (71424, 71450); (71472, 71483);
   (71488, 71494); (71680, 71723); (71840, 71922); (71935, 71942);
   (71945, 71945); (71948, 71955); (71957, 71958); (71960, 71983);
   (71999, 71999); (72001, 72001); (72016, 72025); (72096, 72103);
   (72106, 72144); (72161, 72161); (72163, 72163); (72192, 72192);
   (72203, 72242); (72250, 72250); (72272, 72272); (72284, 72329);
   (72349, 72349); (72368, 72440); (72704, 72712); (72714, 72750);
   (72768, 72768); (72784, 72812); (72818, 72847); (72960, 72966);
   (72968, 72969); (72971, 73008); (73030, 73030); (73040, 73049);
   (73056, 73061); (73063, 73064); (73066, 73097); (73112, 73112);
   (73120, 73129); (73440, 73458); (73648, 73648); (73664, 73684);
   (73728, 74649); (74752, 74862); (74880, 75075); (77712, 77808);
   (77824, 78894); (82944, 83526); (92160, 92728); (92736, 92766);
   (92768, 92777); (92784, 92862); (92864, 92873); (92880, 92909);
   (92928, 92975); (92992, 92995); (93008, 93017); (93019, 93025);
   (93027, 93047); (93053, 93071); (93760, 93846); (93952, 94026);
   (94032, 94032); (94099, 94111); (94176, 94177); (94179, 94179);
   (94208, 100343); (100352, 101589); (101632, 101640); (110576, 110579);
   (110581, 110587); (110589, 110590); (110592, 110882); (110928, 110930);
   (110948, 110951); (110960, 111355); (113664, 113770); (113776, 113788);
   (113792, 113800); (113808, 113817); (119520, 119539); (119648, 119672);
   (119808, 119892); (119894, 119964); (119966, 119967); (119970, 119970);
   (119973, 119974); (119977, 119980); (119982, 119993); (119995, 119995);
   (119997, 120003); (120005, 120069); (120071, 120074); (120077, 120084);
   (120086, 120092); (120094, 120121); (120123, 120126); (120128, 120132);
   (120134, 120134); (120138, 120144); (120146, 120485); (120488, 120512);
   (120514, 120538); (120540, 120570); (120572, 120596); (120598, 120628);
   (120630, 120654); (120656, 120686); (120688, 120712); (120714, 120744);
   (120746, 120770); (120772, 120779); (120782, 120831); (122624, 122654);
   (123136, 123180); (123191, 123197); (123200, 123209); (123214, 123214);
   (123536, 123565); (123584, 123627); (123632, 123641); (124896, 124902);
   (124904, 124907); (124909, 124910); (124912, 124926); (124928, 125124);
   (125127, 125135); (125184, 125251); (125259, 125259); (125264, 125273);
   (126065, 126123); (126125, 126127); (126129, 126132); (126209, 126253);
   (126255, 126269); (126464, 126467); (126469, 126495); (126497, 126498);
   (126500, 126500); (126503, 126503); (126505, 126514); (126516, 126519);
   (126521, 126521); (126523, 126523); (126530, 126530); (126535, 126535);
   (126537, 126537); (126539, 126539); (126541, 126543); (126545, 126546);
   (126548, 126548); (126551, 126551); (126553, 126553); (126555, 126555);
   (126557, 126557); (126559, 126559); (126561, 126562); (126564, 126564);
   (126567, 126570); (126572, 126578); (126580, 126583); (126585, 126588);
   (126590, 126590); (126592, 126601); (126603, 126619); (126625, 126627);
   (126629, 126633); (126635, 126651); (127232, 127244); (130032, 130041);
   (131072, 173791); (173824, 177976); (177984, 178205); (178208, 183969);
   (183984, 191456); (194560, 195101); (196608, 201546)]%N.

Definition isspace (c : char) : bool := in_ranges space_ranges c.
Definition isdecimal (c : char) : bool := in_ranges decimal_ranges c.
Definition isword (c : char) : bool := in_ranges word_ranges c.

(** The line boundaries of [str.splitlines]: LF, VT, FF, CR, FS, GS, RS, NEL,
    LINE SEPARATOR and PARAGRAPH SEPARATOR. *)
Definition linebreaks : list char := [10; 11; 12; 13; 28; 29; 30; 133; 8232; 8233].
Definition islinebreak (c : char) : bool := existsb (N.eqb c) linebreaks.

(** ** The [str] methods used by [app.py] *)

Module Py.

(** [s.splitlines()]: [cur] holds the current line, reversed.  CR LF is one
    boundary, and a text that ends with a boundary has no empty last line. *)
Fixpoint splitlines_from (cur : str) (s : str) : list str :=
  match s with
  | [] => match cur with [] => [] | _ => [rev cur] end
  | c :: s' =>
      if c =? 13 then
        match s' with
        | d :: s'' =>
            if d =? 10 then rev cur :: splitlines_from [] s''
            else rev cur :: splitlines_from [] s'
        | [] => rev cur :: splitlines_from [] s'
        end
      else if islinebreak c then rev cur :: splitlines_from [] s'
      else splitlines_from (c :: cur) s'
  end.

Definition splitlines (s : str) : list str := splitlines_from [] s.

(** [s.lstrip()], [s.rstrip()] and [s.strip()] without argument. *)
Fixpoint lstrip (s : str) : str :=
  match s with
  | c :: s' => if isspace c then lstrip s' else s
  | [] => []
  end.

Definition rstrip (s : str) : str := rev (lstrip (rev s)).

Definition strip (s : str) : str := rstrip (lstrip s).

(** [s.startswith(p)]. *)
Fixpoint startswith (p s : str) : bool :=
  match p, s with
  | [], _ => true
  | a :: p', b :: s' => (a =? b) && startswith p' s'
  | _ :: _, [] => false
  end.

(** [s.split(sep, 1)] for a separator of one character: the whole string
    when the separator does not occur, else what is before and what is
    after its first occurrence. *)
Fixpoint split1 (sep : char) (s : str) : list str :=
  match s with
  | [] => [[]]
  | c :: s' =>
      if c =? sep then [[]; s']
      else match split1 sep s' with
           | a :: rest => (c :: a) :: rest
           | [] => [[c]]
           end
  end.

(** [l[i]], which raises [IndexError] out of range. *)
Definition getitem {A : Type} (l : list A) (i : nat) : result A :=
  match nth_error l i with
  | Some x => Ok x
  | None => Raise IndexError
  end.

(** [s.replace(old, new)] for [old] of one character. *)
Definition replace (old : char) (new : str) (s : str) : str :=
  flat_map (fun c => if c =? old then new else [c]) s.

(** [s.count(c)] for [c] of one character. *)
Fixpoint count (c : char) (s : str) : N :=
  match s with
  | [] => 0
  | d :: s' => (if d =? c then 1 else 0) + count c s'
  end.

(** [sep.join(l)]. *)
Fixpoint join (sep : str) (l : list str) : str :=
  match l with
  | [] => []
  | [x] => x
  | x :: l' => x ++ sep ++ join sep l'
  end.

(** [int(s, 2)] on digit strings.  A non-empty string of [0] and [1] is read
    most significant digit first; [int] raises [ValueError] on the empty
    string.  Python also accepts a sign, a [0b] prefix, underscores between
    digits and surrounding whitespace; none of them can reach the one call
    of [app.py], whose argument is made of [0] and [1] only, and they are
    rejected here like every other character.  In base 2 the length of the
    string is not limited. *)
Definition bit_of (c : char) : option N :=
  if c =? 48 then Some 0 else if c =? 49 then Some 1 else None.

Fixpoint int2_from (acc : N) (s : str) : result N :=
  match s with
  | [] => Ok acc
  | c :: s' =>
      match bit_of c with
      | Some b => int2_from (2 * acc + b) s'
      | None => Raise ValueError
      end
  end.

Definition int2 (s : str) : result N :=
  match s with
  | [] => Raise ValueError
  | _ => int2_from 0 s
  end.

(** [a < b] on strings: lexicographic on code points. *)
Fixpoint str_lt (a b : str) : bool :=
  match a, b with
  | _, [] => false
  | [], _ :: _ => true
  | x :: a', y :: b' => (x <? y) || ((x =? y) && str_lt a' b')
  end.

(** [sorted(l)] and [sorted(l, key=...)] are stable: elements that do not
    compare as smaller keep their order.  [list.sort] only ever asks
    whether one element is smaller than another; [lt] is that test.  The
    list is built from the right, each element going in front of the first
    element that is not smaller than it. *)
Section Sorted.
Context {A : Type} (lt : A -> A -> bool).

Fixpoint insert_sorted (x : A) (l : list A) : list A :=
  match l with
  | [] => [x]
  | y :: l' => if lt y x then y :: insert_sorted x l' else x :: y :: l'
  end.

Fixpoint sorted (l : list A) : list A :=
  match l with
  | [] => []
  | x :: l' => insert_sorted x (sorted l')
  end.
End Sorted.

(** With [key=f], every key is computed first, once per element. *)
Definition sorted_key {A K : Type} (lt : K -> K -> bool) (f : A -> result K)
    (l : list A) : result (list A) :=
  keyed <- map_result (fun x => k <- f x ;; Ok (k, x)) l ;;
  Ok (map snd (sorted (fun a b => lt (fst a) (fst b)) keyed)).

End Py.

(** ** The fragment of [re] used by [app.py]

    The three patterns of the program are sequences of literal characters,
    greedy repetitions of a character class, one capturing group, [^] and
    [\b].  Matching is the backtracking search of [re]: a repetition first
    takes as many characters as it can and gives them back one at a time
    while the rest of the pattern fails. *)

Module Re.

Inductive regex : Type :=
| Chr (c : char)                       (* a literal character *)
| Rep (cls : char -> bool) (lo : nat)  (* [cls*] is [Rep cls 0], [cls+] is [Rep cls 1] *)
| Bol                                  (* [^], without MULTILINE *)
| WordB                                (* [\b] *)
| Group (n : nat) (r : regex)          (* the [n]-th capturing group *)
| Seq (r1 r2 : regex).

(** A position in the subject: the character before it (none at the start),
    what is left of the subject, and the groups captured so far. *)
Record mstate : Type := MState {
  prev : option char;
  rest : str;
  caps : list (nat * str)
}.

Definition start (s : str) : mstate := MState None s [].

Definition isword_opt (o : option char) : bool :=
  match o with
  | Some c => isword c
  | None => false
  end.

(** [\b]: exactly one of the two neighbours is a word character; the ends of
    the subject count as non-word. *)
Definition at_boundary (st : mstate) : bool :=
  xorb (isword_opt (prev st)) (isword_opt (head (rest st))).

(** The text between two positions of the same subject. *)
Definition consumed (st st' : mstate) : str :=
  take (length (rest st) - length (rest st')) (rest st).

(** Greedy repetition with at least [lo] characters of the class, [k] being
    the rest of the pattern. *)
Fixpoint rep (cls : char -> bool) (lo : nat) (p : option char) (s : str)
    (cs : list (nat * str)) (k : mstate -> option mstate) : option mstate :=
  let stop := match lo with O => k (MState p s cs) | S _ => None end in
  match s with
  | c :: s' =>
      if cls c then
        match rep cls (Nat.pred lo) (Some c) s' cs k with
        | Some m => Some m
        | None => stop
        end
      else stop
  | [] => stop
  end.

Fixpoint run (r : regex) (st : mstate) (k : mstate -> option mstate)
    : option mstate :=
  match r with
  | Chr c =>
      match rest st with
      | d :: s' => if d =? c then k (MState (Some d) s' (caps st)) else None
      | [] => None
      end
  | Rep cls lo => rep cls lo (prev st) (rest st) (caps st) k
  | Bol => match prev st with None => k st | Some _ => None end
  | WordB => if at_boundary st then k st else None
  | Group n r1 =>
      run r1 st (fun st' =>
        k (MState (prev st') (rest st') ((n, consumed st st') :: caps st')))
  | Seq r1 r2 => run r1 st (fun st' => run r2 st' k)
  end.

(** [m.group(n)]. *)
Fixpoint assoc (n : nat) (cs : list (nat * str)) : option str :=
  match cs with
  | [] => None
  | (i, s) :: cs' => if Nat.eqb i n then Some s else assoc n cs'
  end.

Definition group (n : nat) (m : mstate) : result str :=
  match assoc n (caps m) with
  | Some s => Ok s
  | None => Raise IndexError
  end.

(** [re.fullmatch(r, s)]: the match must end at the end of the subject. *)
Definition fullmatch (r : regex) (s : str) : option mstate :=
  run r (start s) (fun st => match rest st with [] => Some st | _ => None end).

(** [r.match(s)]: at the start of the subject only. *)
Definition match_ (r : regex) (s : str) : option mstate :=
  run r (start s) Some.

(** [r.search(s)]: the first position, from the left, where the pattern
    matches. *)
Fixpoint search_from (r : regex) (p : option char) (s : str) : option mstate :=
  match run r (MState p s []) Some with
  | Some m => Some m
  | None =>
      match s with
      | c :: s' => search_from r (Some c) s'
      | [] => None
      end
  end.

Definition search (r : regex) (s : str) : option mstate := search_from r None s.

(** [r.findall(s)] for a pattern with one group: the group of every match,
    the search resuming where the previous match ended.  [skip] counts the
    characters of the last match still to pass.  (After an empty match the
    search resumes one character further; the patterns of [app.py] have no
    empty match.) *)
Fixpoint findall_from (r : regex) (skip : nat) (p : option char) (s : str)
    : list str :=
  match skip with
  | S n =>
      match s with
      | c :: s' => findall_from r n (Some c) s'
      | [] => []
      end
  | O =>
      match run r (MState p s []) Some with
      | Some m =>
          let g := match assoc 1 (caps m) with Some g => g | None => [] end in
          match s with
          | c :: s' =>
              g :: findall_from r (Nat.pred (length s - length (rest m))) (Some c) s'
          | [] => [g]
          end
      | None =>
          match s with
          | c :: s' => findall_from r 0 (Some c) s'
          | [] => []
          end
      end
  end.

Definition findall (r : regex) (s : str) : list str := findall_from r 0 None s.

End Re.

Import Re.
Infix "·" := Seq (at level 60, right associativity).

(** A character of the source, as a code point. *)
Definition ch (a : ascii) : char := N_of_ascii a.
Arguments ch : simpl never.

(** * The functions of [app.py] *)

(** ** [_subscript_label] *)

(** The dictionary [subs]: the digits 0 to 9 and their subscript glyphs
    U+2080 to U+2089. *)
Definition subs : list (char * char) :=
  [(48, 8320); (49, 8321); (50, 8322); (51, 8323); (52, 8324);
   (53, 8325); (54, 8326); (55, 8327); (56, 8328); (57, 8329)].

(** [d.get(k, default)]. *)
Fixpoint dict_get (d : list (char * char)) (k : char) (default : char) : char :=
  match d with
  | [] => default
  | (k', v) :: d' => if k' =? k then v else dict_get d' k default
  end.

(** [x(\d+)] *)
Definition label_re : regex := Chr (ch "x") · Group 1 (Rep isdecimal 1).

(** The digits that have no entry in [subs] are kept: [subs.get(d, d)]. *)
Definition _subscript_label (var_name : str) : result str :=
  match fullmatch label_re var_name with
  | None => Ok var_name
  | Some m =>
      digits <- group 1 m ;;
      Ok (L "x" ++ map (fun d => dict_get subs d d) digits)
  end.

(** ** [build_dependency_dot] *)

(** [^\s*(x\d+)\s*=] *)
Definition assign_re : regex :=
  Bol · Rep isspace 0 · Group 1 (Chr (ch "x") · Rep isdecimal 1)
      · Rep isspace 0 · Chr (ch "=").

(** [\b(x\d+)\b] *)
Definition var_re : regex :=
  WordB · Group 1 (Chr (ch "x") · Rep isdecimal 1) · WordB.

(** The two sets the loop fills. *)
Record graph : Type := Graph {
  nodes : gset str;
  edges : gset (str * str)
}.

(** The body of the inner loop, for one variable of the right-hand side. *)
Definition add_var (target : str) (g : graph) (var : str) : graph :=
  let nodes' := nodes g ∪ {[var]} in
  if decide (var ≠ target)
  then Graph nodes' (edges g ∪ {[(target, var)]})
  else Graph nodes' (edges g).

(** The body of the outer loop, for one line of the text. *)
Definition scan_line (g : graph) (line : str) : result graph :=
  let line := Py.strip line in
  if bool_decide (line = []) || Py.startswith (L "#") line then Ok g
  else
    match match_ assign_re line with
    | None => Ok g
    | Some m =>
        target <- group 1 m ;;
        let g' := Graph (nodes g ∪ {[target]}) (edges g) in
        rhs <- Py.getitem (Py.split1 (ch "=") line) 1 ;;
        Ok (fold_left (add_var target) (findall var_re rhs) g')
    end.

Fixpoint scan_lines (g : graph) (lines : list str) : result graph :=
  match lines with
  | [] => Ok g
  | line :: lines' => g' <- scan_line g line ;; scan_lines g' lines'
  end.

(** The first half of [build_dependency_dot]: the sets [nodes] and [edges]
    once the loop over the lines is over. *)
Definition dependency_graph (system_text : str) : result graph :=
  scan_lines (Graph ∅ ∅) (Py.splitlines system_text).

(** [a < b] on pairs of strings. *)
Definition pair_lt (a b : str * str) : bool :=
  Py.str_lt (fst a) (fst b)
  || (bool_decide (fst a = fst b) && Py.str_lt (snd a) (snd b)).

(** The three f-strings and the fixed lines of the output. *)
Definition node_line (v : str) : result str :=
  label <- _subscript_label v ;;
  Ok (L "  " ++ [dq] ++ v ++ [dq] ++ L " [label=" ++ [dq] ++ label ++ [dq] ++ L "];").

Definition edge_line (e : str * str) : str :=
  L "  " ++ [dq] ++ fst e ++ [dq] ++ L " -> " ++ [dq] ++ snd e ++ [dq] ++ L ";".

Definition header : list str :=
  [ L "digraph dep {";
    L "  rankdir=LR;";
    L "  node [shape=ellipse, fontname=" ++ [dq] ++ L "Monaco" ++ [dq] ++ L ", fontsize=11];";
    L "  edge [fontname=" ++ [dq] ++ L "Monaco" ++ [dq] ++ L ", fontsize=9];" ].

Definition build_dependency_dot (system_text : str) : result str :=
  g <- dependency_graph system_text ;;
  if bool_decide (edges g = ∅) && bool_decide (nodes g = ∅) then Ok []
  else
    node_lines <- map_result node_line (Py.sorted Py.str_lt (elements (nodes g))) ;;
    let edge_lines := map edge_line (Py.sorted pair_lt (elements (edges g))) in
    Ok (Py.join nl
          (header ++ node_lines ++ edge_lines ++ [L "}"])).

(** ** [_reorder_statespace_dot] *)

(** The class [[01 ]]. *)
Definition bitsp (c : char) : bool :=
  (c =? ch "0") || (c =? ch "1") || (c =? ch " ").

(** ["([01 ]+)"\s*->\s*"[01 ]+"] *)
Definition edge_pattern : regex :=
  Chr dq · Group 1 (Rep bitsp 1) · Chr dq · Rep isspace 0
         · Chr (ch "-") · Chr (ch ">") · Rep isspace 0
         · Chr dq · Rep bitsp 1 · Chr dq.

(** The three variables the loop over the lines fills. *)
Record parts : Type := Parts {
  edge_lines : list str;
  prefix_lines : list str;
  closing_line : str
}.

(** The body of the loop over the lines. *)
Definition classify (acc : parts) (line : str) : parts :=
  let stripped := Py.strip line in
  if bool_decide (stripped = L "}") then
    Parts (edge_lines acc) (prefix_lines acc) line
  else
    match search edge_pattern line with
    | Some _ => Parts (edge_lines acc ++ [line]) (prefix_lines acc) (closing_line acc)
    | None => Parts (edge_lines acc) (prefix_lines acc ++ [line]) (closing_line acc)
    end.

(** [m.group(1)] is the first label: the source of the edge. *)
Definition key_for_line (line : str) : result (N * N) :=
  match search edge_pattern line with
  | None => Ok (0, 0)
  | Some m =>
      raw <- group 1 m ;;
      let bits := Py.replace (ch " ") [] raw in
      let weight := Py.count (ch "1") bits in
      value <- (match bits with [] => Ok 0 | _ => Py.int2 bits end) ;;
      Ok (weight, value)
  end.

(** [a < b] on pairs of integers. *)
Definition key_lt (a b : N * N) : bool :=
  (fst a <? fst b) || ((fst a =? fst b) && (snd a <? snd b)).

(** [new_lines], as it stands before the final [join]. *)
Definition reorder_lines (lines : list str) : result (list str) :=
  let p := fold_left classify lines (Parts [] [] []) in
  edge_lines_sorted <- Py.sorted_key key_lt key_for_line (edge_lines p) ;;
  let new_lines := prefix_lines p ++ edge_lines_sorted in
  Ok (match closing_line p with
      | [] => new_lines
      | _ => new_lines ++ [closing_line p]
      end).

Definition _reorder_statespace_dot (dot_source : str) : result str :=
  new_lines <- reorder_lines (Py.splitlines dot_source) ;;
  Ok (Py.join nl new_lines).

(** * Vocabulary of the specification *)

(** ** What a pattern matches *)

(** The character before a position that lies [r] further than a position
    with [p] before it. *)
Definition last_or (p : option char) (r : str) : option char :=
  match last r with
  | Some c => Some c
  | None => p
  end.

(** [matches r st st']: the pattern [r] can take the subject from the
    position [st] to the position [st'].  A repetition may stop after any
    number of characters from [lo] on; which of them the search settles on
    is the business of [run]. *)
Inductive matches : regex -> mstate -> mstate -> Prop :=
| M_Chr c p s cs :
    matches (Chr c) (MState p (c :: s) cs) (MState (Some c) s cs)
| M_Rep cls lo p r t cs :
    Forall (fun c => cls c = true) r ->
    (lo <= length r)%nat ->
    matches (Rep cls lo) (MState p (r ++ t) cs) (MState (last_or p r) t cs)
| M_Bol s cs :
    matches Bol (MState None s cs) (MState None s cs)
| M_WordB st :
    at_boundary st = true ->
    matches WordB st st
| M_Group n r st st' :
    matches r st st' ->
    matches (Group n r) st
      (MState (prev st') (rest st') ((n, consumed st st') :: caps st'))
| M_Seq r1 r2 st st' st'' :
    matches r1 st st' ->
    matches r2 st' st'' ->
    matches (Seq r1 r2) st st''.

(** Every character of [s] is in the class. *)
Definition all (cls : char -> bool) (s : str) : Prop :=
  Forall (fun c => cls c = true) s.

(** A state label as the edge pattern reads it: one or more of [0], [1]
    and the space. *)
Definition is_label (l : str) : Prop := l <> [] /\ all bitsp l.

(** An edge statement: two quoted labels around [->], with optional
    whitespace on both sides of the arrow. *)
Definition edge_stmt (src ws1 ws2 dst : str) : str :=
  [dq] ++ src ++ [dq] ++ ws1 ++ L "->" ++ ws2 ++ [dq] ++ dst ++ [dq].

(** [occ] is an edge statement with the source label [src]. *)
Definition is_edge_stmt (src : str) (occ : str) : Prop :=
  exists ws1 ws2 dst,
    occ = edge_stmt src ws1 ws2 dst /\
    is_label src /\ all isspace ws1 /\ all isspace ws2 /\ is_label dst.

(** Inversion of the matches of a composite pattern. *)
Ltac inv_matches :=
  repeat match goal with
  | H : matches (Seq _ _) _ _ |- _ => inversion H; subst; clear H
  | H : matches (Chr _) _ _ |- _ => inversion H; subst; clear H
  | H : matches (Group _ _) _ _ |- _ => inversion H; subst; clear H
  | H : matches (Rep _ _) _ _ |- _ => inversion H; subst; clear H
  | H : matches Bol _ _ |- _ => inversion H; subst; clear H
  | H : matches WordB _ _ |- _ => inversion H; subst; clear H
  end.

(** An edge statement with the source label [src] occurs in [line], after
    [pre]. *)
Definition edge_occurs (line pre src : str) : Prop :=
  exists occ post, line = pre ++ occ ++ post /\ is_edge_stmt src occ.

(** [src] is the source label of the leftmost edge statement of [line]. *)
Definition first_edge (line src : str) : Prop :=
  exists pre, edge_occurs line pre src /\
    forall pre' src', edge_occurs line pre' src' -> (length pre <= length pre')%nat.

(** ** Order and the blocks of the reordered text *)

(** [a] may stand before [b]: [b] is not smaller than [a]. *)
Definition ordered {A : Type} (lt : A -> A -> bool) (a b : A) : Prop :=
  lt b a = false.

(** Neither of [a] and [b] is smaller than the other. *)
Definition same_rank {A : Type} (lt : A -> A -> bool) (a b : A) : Prop :=
  lt a b = false /\ lt b a = false.

#[global] Instance same_rank_dec {A} (lt : A -> A -> bool) a b :
  Decision (same_rank lt a b).
Proof. unfold same_rank. apply _. Defined.

(** A closing line: [}] once stripped. *)
Definition is_closing (line : str) : Prop := Py.strip line = L "}".

(** The edge pattern is found in the line. *)
Definition has_edge (line : str) : Prop := search edge_pattern line <> None.

(** The lines that go to [edge_lines] and those that go to [prefix_lines]. *)
Definition is_edge_line (line : str) : Prop := ~ is_closing line /\ has_edge line.

Definition is_prefix_line (line : str) : Prop := ~ is_closing line /\ ~ has_edge line.

#[global] Instance is_closing_dec line : Decision (is_closing line).
Proof. unfold is_closing. apply _. Defined.

#[global] Instance has_edge_dec line : Decision (has_edge line).
Proof. unfold has_edge. apply _. Defined.

#[global] Instance is_edge_line_dec line : Decision (is_edge_line line).
Proof. unfold is_edge_line. apply _. Defined.

#[global] Instance is_prefix_line_dec line : Decision (is_prefix_line line).
Proof. unfold is_prefix_line. apply _. Defined.

(** The Hamming weight of a state label: how many [1] it has. *)
Definition hamming_weight (label : str) : N :=
  N.of_nat (count_occ N.eq_dec label (ch "1")).

(** The value of a state label read in base 2, the spaces being passed
    over; a label without a digit has the value 0. *)
Definition binary_step (acc : N) (c : char) : N :=
  if c =? ch "0" then 2 * acc
  else if c =? ch "1" then 2 * acc + 1
  else acc.

Definition binary_value (label : str) : N := fold_left binary_step label 0.

(** The key of a state label. *)
Definition label_key (label : str) : N * N :=
  (hamming_weight label, binary_value label).

(** The key of a line: that of the source label of its first edge statement. *)
Definition key_of (line : str) : N * N :=
  match search edge_pattern line with
  | Some m =>
      match assoc 1 (caps m) with
      | Some raw => label_key raw
      | None => (0, 0)
      end
  | None => (0, 0)
  end.

(** The comparison [sorted] makes between two lines. *)
Definition line_lt (a b : str) : bool := key_lt (key_of a) (key_of b).

(** The list of zero or one element. *)
Definition option_list {A} (o : option A) : list A :=
  match o with
  | Some x => [x]
  | None => []
  end.

(** What [reorder_lines] returns: the prefix lines, the edge lines in
    order, and the last closing line. *)
Definition canon (lines : list str) : list str :=
  filter is_prefix_line lines
  ++ Py.sorted line_lt (filter is_edge_line lines)
  ++ option_list (last (filter is_closing lines)).

(** The three parts of the output. *)
Definition prefix_block (lines : list str) : list str := filter is_prefix_line lines.
Definition edge_block (lines : list str) : list str :=
  Py.sorted line_lt (filter is_edge_line lines).
Definition closing_block (lines : list str) : list str :=
  option_list (last (filter is_closing lines)).

(** A string without a line boundary. *)
Definition nobreak (l : str) : Prop := Forall (fun c => islinebreak c = false) l.

(** Results can be compared. *)
#[global] Instance exn_eq_dec : EqDecision exn.
Proof. solve_decision. Defined.

#[global] Instance result_eq_dec {A} `{EqDecision A} : EqDecision (result A).
Proof. solve_decision. Defined.

(** ** Equations and variables *)

(** A Variable: [x] and one or more decimal digits. *)
Definition is_variable (v : str) : Prop :=
  exists ds, v = ch "x" :: ds /\ ds <> [] /\ all isdecimal ds.

(** A line of the shape of an equation: optional whitespace, a Variable,
    optional whitespace, [=], and a right-hand side. *)
Definition equation_line (line target rhs : str) : Prop :=
  exists ws ws',
    line = ws ++ target ++ ws' ++ ch "=" :: rhs /\
    all isspace ws /\ is_variable target /\ all isspace ws'.

(** No range of [rs1] meets a range of [rs2]. *)
Definition ranges_apart (rs1 rs2 : list (N * N)) : bool :=
  forallb (fun r1 => forallb (fun r2 => (snd r1 <? fst r2) || (snd r2 <? fst r1)) rs2) rs1.

(** A variable named by one of the lines: the target of an equation or a
    variable of its right-hand side. *)
Definition names (lines : list str) (v : str) : Prop :=
  exists line target rhs,
    line ∈ lines /\ equation_line (Py.strip line) target rhs /\
    (v = target \/ v ∈ findall var_re rhs).

(** A dependency stated by one of the lines. *)
Definition depends (lines : list str) (u v : str) : Prop :=
  exists line rhs,
    line ∈ lines /\ equation_line (Py.strip line) u rhs /\
    v ∈ findall var_re rhs /\ v <> u.

(** ** Labels and the text of the dependency graph *)

(** The digits [0] to [9]. *)
Definition ascii_digit (d : char) : bool := (48 <=? d) && (d <=? 57).

(** The subscript glyph of a digit [0] to [9]: U+2080 to U+2089. *)
Definition glyph (d : char) : char := d - 48 + 8320.

(** What the label formatter does to one digit of the name. *)
Definition subscript_digit (d : char) : char :=
  if ascii_digit d then glyph d else d.

(** The ten subscript glyphs. *)
Definition is_glyph (c : char) : bool := (8320 <=? c) && (c <=? 8329).

(** The label of a node; [_subscript_label] never raises. *)
Definition label_of (v : str) : str :=
  match _subscript_label v with
  | Ok l => l
  | Raise _ => v
  end.

(** The declaration of a node. *)
Definition node_text (v : str) : str :=
  L "  " ++ [dq] ++ v ++ [dq] ++ L " [label=" ++ [dq] ++ label_of v ++ [dq] ++ L "];".

(** The text returned for a graph that is not empty. *)
Definition graph_text (g : graph) : str :=
  Py.join nl
    (header ++ map node_text (Py.sorted Py.str_lt (elements (nodes g)))
       ++ map edge_line (Py.sorted pair_lt (elements (edges g))) ++ [L "}"]).

(** An occurrence of a Variable between word boundaries. *)
Definition var_occurs_at (p : option char) (s v : str) : Prop :=
  exists pre post,
    s = pre ++ v ++ post /\ is_variable v /\
    isword_opt (last_or p pre) = false /\ isword_opt (head post) = false.

(** The same, in a string of its own. *)
Definition var_occurs (s v : str) : Prop := var_occurs_at None s v.

(** Every range of [rs1] lies in a range of [rs2]. *)
Definition ranges_within (rs1 rs2 : list (N * N)) : bool :=
  forallb (fun r1 => existsb (fun r2 => (fst r2 <=? fst r1) && (snd r1 <=? snd r2)) rs2) rs1.

(** [t] does not start with a character of the class. *)
Definition head_not (cls : char -> bool) (t : str) : Prop :=
  match t with
  | [] => True
  | c :: _ => cls c = false
  end.

(** The cases of two code points compared both ways. *)
Ltac lt_cases x y :=
  destruct (N.ltb_spec x y), (N.ltb_spec y x), (N.eqb_spec x y), (N.eqb_spec y x);
  try lia; cbn [orb andb] in *.

(** ** Sample texts *)

(** The system of [DEFAULT_SYSTEM_TEXT], without its two header lines. *)
Definition example_system : str :=
  L "x1 = x2" ++ nl ++ L "x2 = x1 + x3" ++ nl ++ L "x3 = x2 + x1".

(** A text without any equation. *)
Definition headers_only : str :=
  L "NUMBER OF VARIABLES: 3" ++ nl ++ L "NUMBER OF STATES: 2" ++ nl ++ L "# x1 = x2".

(** An edge statement of the state space, as simFDS writes it. *)
Definition edge_text (src dst : string) : str :=
  [dq] ++ L src ++ [dq] ++ L " -> " ++ [dq] ++ L dst ++ [dq] ++ L ";".

(** A state space of two variables. *)
Definition sample_dot : str :=
  L "digraph test {" ++ nl
  ++ edge_text "1 1" "0 0" ++ nl
  ++ edge_text "0 1" "1 1" ++ nl
  ++ edge_text "0 0" "0 0" ++ nl
  ++ edge_text "1 0" "0 1" ++ nl
  ++ L "}" ++ nl.

(** Two graphs, one after the other. *)
Definition two_graphs : str :=
  L "digraph a {" ++ nl ++ edge_text "1" "0" ++ nl ++ L "}" ++ nl
  ++ L "digraph b {" ++ nl ++ edge_text "0" "1" ++ nl ++ L " }" ++ nl.

(** In the words of the specification: [label] is a quoted label that
    occurs in [line] after [pre]. *)
Definition quoted_label_occurs (line pre label : str) : Prop :=
  exists post, line = pre ++ [dq] ++ label ++ [dq] ++ post /\ is_label label.

(** In the words of the specification: [label] is the first quoted label
    occurring in [line]. *)
Definition first_quoted_label (line label : str) : Prop :=
  exists pre, quoted_label_occurs line pre label /\
    forall pre' label', quoted_label_occurs line pre' label' ->
      (length pre <= length pre')%nat.

(** A line with a quoted label before its edge statement:
    ["1 1" "0 1" -> "1"]. *)
Definition label_before_edge : str :=
  [dq] ++ L "1 1" ++ [dq] ++ L " "
  ++ [dq] ++ L "0 1" ++ [dq] ++ L " -> " ++ [dq] ++ L "1" ++ [dq].

(** ** Vocabulary of the further properties *)

(** The number of [1] in the binary writing of a number. *)
Fixpoint pos_popcount (p : positive) : N :=
  match p with
  | xH => 1
  | xO q => pos_popcount q
  | xI q => 1 + pos_popcount q
  end.

Definition popcount (n : N) : N :=
  match n with
  | 0 => 0
  | Npos p => pos_popcount p
  end.

(** Two neighbours whose exchange in the input cannot be seen in the output:
    not two prefix lines, not two closing lines, not two edge lines of the
    same key. *)
Definition may_swap (a b : str) : Prop :=
  ~ (is_prefix_line a /\ is_prefix_line b) /\
  ~ (is_closing a /\ is_closing b) /\
  ~ (has_edge a /\ has_edge b /\ key_for_line a = key_for_line b).

#[global] Instance may_swap_dec a b : Decision (may_swap a b).
Proof. unfold may_swap. apply _. Defined.

(** Lines as the canonicalizer leaves them: prefix lines, then edge lines
    that no later edge line precedes, then at most one closing line. *)
Definition in_order (lines : list str) : Prop :=
  exists p e c,
    lines = p ++ e ++ c /\
    Forall is_prefix_line p /\
    Forall has_edge e /\ StronglySorted (ordered line_lt) e /\
    Forall is_closing c /\ (length c <= 1)%nat.

(** The sample, in order. *)
Definition sample_dot_ordered : str :=
  L "digraph test {" ++ nl
  ++ edge_text "0 0" "0 0" ++ nl
  ++ edge_text "0 1" "1 1" ++ nl
  ++ edge_text "1 0" "0 1" ++ nl
  ++ edge_text "1 1" "0 0" ++ nl
  ++ L "}" ++ nl.

(** The sample with its first two edges exchanged. *)
Definition sample_dot_swapped : str :=
  L "digraph test {" ++ nl
  ++ edge_text "0 1" "1 1" ++ nl
  ++ edge_text "1 1" "0 0" ++ nl
  ++ edge_text "0 0" "0 0" ++ nl
  ++ edge_text "1 0" "0 1" ++ nl
  ++ L "}" ++ nl.

(** The example system, its equations in another order and one of them
    twice. *)
Definition example_system_shuffled : str :=
  L "x3 = x2 + x1" ++ nl ++ L "x1 = x2" ++ nl ++ L "x3 = x2 + x1" ++ nl
  ++ L "x2 = x1 + x3".

(** * The surroundings: [run_command], [compute_system_artifacts] and the routes *)

(** A path of [pathlib]: made from a string, or a path followed by a name
    ([parent / name]). *)
Inductive path : Type :=
| Path (s : str)
| Div (parent : path) (name : str).

(** What the program does to its surroundings, in the order it does it.  A
    look for a file records whether the file was found, a command its return
    code when it returned one. *)
Inductive event : Type :=
| EMkdtemp (dir : str)
| ERmtree (dir : str)
| EExists (p : path) (found : bool)
| ERead (p : path)
| EWrite (p : path) (content : str)
| ERun (argv : list str) (cwd : path) (returncode : option Z).

(** How a call ends: with a value or with an exception. *)
Inductive answer (E A : Type) : Type :=
| Returned (a : A)
| Raised (e : E).
Arguments Returned {E A} a.
Arguments Raised {E A} e.

(** The surroundings: the file system and the programs of the machine, in
    some state [W].  Each operation answers in a state and leaves a state;
    nothing is assumed of the answers.  [path_str] is [str] on paths,
    [BASE_DIR] the directory of [app.py], and [core_raised] an exception of
    the text functions as the surroundings see it. *)
Class OS (W E : Type) : Type := {
  os_mkdtemp : W -> W * answer E str;
  os_rmtree : str -> W -> W * answer E unit;
  os_exists : path -> W -> W * answer E bool;
  os_read_text : path -> W -> W * answer E str;
  os_write_text : path -> str -> W -> W * answer E unit;
  os_run : list str -> path -> W -> W * answer E (Z * str * str);
  path_str : path -> str;
  BASE_DIR : path;
  core_raised : exn -> E
}.

(** A computation in the surroundings: from a state to a state, the events
    that took place, and an answer. *)
Definition io (W E A : Type) : Type := W -> W * list event * answer E A.

Definition ret {W E A} (a : A) : io W E A := fun w => (w, [], Returned a).

Definition iobind {W E A B} (m : io W E A) (k : A -> io W E B) : io W E B :=
  fun w =>
    match m w with
    | (w1, t1, Returned a) =>
        match k a w1 with
        | (w2, t2, r) => (w2, t1 ++ t2, r)
        end
    | (w1, t1, Raised e) => (w1, t1, Raised e)
    end.

Notation "x <~ m ;; k" := (iobind m (fun x => k))
  (at level 100, m at next level, right associativity).

(** One operation, and the event it leaves. *)
Definition perform {W E A} (ev : answer E A -> event) (op : W -> W * answer E A)
    : io W E A :=
  fun w => match op w with (w', r) => (w', [ev r], r) end.

(** [p.exists()], [p.read_text(encoding="utf-8")] and
    [p.write_text(s, encoding="utf-8")]. *)
Definition path_exists {W E} `{!OS W E} (p : path) : io W E bool :=
  perform (fun r => EExists p match r with Returned b => b | Raised _ => false end)
          (os_exists p).

Definition read_text {W E} `{!OS W E} (p : path) : io W E str :=
  perform (fun _ => ERead p) (os_read_text p).

Definition write_text {W E} `{!OS W E} (p : path) (s : str) : io W E unit :=
  perform (fun _ => EWrite p s) (os_write_text p s).

(** A result of the text functions, in the surroundings. *)
Definition lift {W E A} `{!OS W E} (r : result A) : io W E A :=
  match r with
  | Ok a => ret a
  | Raise e => fun w => (w, [], Raised (core_raised e))
  end.

(** [BIN_DIR] and [SIMFDS_PATH]. *)
Definition BIN_DIR {W E} `{!OS W E} : path := Div BASE_DIR (L "bin").

Definition SIMFDS_PATH {W E} `{!OS W E} : path := Div BIN_DIR (L "simFDS").

(** [DEFAULT_SYSTEM_TEXT]. *)
Definition DEFAULT_SYSTEM_TEXT : str :=
  L "NUMBER OF VARIABLES: 3" ++ nl
  ++ L "NUMBER OF STATES: 2" ++ nl
  ++ L "x1 = x2" ++ nl
  ++ L "x2 = x1 + x3" ++ nl
  ++ L "x3 = x2 + x1" ++ nl.

Definition run_command {W E} `{!OS W E} (cmd : list str) (cwd : path)
    : io W E (Z * str * str) :=
  perform (fun r => ERun cmd cwd match r with
                                 | Returned proc => Some (fst (fst proc))
                                 | Raised _ => None
                                 end)
          (os_run cmd cwd).

(** [with tempfile.TemporaryDirectory() as d]: the directory is removed when
    the block is left, also by an exception; an exception of the removal
    takes the place of the answer of the block. *)
Definition with_tempdir {W E A} `{!OS W E} (body : str -> io W E A) : io W E A :=
  fun w =>
    match os_mkdtemp w with
    | (w1, Raised e) => (w1, [], Raised e)
    | (w1, Returned d) =>
        match body d w1 with
        | (w2, t, r) =>
            match os_rmtree d w2 with
            | (w3, Returned _) => (w3, EMkdtemp d :: t ++ [ERmtree d], r)
            | (w3, Raised e) => (w3, EMkdtemp d :: t ++ [ERmtree d], Raised e)
            end
        end
    end.

(** The four strings returned. *)
Record artifacts : Type := Artifacts {
  statespace_svg : str;
  depgraph_svg : str;
  limitcycles_text : str;
  statespace_dot_text : str
}.

(** [dot -Tsvg -o svg dot_file] in the directory, and the image when the
    command returned 0 and left one. *)
Definition render_svg {W E} `{!OS W E} (tmpdir dot_file svg_file : path)
    : io W E str :=
  proc <~ run_command [L "dot"; L "-Tsvg"; L "-o"; path_str svg_file; path_str dot_file]
                      tmpdir ;;
  if bool_decide (fst (fst proc) = 0%Z) then
    there <~ path_exists svg_file ;;
    if there : bool then read_text svg_file else ret []
  else ret [].

Definition statespace_part {W E} `{!OS W E} (tmpdir : path) : io W E (str * str) :=
  let ss_dot := Div tmpdir (L "system-statespace.dot") in
  let ss_svg := Div tmpdir (L "system-statespace.svg") in
  there <~ path_exists ss_dot ;;
  if there : bool then
    raw_dot <~ read_text ss_dot ;;
    text <~ lift (_reorder_statespace_dot raw_dot) ;;
    svg <~ render_svg tmpdir ss_dot ss_svg ;;
    ret (svg, text)
  else ret ([], []).

Definition limitcycles_part {W E} `{!OS W E} (tmpdir : path) : io W E str :=
  let lc_txt := Div tmpdir (L "system-limitcycles.txt") in
  there <~ path_exists lc_txt ;;
  if there : bool then read_text lc_txt else ret [].

Definition dependency_part {W E} `{!OS W E} (system_text : str) (tmpdir : path)
    : io W E str :=
  dep_dot_src <~ lift (build_dependency_dot system_text) ;;
  match dep_dot_src with
  | [] => ret []
  | _ =>
      let dep_dot := Div tmpdir (L "system-dep.dot") in
      let dep_svg := Div tmpdir (L "system-dep.svg") in
      _ <~ write_text dep_dot dep_dot_src ;;
      render_svg tmpdir dep_dot dep_svg
  end.

(** The block under [with]. *)
Definition in_tempdir {W E} `{!OS W E} (system_text tmpdir_str : str)
    : io W E artifacts :=
  let tmpdir := Path tmpdir_str in
  _ <~ write_text (Div tmpdir (L "system.pds")) system_text ;;
  there <~ path_exists SIMFDS_PATH ;;
  _ <~ (if there : bool
        then _ <~ run_command [path_str SIMFDS_PATH; L "system"] tmpdir ;; ret tt
        else ret tt) ;;
  ss <~ statespace_part tmpdir ;;
  lc <~ limitcycles_part tmpdir ;;
  dep <~ dependency_part system_text tmpdir ;;
  ret (Artifacts (fst ss) dep lc (snd ss)).

Definition compute_system_artifacts {W E} `{!OS W E} (system_text : str)
    : io W E artifacts :=
  with_tempdir (in_tempdir system_text).

(** What a route answers: a template with its variables, or a redirection
    to the URL of an endpoint. *)
Inductive response : Type :=
| Render (template : str) (context : list (str * str))
| RedirectTo (endpoint : str).

(** Of a request, what the routes read: the method and the form. *)
Record request : Type := Request {
  method : str;
  form : gmap str str
}.

(** [index]: the answer and the session as the route leaves it. *)
Definition index {W E} `{!OS W E} (req : request) (session : gmap str str)
    : io W E (response * gmap str str) :=
  let system_text := default DEFAULT_SYSTEM_TEXT (session !! L "system_text") in
  let page (text : str) (a : artifacts) :=
    Render (L "index.html")
      [ (L "system_text", text);
        (L "statespace_svg", statespace_svg a);
        (L "depgraph_svg", depgraph_svg a);
        (L "limitcycles_text", limitcycles_text a);
        (L "statespace_dot", statespace_dot_text a) ] in
  if bool_decide (method req = L "POST") then
    let system_text :=
      match Py.strip (default [] (form req !! L "system_text")) with
      | [] => DEFAULT_SYSTEM_TEXT
      | s => s
      end in
    let session := <[L "system_text" := system_text]> session in
    a <~ compute_system_artifacts system_text ;;
    ret (page system_text a, session)
  else ret (page system_text (Artifacts [] [] [] []), session).

(** [graph_view]. *)
Definition graph_view {W E} `{!OS W E} (kind : str) (session : gmap str str)
    : io W E response :=
  let system_text := default DEFAULT_SYSTEM_TEXT (session !! L "system_text") in
  if bool_decide (kind ∈ [L "statespace"; L "dependency"]) then
    a <~ compute_system_artifacts system_text ;;
    let '(svg, title) :=
      if bool_decide (kind = L "statespace")
      then (statespace_svg a, L "State space " ++ [8211] ++ L " Jaguar")
      else (depgraph_svg a, L "Dependency graph " ++ [8211] ++ L " Jaguar") in
    match svg with
    | [] => ret (RedirectTo (L "index"))
    | _ => ret (Render (L "graph_view.html") [(L "title", title); (L "svg", svg)])
    end
  else ret (RedirectTo (L "index")).

(** The events of a computation and its answer. *)
Definition trace_of {W E A} (x : W * list event * answer E A) : list event :=
  snd (fst x).

Definition answer_of {W E A} (x : W * list event * answer E A) : answer E A :=
  snd x.

(** [protocol R h]: every event of the history [h] is allowed by [R] after
    the event directly before it ([None] for the first event). *)
Definition protocol (R : option event -> event -> Prop) (h : list event) : Prop :=
  forall pre e post, h = pre ++ e :: post -> R (last pre) e.

(** [triple R P m Q]: run after a history that follows [R] and whose last
    event satisfies [P], the computation [m] leaves a history that follows
    [R], and [Q] holds of its last event and of the value, if [m] returns. *)
Definition triple {W E A} (R : option event -> event -> Prop)
    (P : option event -> Prop) (m : io W E A) (Q : option event -> A -> Prop)
    : Prop :=
  forall h w,
    protocol R h -> P (last h) ->
    protocol R (h ++ trace_of (m w)) /\
    match answer_of (m w) with
    | Returned a => Q (last (h ++ trace_of (m w))) a
    | Raised _ => True
    end.

(** The file [name] of the temporary directory [dir]. *)
Definition file (dir : str) (name : string) : path := Div (Path dir) (L name).

(** The two command lines. *)
Definition simfds_command {W E} `{!OS W E} : list str :=
  [path_str SIMFDS_PATH; L "system"].

Definition dot_command {W E} `{!OS W E} (svg_file dot_file : path) : list str :=
  [L "dot"; L "-Tsvg"; L "-o"; path_str svg_file; path_str dot_file].

(** The files the program reads, and the graphs it draws: the file [dot]
    reads and the image it leaves. *)
Definition read_files : list string :=
  [ "system-statespace.dot"%string; "system-statespace.svg"%string;
    "system-limitcycles.txt"%string; "system-dep.svg"%string ].

Definition graphs : list (string * string) :=
  [ ("system-statespace.dot"%string, "system-statespace.svg"%string);
    ("system-dep.dot"%string, "system-dep.svg"%string) ].

(** The last event when a part of the block is done: the run of simFDS, the
    drawing of a graph, the state space, the limit cycles. *)
Definition after_simfds {W E} `{!OS W E} (dir : str) (prev : option event) : Prop :=
  prev = Some (EExists SIMFDS_PATH false) \/
  exists rc, prev = Some (ERun simfds_command (Path dir) (Some rc)).

Definition after_render {W E} `{!OS W E} (dir : str) (dot_name svg_name : string)
    (prev : option event) : Prop :=
  (exists rc, rc <> 0%Z /\
     prev = Some (ERun (dot_command (file dir svg_name) (file dir dot_name))
                       (Path dir) (Some rc))) \/
  prev = Some (EExists (file dir svg_name) false) \/
  prev = Some (ERead (file dir svg_name)).

Definition after_statespace {W E} `{!OS W E} (dir : str) (prev : option event) : Prop :=
  prev = Some (EExists (file dir "system-statespace.dot") false) \/
  after_render dir "system-statespace.dot" "system-statespace.svg" prev.

Definition after_limitcycles (dir : str) (prev : option event) : Prop :=
  prev = Some (EExists (file dir "system-limitcycles.txt") false) \/
  prev = Some (ERead (file dir "system-limitcycles.txt")).

(** [next system_text dir prev e]: in the block under [with], for
    [system_text] in the directory [dir], the event [e] can come directly
    after the event [prev]. *)
Inductive next {W E} `{!OS W E} (system_text dir : str)
    : option event -> event -> Prop :=
| N_write_pds :
    next system_text dir None (EWrite (file dir "system.pds") system_text)
| N_exists_simfds found :
    next system_text dir
      (Some (EWrite (file dir "system.pds") system_text))
      (EExists SIMFDS_PATH found)
| N_run_simfds code :
    next system_text dir
      (Some (EExists SIMFDS_PATH true))
      (ERun simfds_command (Path dir) code)
| N_exists_statespace prev found :
    after_simfds dir prev ->
    next system_text dir prev (EExists (file dir "system-statespace.dot") found)
| N_dot_statespace code :
    next system_text dir
      (Some (ERead (file dir "system-statespace.dot")))
      (ERun (dot_command (file dir "system-statespace.svg")
                         (file dir "system-statespace.dot")) (Path dir) code)
| N_exists_image dot_name svg_name found :
    (dot_name, svg_name) ∈ graphs ->
    next system_text dir
      (Some (ERun (dot_command (file dir svg_name) (file dir dot_name))
                  (Path dir) (Some 0%Z)))
      (EExists (file dir svg_name) found)
| N_exists_limitcycles prev found :
    after_statespace dir prev ->
    next system_text dir prev (EExists (file dir "system-limitcycles.txt") found)
| N_read name :
    name ∈ read_files ->
    next system_text dir (Some (EExists (file dir name) true)) (ERead (file dir name))
| N_write_dep prev s :
    after_limitcycles dir prev ->
    s <> [] -> build_dependency_dot system_text = Ok s ->
    next system_text dir prev (EWrite (file dir "system-dep.dot") s)
| N_dot_dep s code :
    s <> [] -> build_dependency_dot system_text = Ok s ->
    next system_text dir
      (Some (EWrite (file dir "system-dep.dot") s))
      (ERun (dot_command (file dir "system-dep.svg") (file dir "system-dep.dot"))
            (Path dir) code).

(** Where the strings returned come from. *)
Definition from_files (system_text : str) (a : artifacts) : Prop :=
  ((statespace_dot_text a = [] /\ statespace_svg a = []) \/
   exists raw_dot, _reorder_statespace_dot raw_dot = Ok (statespace_dot_text a)) /\
  (depgraph_svg a <> [] ->
   exists s, s <> [] /\ build_dependency_dot system_text = Ok s).

Ltac member := apply list_elem_of_In; simpl; tauto.

Ltac known H := lazy beta iota in H; subst.

(** An event that stays in the directory [dir]: one of the files the
    program reads looked for or read there, one of the two files it writes
    written there, a command run there; the one look outside is for the
    simFDS binary. *)
Definition inside {W E} `{!OS W E} (dir : str) (e : event) : Prop :=
  match e with
  | EMkdtemp _ | ERmtree _ => False
  | EExists p _ =>
      (exists name, name ∈ read_files /\ p = file dir name) \/ p = SIMFDS_PATH
  | ERead p => exists name, name ∈ read_files /\ p = file dir name
  | EWrite p _ => p = file dir "system.pds" \/ p = file dir "system-dep.dot"
  | ERun _ cwd _ => cwd = Path dir
  end.

(** The page of [index], for a text and four strings. *)
Definition index_page (text : str) (a : artifacts) : response :=
  Render (L "index.html")
    [ (L "system_text", text);
      (L "statespace_svg", statespace_svg a);
      (L "depgraph_svg", depgraph_svg a);
      (L "limitcycles_text", limitcycles_text a);
      (L "statespace_dot", statespace_dot_text a) ].

(** A string without whitespace at either end. *)
Definition trimmed (s : str) : Prop :=
  forall c, head s = Some c \/ last s = Some c -> isspace c = false.

(** A machine to run the program on.  Its state is the list of the files
    with their texts.  There is no simFDS binary, and every command leaves
    the image [system-dep.svg] in its directory and returns 0. *)
Fixpoint path_eqb (p q : path) : bool :=
  match p, q with
  | Path s, Path s' => bool_decide (s = s')
  | Div p' name, Div q' name' => path_eqb p' q' && bool_decide (name = name')
  | _, _ => false
  end.

Fixpoint posix_str (p : path) : str :=
  match p with
  | Path s => s
  | Div parent name => posix_str parent ++ L "/" ++ name
  end.

Definition file_text (p : path) (files : list (path * str)) : option str :=
  match List.find (fun f => path_eqb (fst f) p) files with
  | Some f => Some (snd f)
  | None => None
  end.

Definition put_file (p : path) (s : str) (files : list (path * str))
    : list (path * str) :=
  (p, s) :: List.filter (fun f => negb (path_eqb (fst f) p)) files.

Definition in_dir (d : str) (p : path) : bool :=
  match p with
  | Div (Path d') _ => bool_decide (d' = d)
  | _ => false
  end.

Definition small_machine : OS (list (path * str)) unit := {|
  os_mkdtemp files := (files, Returned (L "/tmp/tmp1"));
  os_rmtree d files :=
    (List.filter (fun f => negb (in_dir d (fst f))) files, Returned tt);
  os_exists p files :=
    (files, Returned match file_text p files with
                     | Some _ => true
                     | None => false
                     end);
  os_read_text p files :=
    (files, match file_text p files with
            | Some s => Returned s
            | None => Raised tt
            end);
  os_write_text p s files := (put_file p s files, Returned tt);
  os_run argv cwd files :=
    (put_file (Div cwd (L "system-dep.svg")) (L "<svg/>") files,
     Returned (0%Z, [], []));
  path_str := posix_str;
  BASE_DIR := Path (L "/srv/app");
  core_raised _ := tt
|}.

(** * Lemmas *)

(** ** The search finds what the pattern matches *)

Lemma last_or_nil p : last_or p [] = p.
Proof. reflexivity. Qed.

Lemma last_or_cons p c r : last_or p (c :: r) = last_or (Some c) r.
Proof.
  unfold last_or. destruct r as [|d r]; [reflexivity|].
  change (last (c :: d :: r)) with (last (d :: r)).
  destruct (last (d :: r)) eqn:E; [reflexivity|].
  apply last_None in E. discriminate.
Qed.

Lemma rep_sound cls k cs s : forall lo p m,
  rep cls lo p s cs k = Some m ->
  exists r t, s = r ++ t /\ Forall (fun c => cls c = true) r /\
    (lo <= length r)%nat /\ k (MState (last_or p r) t cs) = Some m.
Proof.
  induction s as [|c s IH]; intros lo p m H; simpl in H.
  - destruct lo; [|discriminate].
    exists [], []. repeat split; [constructor|lia|exact H].
  - destruct (cls c) eqn:Hc.
    + destruct (rep cls (Nat.pred lo) (Some c) s cs k) as [m'|] eqn:E.
      * injection H as <-.
        apply IH in E as (r & t & -> & Hr & Hlo & Hk).
        exists (c :: r), t. rewrite last_or_cons.
        repeat split; [constructor; assumption|simpl; lia|exact Hk].
      * destruct lo; [|discriminate].
        exists [], (c :: s). repeat split; [constructor|lia|exact H].
    + destruct lo; [|discriminate].
      exists [], (c :: s). repeat split; [constructor|lia|exact H].
Qed.

Lemma rep_complete cls k cs s : forall lo p,
  rep cls lo p s cs k = None ->
  forall r t, s = r ++ t -> Forall (fun c => cls c = true) r ->
    (lo <= length r)%nat -> k (MState (last_or p r) t cs) = None.
Proof.
  induction s as [|c s IH]; intros lo p H r t Hs Hr Hlo; simpl in H.
  - destruct r; [|discriminate]. simpl in Hs. subst t.
    destruct lo; [exact H|simpl in Hlo; lia].
  - destruct r as [|d r].
    + simpl in Hs. subst t. destruct lo; [|simpl in Hlo; lia].
      destruct (cls c); [|exact H].
      destruct (rep cls _ (Some c) s cs k); [discriminate|exact H].
    + injection Hs as <- ->. apply Forall_cons in Hr as [Hd Hr].
      rewrite Hd in H. rewrite last_or_cons.
      destruct (rep cls (Nat.pred lo) (Some c) (r ++ t) cs k) eqn:E; [discriminate|].
      eapply IH; [exact E|reflexivity|exact Hr|simpl in Hlo; lia].
Qed.

Lemma run_sound r : forall st k m,
  run r st k = Some m -> exists st', matches r st st' /\ k st' = Some m.
Proof.
  induction r as [c|cls lo| | |n r IH|r1 IH1 r2 IH2]; intros [p s cs] k m H; simpl in H.
  - destruct s as [|d s]; [discriminate|].
    destruct (N.eqb_spec d c) as [->|]; [|discriminate].
    eexists. split; [constructor|exact H].
  - apply rep_sound in H as (r & t & -> & Hr & Hlo & Hk).
    eexists. split; [constructor; eassumption|exact Hk].
  - destruct p; [discriminate|]. eexists. split; [constructor|exact H].
  - destruct (at_boundary _) eqn:E; [|discriminate].
    eexists. split; [constructor; exact E|exact H].
  - apply IH in H as (st' & Hm & Hk).
    eexists. split; [constructor; exact Hm|exact Hk].
  - apply IH1 in H as (st' & Hm1 & H). apply IH2 in H as (st'' & Hm2 & Hk).
    eexists. split; [econstructor; eassumption|exact Hk].
Qed.

Lemma run_complete r : forall st k,
  run r st k = None -> forall st', matches r st st' -> k st' = None.
Proof.
  induction r as [c|cls lo| | |n r IH|r1 IH1 r2 IH2]; intros st k H st' Hm;
    inversion Hm; subst; simpl in H.
  - rewrite N.eqb_refl in H. exact H.
  - eapply rep_complete; eauto.
  - exact H.
  - match goal with E : at_boundary _ = true |- _ => rewrite E in H end. exact H.
  - match goal with M : matches r _ _ |- _ => apply (IH _ _ H) in M end. assumption.
  - match goal with M1 : matches r1 _ _, M2 : matches r2 _ _ |- _ =>
      apply (IH1 _ _ H) in M1; apply (IH2 _ _ M1) in M2 end. assumption.
Qed.

(** ** The edge pattern *)

(** *** Lists *)

Lemma all_app_cons_inj (cls : char -> bool) l1 l2 x y r1 r2 :
  all cls l1 -> all cls l2 -> cls x = false -> cls y = false ->
  l1 ++ x :: r1 = l2 ++ y :: r2 -> l1 = l2 /\ x = y /\ r1 = r2.
Proof.
  intros H1. revert l2. induction H1 as [|a l1 Ha _ IH]; intros l2 H2 Hx Hy E.
  - destruct H2 as [|b l2 Hb _]; simpl in E.
    + injection E as -> ->. auto.
    + injection E as -> _. congruence.
  - destruct H2 as [|b l2 Hb H2]; simpl in E.
    + injection E as -> _. congruence.
    + injection E as -> E. destruct (IH l2 H2 Hx Hy E) as (-> & -> & ->). auto.
Qed.

Lemma consumed_app p q r t cs cs' :
  consumed (MState p (r ++ t) cs) (MState q t cs') = r.
Proof.
  unfold consumed. simpl. rewrite length_app.
  replace (length r + length t - length t)%nat with (length r) by lia.
  apply take_app_length.
Qed.

Lemma length_pos_nonnil {A} (l : list A) : (1 <= length l)%nat <-> l <> [].
Proof. destruct l; simpl; split; (congruence || lia). Qed.

Lemma edge_stmt_eq src ws1 ws2 dst post :
  edge_stmt src ws1 ws2 dst ++ post =
  dq :: src ++ dq :: ws1 ++ 45 :: 62 :: ws2 ++ dq :: dst ++ dq :: post.
Proof.
  unfold edge_stmt. change (L "->") with [45; 62].
  repeat (rewrite <- ?app_assoc; simpl; f_equal).
Qed.

Lemma matches_edge_pattern p s cs m :
  matches edge_pattern (MState p s cs) m <->
  exists src occ post,
    s = occ ++ post /\ is_edge_stmt src occ /\
    m = MState (Some dq) post ((1%nat, src) :: cs).
Proof.
  unfold edge_pattern. change (ch "-") with 45. change (ch ">") with 62. split.
  - intros H. inv_matches. cbn [prev rest caps] in *. subst.
    rewrite consumed_app.
    match goal with H : (1 <= length ?r)%nat, H' : (1 <= length ?r')%nat |- 
       exists _ _ _, _ :: ?r ++ _ :: ?w1 ++ _ :: _ :: ?w2 ++ _ :: ?r' ++ _ :: ?post = _ /\ _ =>
       exists r, (edge_stmt r w1 w2 r'), post; rewrite edge_stmt_eq;
       split; [reflexivity|split; [|reflexivity]];
       exists w1, w2, r'
    end.
    repeat split; try (apply length_pos_nonnil; assumption); assumption.
  - intros (src & occ & post & -> & (ws1 & ws2 & dst & -> & [Hs1 Hs2] & Hw1 & Hw2 & [Hd1 Hd2]) & ->).
    rewrite edge_stmt_eq.
    econstructor; [constructor|].
    econstructor.
    { constructor. constructor; [exact Hs2|apply length_pos_nonnil; exact Hs1]. }
    cbn [prev rest caps]. rewrite consumed_app.
    econstructor; [constructor|].
    econstructor; [constructor; [exact Hw1|lia]|].
    econstructor; [constructor|].
    econstructor; [constructor|].
    econstructor; [constructor; [exact Hw2|lia]|].
    econstructor; [constructor|].
    econstructor; [constructor; [exact Hd2|apply length_pos_nonnil; exact Hd1]|].
    constructor.
Qed.

Lemma edge_stmt_unique src1 occ1 post1 src2 occ2 post2 :
  is_edge_stmt src1 occ1 -> is_edge_stmt src2 occ2 ->
  occ1 ++ post1 = occ2 ++ post2 ->
  src1 = src2 /\ occ1 = occ2 /\ post1 = post2.
Proof.
  intros (w1 & w2 & d & -> & [_ Hs] & Hw1 & Hw2 & [_ Hd]).
  intros (w1' & w2' & d' & -> & [_ Hs'] & Hw1' & Hw2' & [_ Hd']).
  rewrite !edge_stmt_eq. intros E. injection E as E.
  apply (all_app_cons_inj bitsp) in E as (-> & _ & E); [|assumption..|reflexivity|reflexivity].
  apply (all_app_cons_inj isspace) in E as (-> & _ & E); [|assumption..|reflexivity|reflexivity].
  injection E as E.
  apply (all_app_cons_inj isspace) in E as (-> & _ & E); [|assumption..|reflexivity|reflexivity].
  apply (all_app_cons_inj bitsp) in E as (-> & _ & E); [|assumption..|reflexivity|reflexivity].
  subst. auto.
Qed.

Lemma run_Some_matches r st m : run r st Some = Some m -> matches r st m.
Proof. intros H. apply run_sound in H as (st' & Hm & [= ->]). exact Hm. Qed.

Lemma run_None_matches r st m : run r st Some = None -> ~ matches r st m.
Proof. intros H Hm. apply (run_complete _ _ _ H) in Hm. discriminate. Qed.

Lemma matches_run r st m : matches r st m -> exists m', run r st Some = Some m'.
Proof.
  intros Hm. destruct (run r st Some) eqn:E; [eauto|].
  exfalso. eapply run_None_matches; eauto.
Qed.

(** When a pattern has at most one way to match at a position, the
    backtracking search hands that match to the rest of the pattern. *)
Lemma run_det r st st' k :
  (forall m1 m2, matches r st m1 -> matches r st m2 -> m1 = m2) ->
  matches r st st' -> run r st k = k st'.
Proof.
  intros Hdet Hm. destruct (run r st k) as [m|] eqn:E.
  - apply run_sound in E as (st'' & Hm' & Hk).
    rewrite (Hdet _ _ Hm Hm'). symmetry. exact Hk.
  - symmetry. eapply run_complete; eauto.
Qed.

Lemma search_from_Some r s : forall p m,
  search_from r p s = Some m ->
  exists pre suf,
    s = pre ++ suf /\ matches r (MState (last_or p pre) suf []) m /\
    forall pre' suf' m', s = pre' ++ suf' -> (length pre' < length pre)%nat ->
      ~ matches r (MState (last_or p pre') suf' []) m'.
Proof.
  induction s as [|c s IH]; intros p m H; simpl in H.
  - destruct (run r (MState p [] []) Some) eqn:E; [|discriminate].
    injection H as ->. exists [], []. split; [reflexivity|]. split.
    + apply run_Some_matches. exact E.
    + intros ? ? ? _ Hl. simpl in Hl. lia.
  - destruct (run r (MState p (c :: s) []) Some) eqn:E.
    + injection H as ->. exists [], (c :: s). split; [reflexivity|]. split.
      * apply run_Some_matches. exact E.
      * intros ? ? ? _ Hl. simpl in Hl. lia.
    + apply IH in H as (pre & suf & -> & Hm & Hmin).
      exists (c :: pre), suf. split; [reflexivity|]. rewrite last_or_cons.
      split; [exact Hm|]. intros pre' suf' m' Hs Hl.
      destruct pre' as [|d pre'].
      * simpl in Hs. subst suf'. apply run_None_matches. exact E.
      * injection Hs as <- Hs. rewrite last_or_cons.
        apply Hmin; [exact Hs|simpl in Hl; lia].
Qed.

Lemma search_from_None r s : forall p,
  search_from r p s = None ->
  forall pre suf m, s = pre ++ suf ->
    ~ matches r (MState (last_or p pre) suf []) m.
Proof.
  induction s as [|c s IH]; intros p H pre suf m Hs; simpl in H.
  - destruct (run r (MState p [] []) Some) eqn:E; [discriminate|].
    destruct pre; [|discriminate]. simpl in Hs. subst suf.
    apply run_None_matches. exact E.
  - destruct (run r (MState p (c :: s) []) Some) eqn:E; [discriminate|].
    destruct pre as [|d pre].
    + simpl in Hs. subst suf. apply run_None_matches. exact E.
    + injection Hs as <- Hs. rewrite last_or_cons. eapply IH; eauto.
Qed.

Lemma edge_occurs_matches line pre src :
  edge_occurs line pre src <->
  exists suf m p, line = pre ++ suf /\ matches edge_pattern (MState p suf []) m /\
    assoc 1 (caps m) = Some src.
Proof.
  split.
  - intros (occ & post & -> & Hocc). exists (occ ++ post), (MState (Some dq) post [(1%nat, src)]), None.
    split; [reflexivity|]. split; [|reflexivity].
    apply matches_edge_pattern. exists src, occ, post. auto.
  - intros (suf & m & p & -> & Hm & Hg).
    apply matches_edge_pattern in Hm as (src' & occ & post & -> & Hocc & ->).
    simpl in Hg. injection Hg as ->. exists occ, post. auto.
Qed.

Lemma first_edge_unique line src1 src2 :
  first_edge line src1 -> first_edge line src2 -> src1 = src2.
Proof.
  intros (pre1 & H1 & Hmin1) (pre2 & H2 & Hmin2).
  pose proof (Hmin1 _ _ H2). pose proof (Hmin2 _ _ H1).
  destruct H1 as (occ1 & post1 & E1 & Ho1), H2 as (occ2 & post2 & E2 & Ho2).
  rewrite E1 in E2. apply app_inj_1 in E2 as [_ E2]; [|lia].
  eapply edge_stmt_unique in E2; [|eassumption..]. tauto.
Qed.

Lemma search_edge_Some line m :
  search edge_pattern line = Some m ->
  exists src, first_edge line src /\ group 1 m = Ok src.
Proof.
  intros H. apply search_from_Some in H as (pre & suf & -> & Hm & Hmin).
  pose proof Hm as Hm'.
  apply matches_edge_pattern in Hm' as (src & occ & post & -> & Hocc & ->).
  exists src. split; [|reflexivity]. exists pre. split.
  - exists occ, post. auto.
  - intros pre' src' (occ' & post' & E & Hocc').
    destruct (decide (length pre <= length pre')%nat) as [|Hn]; [assumption|exfalso].
    eapply (Hmin pre' (occ' ++ post')); [exact E|lia|].
    apply matches_edge_pattern. exists src', occ', post'. auto.
Qed.

Lemma search_edge_None line :
  search edge_pattern line = None <-> forall pre src, ~ edge_occurs line pre src.
Proof.
  split.
  - intros H pre src (occ & post & E & Hocc).
    eapply (search_from_None _ _ _ H pre (occ ++ post)); [exact E|].
    apply matches_edge_pattern. exists src, occ, post. auto.
  - intros H. destruct (search edge_pattern line) eqn:E; [exfalso|reflexivity].
    apply search_edge_Some in E as (src & (pre & Ho & _) & _). eapply H; eauto.
Qed.

Lemma first_edge_search line src :
  first_edge line src ->
  exists m, search edge_pattern line = Some m /\ group 1 m = Ok src.
Proof.
  intros Hf. destruct (search edge_pattern line) as [m|] eqn:E.
  - exists m. split; [reflexivity|].
    apply search_edge_Some in E as (src' & Hf' & Hg).
    rewrite (first_edge_unique _ _ _ Hf Hf'). exact Hg.
  - destruct Hf as (pre & Ho & _). exfalso.
    eapply search_edge_None in E. eauto.
Qed.

(** ** Stable sorting *)

Section SortedFacts.
Context {A : Type} (lt : A -> A -> bool).

Hypothesis lt_asym : forall a b, lt a b = true -> lt b a = false.
Hypothesis lt_negtrans : forall a b c, lt b a = false -> lt c b = false -> lt c a = false.

Lemma insert_sorted_perm x l : Py.insert_sorted lt x l ≡ₚ x :: l.
Proof.
  induction l as [|y l IH]; simpl; [reflexivity|].
  destruct (lt y x); [|reflexivity].
  rewrite IH. apply Permutation_swap.
Qed.

Lemma sorted_perm l : Py.sorted lt l ≡ₚ l.
Proof.
  induction l as [|x l IH]; simpl; [reflexivity|].
  rewrite insert_sorted_perm, IH. reflexivity.
Qed.

Lemma insert_sorted_ordered x l :
  StronglySorted (ordered lt) l -> StronglySorted (ordered lt) (Py.insert_sorted lt x l).
Proof.
  induction 1 as [|y l Hl IH Hy]; simpl; [repeat constructor|].
  destruct (lt y x) eqn:E.
  - constructor; [exact IH|].
    rewrite insert_sorted_perm. constructor; [|exact Hy].
    apply lt_asym. exact E.
  - constructor; [constructor; assumption|].
    constructor; [exact E|].
    eapply Forall_impl; [exact Hy|]. intros z Hz. unfold ordered in *.
    eapply lt_negtrans; eauto.
Qed.

Lemma sorted_ordered l : StronglySorted (ordered lt) (Py.sorted lt l).
Proof.
  induction l as [|x l IH]; simpl; [constructor|].
  apply insert_sorted_ordered. exact IH.
Qed.

Lemma insert_sorted_head x l :
  Forall (ordered lt x) l -> Py.insert_sorted lt x l = x :: l.
Proof.
  destruct 1 as [|y l Hy _]; simpl; [reflexivity|].
  unfold ordered in Hy. rewrite Hy. reflexivity.
Qed.

(** Sorting a list that is in order already changes nothing. *)
Lemma sorted_id l : StronglySorted (ordered lt) l -> Py.sorted lt l = l.
Proof.
  induction 1 as [|x l Hl IH Hx]; simpl; [reflexivity|].
  rewrite IH. apply insert_sorted_head. exact Hx.
Qed.

Lemma sorted_idem l : Py.sorted lt (Py.sorted lt l) = Py.sorted lt l.
Proof. apply sorted_id, sorted_ordered. Qed.

(** Stability: elements none of which is smaller than another keep their
    order. *)
Lemma insert_sorted_filter (P : A -> Prop) `{!forall a, Decision (P a)} x l :
  (forall a b, P a -> P b -> lt a b = false) ->
  filter P (Py.insert_sorted lt x l) = filter P (x :: l).
Proof.
  intros HP. induction l as [|y l IH]; simpl; [reflexivity|].
  destruct (lt y x) eqn:E; [|reflexivity].
  rewrite filter_cons, IH, !filter_cons.
  destruct (decide (P y)) as [Hy|]; [|reflexivity].
  destruct (decide (P x)) as [Hx|]; [|reflexivity].
  rewrite (HP _ _ Hy Hx) in E. discriminate.
Qed.

Lemma sorted_filter (P : A -> Prop) `{!forall a, Decision (P a)} l :
  (forall a b, P a -> P b -> lt a b = false) ->
  filter P (Py.sorted lt l) = filter P l.
Proof.
  intros HP. induction l as [|x l IH]; simpl; [reflexivity|].
  rewrite insert_sorted_filter by exact HP.
  rewrite !filter_cons, IH. reflexivity.
Qed.
End SortedFacts.

(** Sorting by a key that never raises. *)
Lemma map_result_ok {A B} (f : A -> result B) (g : A -> B) l :
  (forall x, f x = Ok (g x)) -> map_result f l = Ok (map g l).
Proof.
  intros H. induction l as [|x l IH]; simpl; [reflexivity|].
  rewrite H, IH. reflexivity.
Qed.

Lemma insert_sorted_keyed {A K} (lt : K -> K -> bool) (g : A -> K) x l :
  Py.insert_sorted (fun a b => lt (fst a) (fst b)) (g x, x) (map (fun y => (g y, y)) l) =
  map (fun y => (g y, y)) (Py.insert_sorted (fun a b => lt (g a) (g b)) x l).
Proof.
  induction l as [|y l IH]; simpl; [reflexivity|].
  destruct (lt (g y) (g x)); simpl; [rewrite IH|]; reflexivity.
Qed.

Lemma sorted_keyed {A K} (lt : K -> K -> bool) (g : A -> K) l :
  Py.sorted (fun a b => lt (fst a) (fst b)) (map (fun y => (g y, y)) l) =
  map (fun y => (g y, y)) (Py.sorted (fun a b => lt (g a) (g b)) l).
Proof.
  induction l as [|x l IH]; simpl; [reflexivity|].
  rewrite IH. apply insert_sorted_keyed.
Qed.

Lemma sorted_key_ok {A K} (lt : K -> K -> bool) (f : A -> result K) (g : A -> K) l :
  (forall x, f x = Ok (g x)) ->
  Py.sorted_key lt f l = Ok (Py.sorted (fun a b => lt (g a) (g b)) l).
Proof.
  intros H. unfold Py.sorted_key.
  rewrite (map_result_ok _ (fun x => (g x, x))) by (intros x; rewrite H; reflexivity).
  simpl. rewrite sorted_keyed, map_map. simpl. rewrite map_id. reflexivity.
Qed.

Lemma key_lt_asym a b : key_lt a b = true -> key_lt b a = false.
Proof.
  unfold key_lt. destruct a as [w v], b as [w' v']; simpl.
  rewrite orb_true_iff, andb_true_iff, orb_false_iff, andb_false_iff,
    !N.ltb_lt, !N.ltb_ge, N.eqb_eq, N.eqb_neq. lia.
Qed.

Lemma key_lt_negtrans a b c :
  key_lt b a = false -> key_lt c b = false -> key_lt c a = false.
Proof.
  unfold key_lt. destruct a as [w v], b as [w' v'], c as [w'' v'']; simpl.
  rewrite !orb_false_iff, !andb_false_iff, !N.ltb_ge, !N.eqb_neq. lia.
Qed.

Lemma key_lt_irrefl a : key_lt a a = false.
Proof.
  unfold key_lt. rewrite N.ltb_irrefl, N.eqb_refl, N.ltb_irrefl. reflexivity.
Qed.

Lemma key_lt_false a b :
  key_lt b a = false <->
  (fst a <= fst b) /\ (fst a = fst b -> snd a <= snd b).
Proof.
  unfold key_lt. destruct a as [w v], b as [w' v']; simpl.
  rewrite !orb_false_iff, !andb_false_iff, !N.ltb_ge, !N.eqb_neq. lia.
Qed.

(** *** Any stable sort gives the list of [sorted] *)

Section StableUnique.
Context {A : Type} (lt : A -> A -> bool).
Hypothesis lt_asym : forall a b, lt a b = true -> lt b a = false.
Hypothesis lt_negtrans : forall a b c, lt b a = false -> lt c b = false -> lt c a = false.

Lemma same_rank_refl a : same_rank lt a a.
Proof.
  assert (lt a a = false) as H.
  { destruct (lt a a) eqn:E; [|reflexivity]. rewrite <- E at 1. apply lt_asym, E. }
  split; exact H.
Qed.

Lemma ordered_head_elem a l x :
  StronglySorted (ordered lt) (a :: l) -> x ∈ a :: l -> lt x a = false.
Proof.
  intros Hs Hx. apply elem_of_cons in Hx as [->|Hx].
  - apply same_rank_refl.
  - apply StronglySorted_cons in Hs as [Hs _]. rewrite Forall_forall in Hs.
    apply Hs, Hx.
Qed.

(** Two lists in order, with the same elements of each rank in the same
    order, are the same list. *)
Lemma stable_order_unique l1 : forall l2,
  StronglySorted (ordered lt) l1 -> StronglySorted (ordered lt) l2 ->
  (forall x, filter (same_rank lt x) l1 = filter (same_rank lt x) l2) ->
  l1 = l2.
Proof.
  induction l1 as [|a l1 IH]; intros l2 H1 H2 Hf.
  - destruct l2 as [|b l2]; [reflexivity|]. specialize (Hf b).
    rewrite filter_cons_True in Hf by apply same_rank_refl. discriminate.
  - destruct l2 as [|b l2].
    { specialize (Hf a). rewrite filter_cons_True in Hf by apply same_rank_refl.
      discriminate. }
    assert (a ∈ b :: l2) as Ha.
    { assert (a ∈ filter (same_rank lt a) (b :: l2)) as Hin.
      { rewrite <- Hf, filter_cons_True by apply same_rank_refl. left. }
      apply list_elem_of_filter in Hin. tauto. }
    assert (b ∈ a :: l1) as Hb.
    { assert (b ∈ filter (same_rank lt b) (a :: l1)) as Hin.
      { rewrite Hf, filter_cons_True by apply same_rank_refl. left. }
      apply list_elem_of_filter in Hin. tauto. }
    assert (same_rank lt a b) as Hab.
    { split; [eapply ordered_head_elem; eassumption|].
      eapply ordered_head_elem; eassumption. }
    assert (a = b) as <-.
    { pose proof (Hf a) as E.
      rewrite !filter_cons_True in E by (apply same_rank_refl || exact Hab).
      congruence. }
    f_equal. apply IH.
    + apply StronglySorted_cons in H1. tauto.
    + apply StronglySorted_cons in H2. tauto.
    + intros x. specialize (Hf x). rewrite !filter_cons in Hf.
      destruct (decide (same_rank lt x a)); congruence.
Qed.

Lemma same_rank_not_lt x a b :
  same_rank lt x a -> same_rank lt x b -> lt a b = false.
Proof. intros [_ Ha] [Hb _]. eapply lt_negtrans; eassumption. Qed.

(** [sorted] is the one list that is in order and keeps the elements of
    each rank in the order of the input: whatever algorithm [list.sort]
    runs, being stable it returns this list. *)
Lemma sorted_unique l l' :
  StronglySorted (ordered lt) l' ->
  (forall x, filter (same_rank lt x) l' = filter (same_rank lt x) l) ->
  l' = Py.sorted lt l.
Proof.
  intros Hs Hf. apply stable_order_unique.
  - exact Hs.
  - apply sorted_ordered; assumption.
  - intros x. rewrite Hf. symmetry. apply sorted_filter.
    intros a b. apply same_rank_not_lt.
Qed.

(** With a total order and no repetition the input order does not matter:
    [sorted(s)] is the same for every enumeration of a set [s]. *)
Hypothesis lt_total : forall a b, same_rank lt a b -> a = b.

Lemma filter_rank_NoDup `{EqDecision A} x l :
  NoDup l -> filter (same_rank lt x) l = if decide (x ∈ l) then [x] else [].
Proof.
  induction 1 as [|a l Ha Hl IH].
  - rewrite decide_False by apply not_elem_of_nil. reflexivity.
  - rewrite filter_cons, IH. destruct (decide (same_rank lt x a)) as [Hr|Hr].
    + apply lt_total in Hr as <-.
      rewrite (decide_False (P := x ∈ l)) by exact Ha.
      rewrite decide_True by left. reflexivity.
    + assert (x <> a) as Hne by (intros ->; apply Hr, same_rank_refl).
      destruct (decide (x ∈ l)) as [Hin|Hin].
      * rewrite decide_True by (right; exact Hin). reflexivity.
      * rewrite decide_False; [reflexivity|].
        intros Hc. apply elem_of_cons in Hc as [?|?]; contradiction.
Qed.

Lemma sorted_enumeration `{EqDecision A} l1 l2 :
  NoDup l1 -> l1 ≡ₚ l2 -> Py.sorted lt l1 = Py.sorted lt l2.
Proof.
  intros Hn Hp. apply sorted_unique.
  - apply sorted_ordered; assumption.
  - intros x. rewrite sorted_filter by (intros a b; apply same_rank_not_lt).
    rewrite !filter_rank_NoDup by (exact Hn || (rewrite <- Hp; exact Hn)).
    destruct (decide (x ∈ l1)) as [H|H]; rewrite Hp in H.
    + rewrite decide_True by exact H. reflexivity.
    + rewrite decide_False by exact H. reflexivity.
Qed.
End StableUnique.

(** ** The canonicalizer, line by line *)

(** *** The key never raises *)

Lemma bitsp_cases c : bitsp c = true -> c = 48 \/ c = 49 \/ c = 32.
Proof.
  unfold bitsp. change (ch "0") with 48. change (ch "1") with 49.
  change (ch " ") with 32.
  rewrite !orb_true_iff, !N.eqb_eq. tauto.
Qed.

Lemma int2_from_label raw : forall acc,
  all bitsp raw ->
  Py.int2_from acc (Py.replace (ch " ") [] raw) = Ok (fold_left binary_step raw acc).
Proof.
  induction raw as [|c raw IH]; intros acc H; [reflexivity|].
  apply Forall_cons in H as [Hc H].
  apply bitsp_cases in Hc as [-> | [-> | ->] ].
  - change (Py.int2_from (2 * acc + 0) (Py.replace (ch " ") [] raw) =
            Ok (fold_left binary_step raw (2 * acc))).
    rewrite N.add_0_r. apply IH, H.
  - apply (IH (2 * acc + 1)), H.
  - apply (IH acc), H.
Qed.

Lemma count_label raw :
  all bitsp raw ->
  Py.count (ch "1") (Py.replace (ch " ") [] raw) = hamming_weight raw.
Proof.
  unfold hamming_weight. intros H.
  induction H as [|c raw Hc _ IH]; [reflexivity|].
  apply bitsp_cases in Hc as [-> | [-> | ->] ].
  - change (Py.count (ch "1") (Py.replace (ch " ") [] raw) =
            N.of_nat (count_occ N.eq_dec raw (ch "1"))). exact IH.
  - change (1 + Py.count (ch "1") (Py.replace (ch " ") [] raw) =
            N.of_nat (S (count_occ N.eq_dec raw (ch "1")))). lia.
  - change (Py.count (ch "1") (Py.replace (ch " ") [] raw) =
            N.of_nat (count_occ N.eq_dec raw (ch "1"))). exact IH.
Qed.

Lemma key_for_line_ok line : key_for_line line = Ok (key_of line).
Proof.
  unfold key_for_line, key_of.
  destruct (search edge_pattern line) as [m|] eqn:E; [|reflexivity].
  apply search_edge_Some in E as (src & (pre & (occ & post & _ & Hocc) & _) & Hg).
  destruct Hocc as (_ & _ & _ & _ & [_ Hsrc] & _).
  rewrite Hg. unfold group in Hg.
  destruct (assoc 1 (caps m)) as [raw|]; [|discriminate]. injection Hg as ->.
  cbn [bind]. rewrite count_label by exact Hsrc.
  pose proof (int2_from_label src 0 Hsrc) as Hv.
  unfold label_key, binary_value.
  destruct (Py.replace (ch " ") [] src) as [|b bits] eqn:Eb.
  - cbn [Py.int2_from] in Hv. injection Hv as <-. reflexivity.
  - unfold Py.int2. rewrite Hv. reflexivity.
Qed.

(** *** Stripping *)

Lemma lstrip_split s : exists ws, s = ws ++ Py.lstrip s /\ all isspace ws.
Proof.
  induction s as [|c s (ws & E & Hws)]; simpl.
  - exists []. split; [reflexivity|constructor].
  - destruct (isspace c) eqn:Hc.
    + exists (c :: ws). split; [simpl; congruence|constructor; assumption].
    + exists []. split; [reflexivity|constructor].
Qed.

Lemma strip_split s :
  exists ws1 ws2, s = ws1 ++ Py.strip s ++ ws2 /\ all isspace ws1 /\ all isspace ws2.
Proof.
  unfold Py.strip, Py.rstrip.
  destruct (lstrip_split s) as (ws1 & E1 & H1).
  destruct (lstrip_split (rev (Py.lstrip s))) as (ws2 & E2 & H2).
  exists ws1, (rev ws2). split; [|split; [exact H1|]].
  - rewrite <- rev_app_distr, <- E2, rev_involutive. exact E1.
  - unfold all in *. rewrite Forall_forall in *. intros c Hc.
    apply H2. apply list_elem_of_In. apply in_rev. apply list_elem_of_In. exact Hc.
Qed.

Lemma closing_nonempty line : is_closing line -> line <> [].
Proof. intros H ->. discriminate. Qed.

Lemma closing_chars line c :
  is_closing line -> c ∈ line -> isspace c = true \/ c = ch "}".
Proof.
  unfold is_closing. intros H Hc.
  destruct (strip_split line) as (ws1 & ws2 & E & H1 & H2).
  rewrite H in E. rewrite E in Hc. unfold all in *. rewrite Forall_forall in *.
  rewrite !elem_of_app in Hc. destruct Hc as [Hc|[Hc|Hc]]; auto.
  apply list_elem_of_singleton in Hc. auto.
Qed.

(** A closing line holds no edge statement. *)
Lemma closing_no_edge line : is_closing line -> ~ has_edge line.
Proof.
  intros Hcl He. unfold has_edge in He.
  destruct (search edge_pattern line) as [m|] eqn:E; [|congruence].
  apply search_edge_Some in E as (src & (pre & (occ & post & -> & Hocc) & _) & _).
  destruct Hocc as (w1 & w2 & d & -> & _).
  destruct (closing_chars _ dq Hcl) as [H|H]; [|discriminate..].
  rewrite elem_of_app. right. rewrite elem_of_app. left.
  unfold edge_stmt. simpl. left.
Qed.

Lemma edge_line_iff line : is_edge_line line <-> has_edge line.
Proof.
  unfold is_edge_line. split; [tauto|]. intros H. split; [|exact H].
  intros Hc. exact (closing_no_edge _ Hc H).
Qed.

(** *** The loop over the lines *)

Lemma classify_closing acc line :
  is_closing line ->
  classify acc line = Parts (edge_lines acc) (prefix_lines acc) line.
Proof. intros H. unfold classify. rewrite bool_decide_eq_true_2; [reflexivity|exact H]. Qed.

Lemma classify_edge acc line :
  is_edge_line line ->
  classify acc line = Parts (edge_lines acc ++ [line]) (prefix_lines acc) (closing_line acc).
Proof.
  intros [Hc He]. unfold classify. rewrite bool_decide_eq_false_2 by exact Hc.
  unfold has_edge in He. destruct (search edge_pattern line); [reflexivity|congruence].
Qed.

Lemma classify_prefix acc line :
  is_prefix_line line ->
  classify acc line = Parts (edge_lines acc) (prefix_lines acc ++ [line]) (closing_line acc).
Proof.
  intros [Hc He]. unfold classify. rewrite bool_decide_eq_false_2 by exact Hc.
  unfold has_edge in He. destruct (search edge_pattern line); [|reflexivity].
  exfalso. apply He. discriminate.
Qed.

Lemma line_cases line :
  (is_closing line /\ ~ is_edge_line line /\ ~ is_prefix_line line) \/
  (is_edge_line line /\ ~ is_closing line /\ ~ is_prefix_line line) \/
  (is_prefix_line line /\ ~ is_closing line /\ ~ is_edge_line line).
Proof.
  unfold is_edge_line, is_prefix_line.
  destruct (decide (is_closing line)); destruct (decide (has_edge line)); tauto.
Qed.

Lemma classify_fold lines : forall acc,
  fold_left classify lines acc =
  Parts (edge_lines acc ++ filter is_edge_line lines)
        (prefix_lines acc ++ filter is_prefix_line lines)
        (default (closing_line acc) (last (filter is_closing lines))).
Proof.
  induction lines as [|line lines IH]; intros [e p c].
  - simpl. rewrite !app_nil_r. reflexivity.
  - cbn [fold_left]. rewrite IH. rewrite !filter_cons.
    destruct (line_cases line) as [(H1 & H2 & H3)|[(H1 & H2 & H3)|(H1 & H2 & H3)]].
    + rewrite classify_closing by exact H1.
      repeat case_decide; try tauto.
      cbn [edge_lines prefix_lines closing_line]. f_equal.
      rewrite last_cons. destruct (last (filter is_closing lines)); reflexivity.
    + rewrite classify_edge by exact H1.
      repeat case_decide; try tauto.
      cbn [edge_lines prefix_lines closing_line]. rewrite <- app_assoc. reflexivity.
    + rewrite classify_prefix by exact H1.
      repeat case_decide; try tauto.
      cbn [edge_lines prefix_lines closing_line]. rewrite <- app_assoc. reflexivity.
Qed.

Lemma last_filter_closing lines c :
  last (filter is_closing lines) = Some c -> is_closing c /\ c ∈ lines.
Proof.
  intros H. apply last_Some_elem_of in H. apply list_elem_of_filter in H. exact H.
Qed.

(** [reorder_lines] never raises, and returns [canon]. *)
Lemma reorder_lines_ok lines : reorder_lines lines = Ok (canon lines).
Proof.
  unfold reorder_lines, canon. rewrite classify_fold.
  cbn [edge_lines prefix_lines closing_line app].
  rewrite (sorted_key_ok _ _ key_of) by apply key_for_line_ok.
  cbn [bind]. fold line_lt. f_equal.
  destruct (last (filter is_closing lines)) as [c|] eqn:E; cbn [default option_list].
  - apply last_filter_closing in E as [Hc _]. apply closing_nonempty in Hc.
    destruct c; [congruence|]. rewrite <- app_assoc. reflexivity.
  - rewrite app_nil_r. reflexivity.
Qed.

Lemma reorder_ok text :
  _reorder_statespace_dot text = Ok (Py.join nl (canon (Py.splitlines text))).
Proof. unfold _reorder_statespace_dot. rewrite reorder_lines_ok. reflexivity. Qed.

(** *** Filters *)

Lemma filter_all {A} (P : A -> Prop) `{!forall x, Decision (P x)} l :
  Forall P l -> filter P l = l.
Proof.
  induction 1 as [|x l Hx _ IH]; [reflexivity|].
  rewrite filter_cons_True by exact Hx. rewrite IH. reflexivity.
Qed.

Lemma filter_none {A} (P : A -> Prop) `{!forall x, Decision (P x)} l :
  Forall (fun x => ~ P x) l -> filter P l = [].
Proof.
  induction 1 as [|x l Hx _ IH]; [reflexivity|].
  rewrite filter_cons_False by exact Hx. exact IH.
Qed.

Lemma Forall_filter_self {A} (P : A -> Prop) `{!forall x, Decision (P x)} l :
  Forall P (filter P l).
Proof. apply Forall_forall. intros x Hx. apply list_elem_of_filter in Hx. tauto. Qed.

Lemma option_list_last_short {A} (l : list A) :
  (length l <= 1)%nat -> option_list (last l) = l.
Proof. destruct l as [|x [|y l]]; simpl; intros; (reflexivity || lia). Qed.

Lemma canon_blocks lines :
  canon lines = prefix_block lines ++ edge_block lines ++ closing_block lines.
Proof. reflexivity. Qed.

Lemma line_lt_asym a b : line_lt a b = true -> line_lt b a = false.
Proof. apply key_lt_asym. Qed.

Lemma line_lt_negtrans a b c :
  line_lt b a = false -> line_lt c b = false -> line_lt c a = false.
Proof. apply key_lt_negtrans. Qed.

Lemma edge_block_perm lines : edge_block lines ≡ₚ filter is_edge_line lines.
Proof. apply sorted_perm. Qed.

Lemma edge_block_ordered lines : StronglySorted (ordered line_lt) (edge_block lines).
Proof. apply sorted_ordered; [apply line_lt_asym|apply line_lt_negtrans]. Qed.

Lemma prefix_block_all lines : Forall is_prefix_line (prefix_block lines).
Proof. apply Forall_filter_self. Qed.

Lemma edge_block_all lines : Forall is_edge_line (edge_block lines).
Proof. rewrite edge_block_perm. apply Forall_filter_self. Qed.

Lemma closing_block_all lines : Forall is_closing (closing_block lines).
Proof.
  unfold closing_block. destruct (last _) as [c|] eqn:E; simpl; [|constructor].
  apply last_filter_closing in E as [Hc _]. repeat constructor. exact Hc.
Qed.

Lemma prefix_not_edge l : is_prefix_line l -> ~ is_edge_line l.
Proof. unfold is_prefix_line, is_edge_line. tauto. Qed.
Lemma prefix_not_closing l : is_prefix_line l -> ~ is_closing l.
Proof. unfold is_prefix_line. tauto. Qed.
Lemma edge_not_prefix l : is_edge_line l -> ~ is_prefix_line l.
Proof. unfold is_prefix_line, is_edge_line. tauto. Qed.
Lemma edge_not_closing l : is_edge_line l -> ~ is_closing l.
Proof. unfold is_edge_line. tauto. Qed.
Lemma closing_not_prefix l : is_closing l -> ~ is_prefix_line l.
Proof. unfold is_prefix_line. tauto. Qed.
Lemma closing_not_edge l : is_closing l -> ~ is_edge_line l.
Proof. unfold is_edge_line. tauto. Qed.

Lemma filter_prefix_canon lines :
  filter is_prefix_line (canon lines) = prefix_block lines.
Proof.
  rewrite canon_blocks, !filter_app.
  rewrite (filter_all _ (prefix_block lines)) by apply prefix_block_all.
  rewrite (filter_none _ (edge_block lines))
    by (eapply Forall_impl; [apply edge_block_all|apply edge_not_prefix]).
  rewrite (filter_none _ (closing_block lines))
    by (eapply Forall_impl; [apply closing_block_all|apply closing_not_prefix]).
  rewrite !app_nil_r. reflexivity.
Qed.

Lemma filter_edge_canon lines :
  filter is_edge_line (canon lines) = edge_block lines.
Proof.
  rewrite canon_blocks, !filter_app.
  rewrite (filter_none _ (prefix_block lines))
    by (eapply Forall_impl; [apply prefix_block_all|apply prefix_not_edge]).
  rewrite (filter_all _ (edge_block lines)) by apply edge_block_all.
  rewrite (filter_none _ (closing_block lines))
    by (eapply Forall_impl; [apply closing_block_all|apply closing_not_edge]).
  rewrite app_nil_r. reflexivity.
Qed.

Lemma filter_closing_canon lines :
  filter is_closing (canon lines) = closing_block lines.
Proof.
  rewrite canon_blocks, !filter_app.
  rewrite (filter_none _ (prefix_block lines))
    by (eapply Forall_impl; [apply prefix_block_all|apply prefix_not_closing]).
  rewrite (filter_none _ (edge_block lines))
    by (eapply Forall_impl; [apply edge_block_all|apply edge_not_closing]).
  rewrite (filter_all _ (closing_block lines)) by apply closing_block_all.
  reflexivity.
Qed.

Lemma not_closing_split lines :
  filter (fun l => ~ is_closing l) lines ≡ₚ
  filter is_prefix_line lines ++ filter is_edge_line lines.
Proof.
  induction lines as [|l lines IH]; [reflexivity|].
  rewrite !filter_cons.
  destruct (line_cases l) as [(H1 & H2 & H3)|[(H1 & H2 & H3)|(H1 & H2 & H3)]];
    repeat case_decide; try tauto.
  - rewrite IH. apply Permutation_middle.
  - rewrite IH. reflexivity.
Qed.

(** The lines of the output: those of the input that are not closing lines,
    and the last closing line. *)
Lemma canon_perm lines :
  canon lines ≡ₚ filter (fun l => ~ is_closing l) lines ++ closing_block lines.
Proof.
  rewrite canon_blocks, app_assoc. apply Permutation_app_tail.
  rewrite not_closing_split. apply Permutation_app_head, edge_block_perm.
Qed.

Lemma canon_perm_one_closing lines :
  (length (filter is_closing lines) <= 1)%nat -> canon lines ≡ₚ lines.
Proof.
  intros H. rewrite canon_perm. unfold closing_block.
  rewrite option_list_last_short by exact H.
  rewrite Permutation_app_comm. apply (filter_app_complement is_closing).
Qed.

Lemma canon_elem_of lines l : l ∈ canon lines -> l ∈ lines.
Proof.
  rewrite canon_perm, elem_of_app. intros [H|H].
  - apply list_elem_of_filter in H. tauto.
  - unfold closing_block in H. destruct (last _) eqn:E; simpl in H.
    + apply list_elem_of_singleton in H as ->. apply last_filter_closing in E. tauto.
    + apply elem_of_nil in H. contradiction.
Qed.

(** Sorting and stability of the edge block. *)
Lemma canon_edges_ordered lines l1 a l2 b l3 :
  canon lines = l1 ++ a :: l2 ++ b :: l3 ->
  has_edge a -> has_edge b -> key_lt (key_of b) (key_of a) = false.
Proof.
  intros E Ha Hb. apply edge_line_iff in Ha, Hb.
  pose proof (edge_block_ordered lines) as Hs.
  rewrite <- filter_edge_canon, E in Hs.
  rewrite filter_app, filter_cons_True, filter_app, filter_cons_True in Hs by assumption.
  apply StronglySorted_app_1_r in Hs.
  apply StronglySorted_cons in Hs as [Hs _].
  rewrite Forall_forall in Hs. apply (Hs b).
  rewrite elem_of_app. right. left.
Qed.

Lemma canon_edges_stable lines k :
  filter (fun l => has_edge l /\ key_of l = k) (canon lines) =
  filter (fun l => has_edge l /\ key_of l = k) lines.
Proof.
  transitivity (filter (fun l => key_of l = k) (filter is_edge_line (canon lines))).
  { rewrite list_filter_filter. apply list_filter_iff.
    intros l. rewrite edge_line_iff. tauto. }
  rewrite filter_edge_canon. unfold edge_block.
  rewrite sorted_filter.
  - rewrite list_filter_filter. apply list_filter_iff.
    intros l. rewrite edge_line_iff. tauto.
  - intros a b <- Hb. unfold line_lt. rewrite Hb. apply key_lt_irrefl.
Qed.

(** The closing line. *)
Lemma canon_last_closing lines c :
  last (filter is_closing lines) = Some c -> last (canon lines) = Some c.
Proof.
  intros H. rewrite canon_blocks, app_assoc. unfold closing_block. rewrite H.
  apply last_snoc.
Qed.

Lemma canon_no_closing lines :
  filter is_closing lines = [] -> Forall (fun l => ~ is_closing l) (canon lines).
Proof.
  intros H. apply Forall_forall. intros l Hl Hc.
  apply canon_elem_of in Hl.
  assert (l ∈ filter is_closing lines) as Hin by (apply list_elem_of_filter; auto).
  rewrite H in Hin. apply elem_of_nil in Hin. exact Hin.
Qed.

(** Applying the reordering twice. *)
Lemma canon_idem lines : canon (canon lines) = canon lines.
Proof.
  unfold canon at 1.
  rewrite filter_prefix_canon, filter_edge_canon, filter_closing_canon.
  rewrite (sorted_id line_lt (edge_block lines)) by apply edge_block_ordered.
  rewrite canon_blocks. do 2 f_equal.
  unfold closing_block. destruct (last (filter is_closing lines)); reflexivity.
Qed.

Lemma canon_prefix_only p : Forall is_prefix_line p -> canon p = p.
Proof.
  intros H. unfold canon.
  rewrite (filter_all _ p) by exact H.
  rewrite (filter_none is_edge_line p)
    by (eapply Forall_impl; [exact H|apply prefix_not_edge]).
  rewrite (filter_none is_closing p)
    by (eapply Forall_impl; [exact H|apply prefix_not_closing]).
  simpl. apply app_nil_r.
Qed.

(** ** [splitlines] and [join] *)

Lemma nobreak_not_cr c : islinebreak c = false -> (c =? 13) = false.
Proof.
  intros H. destruct (N.eqb_spec c 13) as [->|]; [discriminate|reflexivity].
Qed.

Lemma nobreak_rev l : nobreak l -> nobreak (rev l).
Proof.
  unfold nobreak. rewrite !Forall_forall. intros H c Hc. apply H.
  apply list_elem_of_In. apply in_rev. apply list_elem_of_In. exact Hc.
Qed.

Lemma splitlines_from_nobreak s : forall cur,
  nobreak cur -> Forall nobreak (Py.splitlines_from cur s).
Proof.
  remember (length s) as n eqn:En. revert s En.
  induction (lt_wf n) as [n _ IH]. intros s -> cur Hcur.
  assert (forall s' cur', (length s' < length s)%nat -> nobreak cur' ->
            Forall nobreak (Py.splitlines_from cur' s')) as IH'.
  { intros s' cur' Hl Hc. eapply (IH (length s')); [lia|reflexivity|exact Hc]. }
  clear IH. destruct s as [|c s]; simpl.
  - destruct cur; [constructor|]. repeat constructor. apply nobreak_rev, Hcur.
  - destruct (c =? 13).
    + destruct s as [|d s].
      * constructor; [apply nobreak_rev, Hcur|]. apply IH'; [simpl; lia|constructor].
      * destruct (d =? 10); (constructor; [apply nobreak_rev, Hcur|]);
          (apply IH'; [simpl; lia|constructor]).
    + destruct (islinebreak c) eqn:Hc.
      * constructor; [apply nobreak_rev, Hcur|]. apply IH'; [simpl; lia|constructor].
      * apply IH'; [simpl; lia|]. constructor; assumption.
Qed.

Lemma splitlines_nobreak s : Forall nobreak (Py.splitlines s).
Proof. apply splitlines_from_nobreak. constructor. Qed.

Lemma splitlines_from_app x : forall cur s,
  nobreak x -> Py.splitlines_from cur (x ++ s) = Py.splitlines_from (rev x ++ cur) s.
Proof.
  induction x as [|c x IH]; intros cur s H; [reflexivity|].
  apply Forall_cons in H as [Hc H]. simpl.
  rewrite (nobreak_not_cr _ Hc), Hc, IH by exact H.
  rewrite <- app_assoc. reflexivity.
Qed.

Lemma splitlines_from_nl cur s :
  Py.splitlines_from cur (nl ++ s) = rev cur :: Py.splitlines s.
Proof. reflexivity. Qed.

Lemma splitlines_line x :
  nobreak x -> Py.splitlines x = match x with [] => [] | _ => [x] end.
Proof.
  intros H. unfold Py.splitlines.
  rewrite <- (app_nil_r x) at 1. rewrite splitlines_from_app by exact H.
  rewrite app_nil_r. simpl. destruct x as [|c x]; [reflexivity|].
  destruct (rev (c :: x)) eqn:E.
  - apply (f_equal (@length _)) in E. rewrite length_rev in E. discriminate.
  - rewrite <- E, rev_involutive. reflexivity.
Qed.

Lemma join_cons x y l : Py.join nl (x :: y :: l) = x ++ nl ++ Py.join nl (y :: l).
Proof. reflexivity. Qed.

Lemma splitlines_join_cons x y l :
  nobreak x ->
  Py.splitlines (Py.join nl (x :: y :: l)) = x :: Py.splitlines (Py.join nl (y :: l)).
Proof.
  intros H. rewrite join_cons. unfold Py.splitlines at 1.
  rewrite splitlines_from_app by exact H.
  rewrite splitlines_from_nl, app_nil_r, rev_involutive. reflexivity.
Qed.

(** Splitting what [join] built gives the lines back, when the last line is
    not empty. *)
Lemma splitlines_join ls :
  Forall nobreak ls -> last ls <> Some [] -> Py.splitlines (Py.join nl ls) = ls.
Proof.
  induction 1 as [|x ls Hx Hls IH]; intros Hlast; [reflexivity|].
  destruct ls as [|y ls].
  - simpl. rewrite splitlines_line by exact Hx.
    destruct x; [|reflexivity]. exfalso. apply Hlast. reflexivity.
  - rewrite splitlines_join_cons by exact Hx. f_equal. apply IH.
    rewrite last_cons in Hlast. destruct (last (y :: ls)) eqn:E; [exact Hlast|].
    apply last_None in E. discriminate.
Qed.

(** An empty last line is lost. *)
Lemma splitlines_join_blank p :
  Forall nobreak p -> Py.splitlines (Py.join nl (p ++ [[]])) = p.
Proof.
  induction 1 as [|x p Hx Hp IH]; [reflexivity|].
  destruct p as [|y p].
  - simpl. unfold Py.splitlines. rewrite splitlines_from_app by exact Hx.
    rewrite app_nil_r. simpl. rewrite rev_involutive. reflexivity.
  - change ((x :: y :: p) ++ [[]]) with (x :: y :: (p ++ [[]])).
    rewrite splitlines_join_cons by exact Hx. f_equal. exact IH.
Qed.

Lemma join_snoc_blank p : p <> [] -> Py.join nl (p ++ [[]]) = Py.join nl p ++ nl.
Proof.
  induction p as [|x p IH]; intros Hp; [congruence|].
  destruct p as [|y p].
  - simpl. reflexivity.
  - change ((x :: y :: p) ++ [[]]) with (x :: y :: (p ++ [[]])).
    rewrite !join_cons. change (y :: p ++ [[]]) with ((y :: p) ++ [[]]).
    rewrite IH by discriminate. rewrite <- !app_assoc. reflexivity.
Qed.

Lemma last_join ls c :
  last ls <> Some [] -> last (Py.join nl ls) = Some c ->
  exists x, x ∈ ls /\ c ∈ x.
Proof.
  induction ls as [|x ls IH]; intros Hlast H; [discriminate|].
  destruct ls as [|y ls].
  - simpl in H. exists x. split; [left|]. apply last_Some_elem_of. exact H.
  - rewrite join_cons in H. rewrite !last_app in H.
    destruct (last (Py.join nl (y :: ls))) as [d|] eqn:E.
    + simpl in H. injection H as ->. destruct IH as (z & Hz & Hc); [|reflexivity|].
      * rewrite last_cons in Hlast.
        destruct (last (y :: ls)) eqn:E'; [exact Hlast|].
        apply last_None in E'. discriminate.
      * exists z. split; [right; exact Hz|exact Hc].
    + exfalso. apply last_None in E.
      rewrite last_cons in Hlast.
      destruct ls as [|z ls].
      * simpl in E. subst y. apply Hlast. reflexivity.
      * rewrite join_cons in E. destruct y; discriminate.
Qed.

Lemma last_join_not_nl ls :
  Forall nobreak ls -> last ls <> Some [] -> last (Py.join nl ls) <> Some 10.
Proof.
  intros Hls Hlast H. apply last_join in H as (x & Hx & Hc); [|exact Hlast].
  rewrite Forall_forall in Hls. specialize (Hls _ Hx).
  unfold nobreak in Hls. rewrite Forall_forall in Hls.
  specialize (Hls _ Hc). discriminate.
Qed.

(** ** The canonicalizer applied twice *)

Lemma canon_nobreak text : Forall nobreak (canon (Py.splitlines text)).
Proof.
  apply Forall_forall. intros l Hl. apply canon_elem_of in Hl.
  pose proof (splitlines_nobreak text) as H. rewrite Forall_forall in H. auto.
Qed.

Lemma has_edge_nonempty l : has_edge l -> l <> [].
Proof. intros H ->. apply H. reflexivity. Qed.

Lemma snoc_cases {A} (l : list A) : l = [] \/ exists p x, l = p ++ [x].
Proof. induction l using rev_ind; eauto. Qed.

(** The output ends with an empty line only when it is made of prefix lines. *)
Lemma canon_last_blank lines :
  last (canon lines) = Some [] -> Forall is_prefix_line (canon lines).
Proof.
  intros H. rewrite canon_blocks in *.
  pose proof (closing_block_all lines) as Hc.
  pose proof (edge_block_all lines) as He.
  destruct (snoc_cases (closing_block lines)) as [E|(cl & c & E)]; rewrite E in *.
  - rewrite app_nil_r in *.
    destruct (snoc_cases (edge_block lines)) as [E'|(el & e & E')]; rewrite E' in *.
    + rewrite app_nil_r. apply prefix_block_all.
    + rewrite app_assoc, last_snoc in H. injection H as ->.
      rewrite Forall_app, Forall_singleton in He. destruct He as [_ [_ He]].
      apply has_edge_nonempty in He. congruence.
  - rewrite !app_assoc, last_snoc in H. injection H as ->.
    rewrite Forall_app, Forall_singleton in Hc. destruct Hc as [_ Hc].
    apply closing_nonempty in Hc. congruence.
Qed.

Lemma last_blank_split {A} (ls : list (list A)) :
  last ls = Some [] -> exists p, ls = p ++ [[]].
Proof.
  destruct (snoc_cases ls) as [->|(p & x & ->)]; [discriminate|].
  rewrite last_snoc. intros [= ->]. eauto.
Qed.

Lemma reorder_twice text :
  last (canon (Py.splitlines text)) <> Some [] ->
  _reorder_statespace_dot (Py.join nl (canon (Py.splitlines text))) =
  Ok (Py.join nl (canon (Py.splitlines text))).
Proof.
  intros H. rewrite reorder_ok.
  rewrite splitlines_join by (apply canon_nobreak || exact H).
  rewrite canon_idem. reflexivity.
Qed.

Lemma reorder_twice_blank text p :
  canon (Py.splitlines text) = p ++ [[]] ->
  _reorder_statespace_dot (Py.join nl (canon (Py.splitlines text))) =
  Ok (Py.join nl p).
Proof.
  intros E. rewrite reorder_ok.
  pose proof (canon_nobreak text) as Hn.
  pose proof (canon_last_blank (Py.splitlines text)) as Hp.
  rewrite E in *. rewrite last_snoc in Hp. specialize (Hp eq_refl).
  apply Forall_app in Hn as [Hn _]. apply Forall_app in Hp as [Hp _].
  rewrite splitlines_join_blank by exact Hn.
  rewrite canon_prefix_only by exact Hp. reflexivity.
Qed.

Lemma canon_idempotent_iff text :
  _reorder_statespace_dot (Py.join nl (canon (Py.splitlines text))) =
    Ok (Py.join nl (canon (Py.splitlines text)))
  <-> last (Py.join nl (canon (Py.splitlines text))) <> Some 10.
Proof.
  destruct (decide (last (canon (Py.splitlines text)) = Some [])) as [H|H].
  - destruct (last_blank_split _ H) as [p E].
    rewrite (reorder_twice_blank _ _ E). rewrite E.
    destruct p as [|x p].
    + simpl. split; [discriminate|reflexivity].
    + rewrite join_snoc_blank by discriminate. split.
      * intros [= Hj]. apply (f_equal (@length _)) in Hj.
        rewrite length_app in Hj. simpl in Hj. lia.
      * intros Hl. exfalso. apply Hl. apply last_snoc.
  - split; intros _.
    + apply last_join_not_nl; [apply canon_nobreak|exact H].
    + apply reorder_twice, H.
Qed.

(** ** The dependency extractor, line by line *)

(** *** Character classes *)

Lemma in_ranges_true rs c :
  in_ranges rs c = true <-> exists lo hi, In (lo, hi) rs /\ lo <= c <= hi.
Proof.
  unfold in_ranges. rewrite existsb_exists. split.
  - intros ([lo hi] & Hin & H). apply andb_true_iff in H as [H1 H2].
    apply N.leb_le in H1, H2. exists lo, hi. auto.
  - intros (lo & hi & Hin & H1 & H2). exists (lo, hi). split; [exact Hin|].
    apply andb_true_iff. split; apply N.leb_le; assumption.
Qed.

Lemma in_ranges_apart rs1 rs2 c :
  ranges_apart rs1 rs2 = true -> in_ranges rs1 c = true -> in_ranges rs2 c = false.
Proof.
  intros Ha H1. destruct (in_ranges rs2 c) eqn:H2; [exfalso|reflexivity].
  apply in_ranges_true in H1 as (lo1 & hi1 & Hin1 & Hc1).
  apply in_ranges_true in H2 as (lo2 & hi2 & Hin2 & Hc2).
  unfold ranges_apart in Ha. rewrite forallb_forall in Ha.
  specialize (Ha _ Hin1). rewrite forallb_forall in Ha. specialize (Ha _ Hin2).
  simpl in Ha. apply orb_true_iff in Ha as [Ha|Ha]; apply N.ltb_lt in Ha; lia.
Qed.

Lemma space_not_decimal c : isspace c = true -> isdecimal c = false.
Proof. apply in_ranges_apart. vm_compute. reflexivity. Qed.

(** *** The pattern of an assignment *)

Lemma equation_line_eq ws ds ws' rhs :
  ws ++ (ch "x" :: ds) ++ ws' ++ ch "=" :: rhs =
  ws ++ 120 :: ds ++ ws' ++ 61 :: rhs.
Proof. reflexivity. Qed.

Lemma matches_assign_re s m :
  matches assign_re (start s) m <->
  exists target rhs,
    equation_line s target rhs /\ m = MState (Some 61) rhs [(1%nat, target)].
Proof.
  unfold assign_re, start. change (ch "x") with 120. change (ch "=") with 61. split.
  - intros H. inv_matches. cbn [prev rest caps] in *. subst.
    match goal with |- context [consumed (MState ?p (?c :: ?r ++ ?t) ?cs) ?b] =>
      change (consumed (MState p (c :: r ++ t) cs) b)
        with (consumed (MState p ((c :: r) ++ t) cs) b);
      rewrite consumed_app end.
    match goal with
    | H1 : Forall _ ?ws, H2 : Forall _ ?ds, H3 : Forall _ ?ws' |-
        exists _ _, equation_line (?ws ++ _ :: ?ds ++ ?ws' ++ _ :: ?rhs) _ _ /\ _ =>
        exists (120 :: ds), rhs; split; [|reflexivity];
        exists ws, ws'; split; [reflexivity|];
        split; [assumption|]; split; [|assumption];
        exists ds; split; [reflexivity|]; split; [apply length_pos_nonnil|]; assumption
    end.
  - intros (target & rhs & (ws & ws' & -> & Hws & (ds & -> & Hds & Hdec) & Hws') & ->).
    rewrite equation_line_eq.
    econstructor; [constructor|].
    econstructor; [constructor; [exact Hws|lia]|].
    econstructor.
    { apply (M_Group 1 _ _ (MState (last_or (Some 120) ds) (ws' ++ 61 :: rhs) [])).
      econstructor; [constructor|].
      constructor; [exact Hdec|apply length_pos_nonnil; exact Hds]. }
    cbn [prev rest caps].
    change (120 :: ds ++ ws' ++ 61 :: rhs) with ((120 :: ds) ++ ws' ++ 61 :: rhs).
    rewrite consumed_app.
    econstructor; [constructor; [exact Hws'|lia]|].
    constructor.
Qed.

Lemma head_after_digits ws' rhs :
  all isspace ws' ->
  exists y r, ws' ++ 61 :: rhs = y :: r /\ isdecimal y = false.
Proof.
  destruct 1 as [|c ws' Hc _]; simpl.
  - exists 61, rhs. split; reflexivity.
  - exists c, (ws' ++ 61 :: rhs). split; [reflexivity|]. apply space_not_decimal, Hc.
Qed.

Lemma equation_line_unique line t1 r1 t2 r2 :
  equation_line line t1 r1 -> equation_line line t2 r2 -> t1 = t2 /\ r1 = r2.
Proof.
  intros (ws1 & ws1' & -> & Hws1 & (ds1 & -> & _ & Hd1) & Hws1').
  intros (ws2 & ws2' & E & Hws2 & (ds2 & -> & _ & Hd2) & Hws2').
  rewrite !equation_line_eq in E.
  apply (all_app_cons_inj isspace) in E as (-> & _ & E); [|assumption..|reflexivity|reflexivity].
  destruct (head_after_digits ws1' r1 Hws1') as (y1 & q1 & E1 & Hy1).
  destruct (head_after_digits ws2' r2 Hws2') as (y2 & q2 & E2 & Hy2).
  rewrite E1, E2 in E.
  apply (all_app_cons_inj isdecimal) in E as (-> & -> & ->); [|assumption..].
  rewrite <- E2 in E1.
  apply (all_app_cons_inj isspace) in E1 as (_ & _ & ->); [|assumption..|reflexivity|reflexivity].
  auto.
Qed.

Lemma matches_assign_det s m1 m2 :
  matches assign_re (start s) m1 -> matches assign_re (start s) m2 -> m1 = m2.
Proof.
  rewrite !matches_assign_re.
  intros (t1 & r1 & H1 & ->) (t2 & r2 & H2 & ->).
  destruct (equation_line_unique _ _ _ _ _ H1 H2) as [-> ->]. reflexivity.
Qed.

Lemma match_assign_Some line target rhs :
  equation_line line target rhs ->
  match_ assign_re line = Some (MState (Some 61) rhs [(1%nat, target)]).
Proof.
  intros H. unfold match_.
  rewrite (run_det _ _ (MState (Some 61) rhs [(1%nat, target)])).
  - reflexivity.
  - apply matches_assign_det.
  - apply matches_assign_re. eauto.
Qed.

Lemma match_assign_None line :
  match_ assign_re line = None <-> forall target rhs, ~ equation_line line target rhs.
Proof.
  split.
  - intros H target rhs He. rewrite (match_assign_Some _ _ _ He) in H. discriminate.
  - intros H. destruct (match_ assign_re line) as [m|] eqn:E; [exfalso|reflexivity].
    apply run_Some_matches in E. apply matches_assign_re in E as (t & r & He & _).
    exact (H _ _ He).
Qed.

Lemma equation_line_cases line :
  (exists target rhs, equation_line line target rhs) \/
  (forall target rhs, ~ equation_line line target rhs).
Proof.
  destruct (match_ assign_re line) as [m|] eqn:E.
  - left. apply run_Some_matches in E. apply matches_assign_re in E as (t & r & He & _).
    eauto.
  - right. apply match_assign_None. exact E.
Qed.

(** *** Splitting at the first [=] *)

Lemma split1_app sep a rhs :
  sep ∉ a -> Py.split1 sep (a ++ sep :: rhs) = [a; rhs].
Proof.
  induction a as [|c a IH]; intros H; simpl.
  - rewrite N.eqb_refl. reflexivity.
  - apply not_elem_of_cons in H as [Hc H].
    destruct (N.eqb_spec c sep) as [->|_]; [congruence|].
    rewrite IH by exact H. reflexivity.
Qed.

Lemma all_not_elem (cls : char -> bool) c l : all cls l -> cls c = false -> c ∉ l.
Proof.
  intros H Hc Hin. unfold all in H. rewrite Forall_forall in H.
  specialize (H _ Hin). congruence.
Qed.

Lemma equation_line_split line target rhs :
  equation_line line target rhs ->
  Py.getitem (Py.split1 (ch "=") line) 1 = Ok rhs.
Proof.
  intros (ws & ws' & -> & Hws & (ds & -> & _ & Hd) & Hws').
  rewrite !app_assoc. rewrite split1_app; [reflexivity|].
  rewrite !not_elem_of_app. split; [split|].
  - eapply all_not_elem; [exact Hws|reflexivity].
  - apply not_elem_of_cons. split; [discriminate|].
    eapply all_not_elem; [exact Hd|reflexivity].
  - eapply all_not_elem; [exact Hws'|reflexivity].
Qed.

Lemma equation_line_head line target rhs :
  equation_line line target rhs ->
  (bool_decide (line = []) || Py.startswith (L "#") line) = false.
Proof.
  intros (ws & ws' & -> & Hws & (ds & -> & _ & Hd) & Hws').
  destruct Hws as [|c ws Hc _]; [reflexivity|].
  cbn [app]. rewrite bool_decide_eq_false_2 by discriminate.
  change (L "#") with [35]. cbn [Py.startswith orb].
  destruct (N.eqb_spec 35 c) as [<-|]; [discriminate|reflexivity].
Qed.

(** *** One line of the text *)

Lemma scan_line_equation g line target rhs :
  equation_line (Py.strip line) target rhs ->
  scan_line g line =
  Ok (fold_left (add_var target) (findall var_re rhs)
        (Graph (nodes g ∪ {[target]}) (edges g))).
Proof.
  intros H. unfold scan_line.
  rewrite (equation_line_head _ _ _ H), (match_assign_Some _ _ _ H).
  unfold group. cbn [caps assoc Nat.eqb bind].
  rewrite (equation_line_split _ _ _ H). reflexivity.
Qed.

Lemma scan_line_other g line :
  (forall target rhs, ~ equation_line (Py.strip line) target rhs) ->
  scan_line g line = Ok g.
Proof.
  intros H. unfold scan_line. apply match_assign_None in H. rewrite H.
  destruct (_ || _); reflexivity.
Qed.

Lemma nodes_add_vars target vars : forall g v,
  v ∈ nodes (fold_left (add_var target) vars g) <-> v ∈ nodes g \/ v ∈ vars.
Proof.
  induction vars as [|w vars IH]; intros g v; simpl.
  - rewrite elem_of_nil. tauto.
  - rewrite IH, elem_of_cons. unfold add_var.
    case_decide; cbn [nodes]; rewrite elem_of_union, elem_of_singleton; tauto.
Qed.

Lemma edges_add_vars target vars : forall g e,
  e ∈ edges (fold_left (add_var target) vars g) <->
  e ∈ edges g \/ exists v, e = (target, v) /\ v ∈ vars /\ v <> target.
Proof.
  induction vars as [|w vars IH]; intros g e; simpl.
  - split; [tauto|]. intros [H|(v & _ & H & _)]; [exact H|].
    apply elem_of_nil in H. contradiction.
  - rewrite IH. unfold add_var. case_decide as Hw; simpl.
    + rewrite elem_of_union, elem_of_singleton. split.
      * intros [[H| ->]|(v & -> & Hv & Hne)]; [tauto|right|right].
        -- exists w. split; [reflexivity|]. split; [left|exact Hw].
        -- exists v. split; [reflexivity|]. split; [right; exact Hv|exact Hne].
      * intros [H|(v & -> & Hv & Hne)]; [tauto|].
        apply elem_of_cons in Hv as [->|Hv]; [tauto|].
        right. exists v. auto.
    + split.
      * intros [H|(v & -> & Hv & Hne)]; [tauto|].
        right. exists v. split; [reflexivity|]. split; [right; exact Hv|exact Hne].
      * intros [H|(v & -> & Hv & Hne)]; [tauto|].
        apply elem_of_cons in Hv as [->|Hv].
        -- exfalso. apply Hne. exact Hw.
        -- right. exists v. auto.
Qed.

Lemma scan_lines_spec lines : forall g,
  exists g', scan_lines g lines = Ok g' /\
    (forall v, v ∈ nodes g' <-> v ∈ nodes g \/ names lines v) /\
    (forall u v, (u, v) ∈ edges g' <-> (u, v) ∈ edges g \/ depends lines u v).
Proof.
  induction lines as [|line lines IH]; intros g.
  - exists g. split; [reflexivity|]. split.
    + intros v. split; [tauto|]. intros [H|(l & _ & _ & H & _)]; [exact H|].
      apply elem_of_nil in H. contradiction.
    + intros u v. split; [tauto|]. intros [H|(l & _ & H & _)]; [exact H|].
      apply elem_of_nil in H. contradiction.
  - cbn [scan_lines].
    destruct (equation_line_cases (Py.strip line)) as [(t & r & He)|Hn].
    + rewrite (scan_line_equation _ _ _ _ He). cbn [bind].
      destruct (IH (fold_left (add_var t) (findall var_re r)
                      (Graph (nodes g ∪ {[t]}) (edges g)))) as (g' & -> & Hv & Hd).
      exists g'. split; [reflexivity|]. split.
      * intros v. rewrite Hv, nodes_add_vars. cbn [nodes].
        rewrite elem_of_union, elem_of_singleton. split.
        -- intros [[[H|H]|H]|(l & t' & r' & Hl & He' & H)].
           ++ tauto.
           ++ right. exists line, t, r. split; [left|]. tauto.
           ++ right. exists line, t, r. split; [left|]. tauto.
           ++ right. exists l, t', r'. split; [right; exact Hl|]. tauto.
        -- intros [H|(l & t' & r' & Hl & He' & H)]; [tauto|].
           apply elem_of_cons in Hl as [->|Hl].
           ++ destruct (equation_line_unique _ _ _ _ _ He He') as [<- <-]. tauto.
           ++ right. exists l, t', r'. tauto.
      * intros u v. rewrite Hd, edges_add_vars. cbn [edges]. split.
        -- intros [[H|(w & [= -> ->] & Hw & Hne)]|(l & r' & Hl & He' & H)].
           ++ tauto.
           ++ right. exists line, r. split; [left|]. tauto.
           ++ right. exists l, r'. split; [right; exact Hl|]. tauto.
        -- intros [H|(l & r' & Hl & He' & Hw & Hne)]; [tauto|].
           apply elem_of_cons in Hl as [->|Hl].
           ++ destruct (equation_line_unique _ _ _ _ _ He He') as [<- <-].
              left. right. exists v. auto.
           ++ right. exists l, r'. tauto.
    + rewrite (scan_line_other _ _ Hn). cbn [bind].
      destruct (IH g) as (g' & -> & Hv & Hd).
      exists g'. split; [reflexivity|]. split.
      * intros v. rewrite Hv. split.
        -- intros [H|(l & t' & r' & Hl & He' & H)]; [tauto|].
           right. exists l, t', r'. split; [right; exact Hl|]. tauto.
        -- intros [H|(l & t' & r' & Hl & He' & H)]; [tauto|].
           apply elem_of_cons in Hl as [->|Hl]; [destruct (Hn _ _ He')|].
           right. exists l, t', r'. tauto.
      * intros u v. rewrite Hd. split.
        -- intros [H|(l & r' & Hl & He' & H)]; [tauto|].
           right. exists l, r'. split; [right; exact Hl|]. tauto.
        -- intros [H|(l & r' & Hl & He' & H)]; [tauto|].
           apply elem_of_cons in Hl as [->|Hl]; [destruct (Hn _ _ He')|].
           right. exists l, r'. tauto.
Qed.

Lemma dependency_graph_spec text :
  exists g, dependency_graph text = Ok g /\
    (forall v, v ∈ nodes g <-> names (Py.splitlines text) v) /\
    (forall u v, (u, v) ∈ edges g <-> depends (Py.splitlines text) u v).
Proof.
  destruct (scan_lines_spec (Py.splitlines text) (Graph ∅ ∅)) as (g & E & Hv & Hd).
  exists g. split; [exact E|]. split.
  - intros v. rewrite Hv. cbn [nodes]. rewrite elem_of_empty. tauto.
  - intros u v. rewrite Hd. cbn [edges]. rewrite elem_of_empty. tauto.
Qed.

(** ** The label formatter and the text of the graph *)

(** *** The pattern of a label *)

Lemma matches_group n r st p s cs g :
  matches r st (MState p s cs) -> g = consumed st (MState p s cs) ->
  matches (Group n r) st (MState p s ((n, g) :: cs)).
Proof. intros H ->. apply (M_Group n r st (MState p s cs)). exact H. Qed.

Lemma matches_label_re s m :
  matches label_re (start s) m <->
  exists ds r,
    s = 120 :: ds ++ r /\ ds <> [] /\ all isdecimal ds /\
    m = MState (last_or (Some 120) ds) r [(1%nat, ds)].
Proof.
  unfold label_re, start. change (ch "x") with 120. split.
  - intros H. inv_matches. cbn [prev rest caps] in *.
    rewrite consumed_app.
    match goal with H : Forall _ ?ds |- context [MState _ ?r [(_, ?ds)]] =>
      exists ds, r end.
    repeat split; try assumption. apply length_pos_nonnil. assumption.
  - intros (ds & r & -> & Hds & Hdec & ->).
    econstructor; [constructor|].
    apply matches_group; [|symmetry; apply consumed_app].
    constructor; [exact Hdec|apply length_pos_nonnil; exact Hds].
Qed.

Lemma fullmatch_label_variable ds :
  ds <> [] -> all isdecimal ds ->
  fullmatch label_re (ch "x" :: ds) =
  Some (MState (last_or (Some 120) ds) [] [(1%nat, ds)]).
Proof.
  intros Hds Hdec. unfold fullmatch.
  assert (matches label_re (start (ch "x" :: ds))
            (MState (last_or (Some 120) ds) [] [(1%nat, ds)])) as Hm.
  { apply matches_label_re. exists ds, []. rewrite app_nil_r. auto. }
  match goal with |- run _ _ ?k = _ => destruct (run label_re (start (ch "x" :: ds)) k) as [m|] eqn:E end.
  - apply run_sound in E as (st' & Hm' & Hk).
    apply matches_label_re in Hm' as (ds' & r & Es & _ & _ & ->).
    cbn [rest] in Hk. destruct r; [|discriminate]. injection Hk as <-.
    rewrite app_nil_r in Es. injection Es as <-. reflexivity.
  - apply (run_complete _ _ _ E) in Hm. discriminate.
Qed.

Lemma fullmatch_label_other s :
  ~ is_variable s -> fullmatch label_re s = None.
Proof.
  intros Hn. unfold fullmatch.
  match goal with |- run _ _ ?k = _ => destruct (run label_re (start s) k) as [m|] eqn:E end;
    [exfalso|reflexivity].
  apply run_sound in E as (st' & Hm' & Hk).
  apply matches_label_re in Hm' as (ds' & r & -> & Hds & Hdec & ->).
  cbn [rest] in Hk. destruct r; [|discriminate].
  apply Hn. exists ds'. rewrite app_nil_r. auto.
Qed.

Lemma dict_get_subs d : dict_get subs d d = subscript_digit d.
Proof.
  unfold subs, dict_get, subscript_digit, ascii_digit, glyph.
  repeat match goal with
  | |- context [?k =? d] => destruct (N.eqb_spec k d) as [<-|]; [reflexivity|]
  end.
  destruct (N.leb_spec 48 d); [|reflexivity].
  destruct (N.leb_spec d 57); [lia|reflexivity].
Qed.

Lemma subscript_label_variable ds :
  ds <> [] -> all isdecimal ds ->
  _subscript_label (ch "x" :: ds) = Ok (ch "x" :: map subscript_digit ds).
Proof.
  intros Hds Hdec. unfold _subscript_label.
  rewrite fullmatch_label_variable by assumption.
  unfold group. cbn [caps assoc Nat.eqb bind]. f_equal.
  change (L "x") with [ch "x"]. cbn [app]. f_equal.
  apply map_ext. intros d. apply dict_get_subs.
Qed.

Lemma subscript_label_other s : ~ is_variable s -> _subscript_label s = Ok s.
Proof.
  intros H. unfold _subscript_label. rewrite fullmatch_label_other by exact H.
  reflexivity.
Qed.

Lemma fullmatch_label_cases s :
  is_variable s \/ ~ is_variable s.
Proof.
  destruct (fullmatch label_re s) as [m|] eqn:E.
  - left. unfold fullmatch in E. apply run_sound in E as (st' & Hm' & Hk).
    apply matches_label_re in Hm' as (ds' & r & -> & Hds & Hdec & ->).
    cbn [rest] in Hk. destruct r; [|discriminate].
    exists ds'. rewrite app_nil_r. auto.
  - right. intros (ds & -> & Hds & Hdec).
    rewrite fullmatch_label_variable in E by assumption. discriminate.
Qed.

Lemma subscript_label_total s : exists out, _subscript_label s = Ok out.
Proof.
  destruct (fullmatch_label_cases s) as [(ds & -> & Hds & Hdec)|H].
  - rewrite subscript_label_variable by assumption. eauto.
  - rewrite subscript_label_other by exact H. eauto.
Qed.

Lemma node_line_ok v : node_line v = Ok (node_text v).
Proof.
  unfold node_line, node_text, label_of.
  destruct (subscript_label_total v) as [out ->]. reflexivity.
Qed.

Lemma graph_text_nonempty g : graph_text g <> [].
Proof.
  unfold graph_text, header. cbn [app]. 
  match goal with |- Py.join nl (?h :: ?t) <> [] =>
    destruct t; discriminate end.
Qed.

Lemma build_dependency_dot_spec text :
  exists g, dependency_graph text = Ok g /\
    build_dependency_dot text =
    Ok (if bool_decide (edges g = ∅) && bool_decide (nodes g = ∅)
        then [] else graph_text g).
Proof.
  destruct (dependency_graph_spec text) as (g & E & _).
  exists g. split; [exact E|]. unfold build_dependency_dot. rewrite E. cbn [bind].
  destruct (_ && _); [reflexivity|].
  rewrite (map_result_ok _ node_text) by apply node_line_ok. reflexivity.
Qed.

Lemma no_equation_empty_graph text g :
  dependency_graph text = Ok g ->
  (forall line target rhs, line ∈ Py.splitlines text ->
     ~ equation_line (Py.strip line) target rhs) ->
  nodes g = ∅ /\ edges g = ∅.
Proof.
  intros E Hn. destruct (dependency_graph_spec text) as (g' & E' & Hv & Hd).
  rewrite E in E'. injection E' as <-. split.
  - apply elem_of_equiv_empty_L. intros v Hin. apply Hv in Hin.
    destruct Hin as (l & t & r & Hl & He & _). exact (Hn _ _ _ Hl He).
  - apply elem_of_equiv_empty_L. intros [u v] Hin. apply Hd in Hin.
    destruct Hin as (l & r & Hl & He & _). exact (Hn _ _ _ Hl He).
Qed.

Lemma equation_nonempty_graph text g line target rhs :
  dependency_graph text = Ok g ->
  line ∈ Py.splitlines text -> equation_line (Py.strip line) target rhs ->
  target ∈ nodes g.
Proof.
  intros E Hl He. destruct (dependency_graph_spec text) as (g' & E' & Hv & _).
  rewrite E in E'. injection E' as <-. apply Hv.
  exists line, target, rhs. auto.
Qed.

(** ** Variables between word boundaries *)

Lemma in_ranges_within rs1 rs2 c :
  ranges_within rs1 rs2 = true -> in_ranges rs1 c = true -> in_ranges rs2 c = true.
Proof.
  intros Hw H1. apply in_ranges_true in H1 as (lo1 & hi1 & Hin1 & Hc1).
  unfold ranges_within in Hw. rewrite forallb_forall in Hw.
  specialize (Hw _ Hin1). apply existsb_exists in Hw as ([lo2 hi2] & Hin2 & H).
  simpl in H. apply andb_true_iff in H as [Ha Hb]. apply N.leb_le in Ha, Hb.
  apply in_ranges_true. exists lo2, hi2. split; [exact Hin2|lia].
Qed.

Lemma decimal_word c : isdecimal c = true -> isword c = true.
Proof. apply in_ranges_within. vm_compute. reflexivity. Qed.

Lemma last_or_all (cls : char -> bool) p ds :
  ds <> [] -> all cls ds -> exists d, last_or p ds = Some d /\ cls d = true.
Proof.
  intros Hds Hall. unfold last_or.
  destruct (last ds) as [d|] eqn:E.
  - exists d. split; [reflexivity|].
    apply last_Some_elem_of in E. unfold all in Hall.
    rewrite Forall_forall in Hall. auto.
  - apply last_None in E. contradiction.
Qed.

Lemma last_or_digits_word p ds :
  ds <> [] -> all isdecimal ds -> isword_opt (last_or p ds) = true.
Proof.
  intros Hds Hall. destruct (last_or_all _ p ds Hds Hall) as (d & -> & Hd).
  apply decimal_word, Hd.
Qed.

Lemma matches_var_re p s cs m :
  matches var_re (MState p s cs) m <->
  exists ds t,
    s = 120 :: ds ++ t /\ ds <> [] /\ all isdecimal ds /\
    isword_opt p = false /\ isword_opt (head t) = false /\
    m = MState (last_or (Some 120) ds) t ((1%nat, 120 :: ds) :: cs).
Proof.
  unfold var_re. change (ch "x") with 120. split.
  - intros H. inv_matches. cbn [prev rest caps] in *.
    match goal with
    | Hb1 : at_boundary (MState ?p0 (120 :: ?r ++ ?t) _) = true,
      Hb2 : at_boundary (MState (last_or _ ?r) ?t _) = true,
      Hd : Forall _ ?r, Hl : (1 <= length ?r)%nat |- _ =>
        apply length_pos_nonnil in Hl;
        unfold at_boundary in Hb1, Hb2;
        cbn [prev rest head isword_opt] in Hb1, Hb2;
        change (isword 120) with true in Hb1;
        rewrite (last_or_digits_word _ r Hl Hd) in Hb2;
        exists r, t;
        split; [reflexivity|]; split; [exact Hl|]; split; [exact Hd|];
        split; [destruct (isword_opt p0); [discriminate|reflexivity]|];
        split; [destruct (isword_opt (head t)); [discriminate|reflexivity]|]
    end.
    match goal with |- context [consumed (MState ?p (?c :: ?r ++ ?t) ?cs) ?b] =>
      change (consumed (MState p (c :: r ++ t) cs) b)
        with (consumed (MState p ((c :: r) ++ t) cs) b);
      rewrite consumed_app end.
    reflexivity.
  - intros (ds & t & -> & Hds & Hdec & Hp & Ht & ->).
    econstructor.
    { constructor. unfold at_boundary. cbn [prev rest head isword_opt].
      rewrite Hp. reflexivity. }
    econstructor.
    { apply (matches_group 1 _ _ (last_or (Some 120) ds) t cs (120 :: ds)).
      - econstructor; [constructor|].
        constructor; [exact Hdec|apply length_pos_nonnil; exact Hds].
      - change (120 :: ds ++ t) with ((120 :: ds) ++ t).
        symmetry. apply consumed_app. }
    constructor. unfold at_boundary. cbn [prev rest].
    rewrite last_or_digits_word by assumption. rewrite Ht. reflexivity.
Qed.

Lemma span_unique (cls : char -> bool) l1 : forall l2 t1 t2,
  all cls l1 -> all cls l2 -> head_not cls t1 -> head_not cls t2 ->
  l1 ++ t1 = l2 ++ t2 -> l1 = l2 /\ t1 = t2.
Proof.
  induction l1 as [|a l1 IH]; intros l2 t1 t2 H1 H2 Ht1 Ht2 E.
  - destruct l2 as [|b l2]; [auto|]. simpl in E. subst t1.
    apply Forall_cons in H2 as [Hb _]. simpl in Ht1. congruence.
  - apply Forall_cons in H1 as [Ha H1]. destruct l2 as [|b l2].
    + simpl in E. subst t2. simpl in Ht2. congruence.
    + apply Forall_cons in H2 as [Hb H2]. injection E as -> E.
      destruct (IH _ _ _ H1 H2 Ht1 Ht2 E) as [-> ->]. auto.
Qed.

Lemma nonword_head_not t : isword_opt (head t) = false -> head_not isdecimal t.
Proof.
  destruct t as [|c t]; simpl; [auto|]. intros H.
  destruct (isdecimal c) eqn:E; [|reflexivity].
  apply decimal_word in E. congruence.
Qed.

Lemma matches_var_det st m1 m2 :
  matches var_re st m1 -> matches var_re st m2 -> m1 = m2.
Proof.
  destruct st as [p s cs]. rewrite !matches_var_re.
  intros (d1 & t1 & -> & _ & H1 & _ & Ht1 & ->) (d2 & t2 & E & _ & H2 & _ & Ht2 & ->).
  injection E as E.
  apply (span_unique isdecimal) in E as [-> ->];
    auto using nonword_head_not.
Qed.

Lemma all_prefix_length (cls : char -> bool) l : forall a t x b,
  all cls l -> cls x = false -> l ++ t = a ++ x :: b ->
  (length l <= length a)%nat.
Proof.
  induction l as [|c l IH]; intros a t x b Hl Hx E; [simpl; lia|].
  apply Forall_cons in Hl as [Hc Hl]. destruct a as [|d a].
  - simpl in E. injection E as -> _. congruence.
  - injection E as _ E. simpl. apply IH in E; [lia|assumption..].
Qed.

Lemma findall_var_sound s : forall skip p v,
  v ∈ findall_from var_re skip p s -> var_occurs_at p s v.
Proof.
  induction s as [|c s IH]; intros skip p v H.
  - destruct skip; cbn [findall_from] in H; [|apply elem_of_nil in H; contradiction].
    destruct (run var_re (MState p [] []) Some) as [m|] eqn:E;
      [|apply elem_of_nil in H; contradiction].
    apply run_Some_matches, matches_var_re in E as (ds & t & E & _). discriminate.
  - assert (forall n, v ∈ findall_from var_re n (Some c) s -> var_occurs_at p (c :: s) v) as Hrec.
    { intros n Hn. apply IH in Hn as (pre & post & -> & Hv & Hp & Hq).
      exists (c :: pre), post. rewrite last_or_cons. auto. }
    destruct skip; cbn [findall_from] in H; [|eapply Hrec; exact H].
    destruct (run var_re (MState p (c :: s) []) Some) as [m|] eqn:E;
      [|eapply Hrec; exact H].
    apply elem_of_cons in H as [->|H]; [|eapply Hrec; exact H].
    apply run_Some_matches, matches_var_re in E as (ds & t & E & Hds & Hdec & Hp & Ht & ->).
    cbn [caps assoc Nat.eqb]. rewrite E.
    exists [], t. split; [reflexivity|]. split; [|auto].
    exists ds. auto.
Qed.

Lemma findall_var_complete pre : forall skip p ds post,
  (skip <= length pre)%nat ->
  ds <> [] -> all isdecimal ds ->
  isword_opt (last_or p pre) = false -> isword_opt (head post) = false ->
  (120 :: ds) ∈ findall_from var_re skip p (pre ++ (120 :: ds) ++ post).
Proof.
  induction pre as [|c pre IH]; intros skip p ds post Hskip Hds Hdec Hp Hq.
  - destruct skip; [|simpl in Hskip; lia]. cbn [app findall_from].
    change (isword_opt p = false) in Hp.
    rewrite (run_det _ _ (MState (last_or (Some 120) ds) post [(1%nat, 120 :: ds)]));
      [|intros; eapply matches_var_det; eassumption
       |apply matches_var_re; exists ds, post; repeat split; assumption].
    cbn [caps assoc Nat.eqb]. left.
  - rewrite last_or_cons in Hp.
    destruct skip as [|n].
    + cbn [app findall_from].
      destruct (run var_re (MState p (c :: pre ++ 120 :: ds ++ post) []) Some) as [m|] eqn:E.
      * right. apply IH; try assumption.
        apply run_Some_matches, matches_var_re in E as (ds' & t & E & _ & Hdec' & _ & _ & ->).
        cbn [rest]. rewrite E. injection E as _ E. symmetry in E.
        apply (all_prefix_length isdecimal) in E; [|exact Hdec'|reflexivity].
        cbn [length]. rewrite length_app. lia.
      * apply IH; [lia|assumption..].
    + cbn [app findall_from]. apply IH; [simpl in Hskip; lia|assumption..].
Qed.

(** [findall] with the pattern of a variable returns the Variables that
    stand between word boundaries, and nothing else. *)
Lemma findall_var_iff s v : v ∈ findall var_re s <-> var_occurs s v.
Proof.
  split.
  - apply findall_var_sound.
  - intros (pre & post & -> & (ds & -> & Hds & Hdec) & Hp & Hq).
    apply findall_var_complete; [lia|assumption..].
Qed.

Lemma str_lt_asym a : forall b, Py.str_lt a b = true -> Py.str_lt b a = false.
Proof.
  induction a as [|x a IH]; intros [|y b] H; cbn [Py.str_lt] in *;
    try reflexivity; try discriminate.
  lt_cases x y; try discriminate; try reflexivity. apply IH, H.
Qed.

Lemma str_lt_negtrans a : forall b c,
  Py.str_lt b a = false -> Py.str_lt c b = false -> Py.str_lt c a = false.
Proof.
  induction a as [|x a IH]; intros b c H1 H2.
  - destruct c; reflexivity.
  - destruct b as [|y b]; [discriminate|].
    destruct c as [|z c]; [discriminate|]. cbn [Py.str_lt] in *.
    destruct (N.ltb_spec y x), (N.eqb_spec y x), (N.ltb_spec z y), (N.eqb_spec z y),
      (N.ltb_spec z x), (N.eqb_spec z x); try lia; cbn [orb andb] in *;
      try discriminate; try reflexivity.
    eapply IH; eassumption.
Qed.

Lemma str_lt_total a : forall b, same_rank Py.str_lt a b -> a = b.
Proof.
  induction a as [|x a IH]; intros [|y b] [H1 H2]; cbn [Py.str_lt] in *;
    try reflexivity; try discriminate.
  lt_cases x y; try discriminate. subst. f_equal. apply IH. split; assumption.
Qed.

Lemma str_lt_irrefl a : Py.str_lt a a = false.
Proof.
  destruct (Py.str_lt a a) eqn:E; [|reflexivity].
  rewrite <- E at 1. apply str_lt_asym, E.
Qed.

Lemma pair_lt_asym a b : pair_lt a b = true -> pair_lt b a = false.
Proof.
  unfold pair_lt. destruct a as [a1 a2], b as [b1 b2]. cbn [fst snd].
  intros H. apply orb_true_iff in H as [H|H].
  - rewrite (str_lt_asym _ _ H). cbn [orb].
    destruct (bool_decide_reflect (b1 = a1)) as [->|]; [|reflexivity].
    rewrite str_lt_irrefl in H. discriminate.
  - apply andb_true_iff in H as [He H]. apply bool_decide_eq_true in He as ->.
    rewrite str_lt_irrefl, (str_lt_asym _ _ H), andb_false_r. reflexivity.
Qed.

Lemma pair_lt_negtrans a b c :
  pair_lt b a = false -> pair_lt c b = false -> pair_lt c a = false.
Proof.
  unfold pair_lt. destruct a as [a1 a2], b as [b1 b2], c as [c1 c2]. cbn [fst snd].
  rewrite !orb_false_iff, !andb_false_iff, !bool_decide_eq_false.
  intros [H1 H1'] [H2 H2']. split.
  - eapply str_lt_negtrans; eassumption.
  - destruct (decide (c1 = a1)) as [->|]; [right|left; assumption].
    assert (b1 = a1) as ->.
    { apply str_lt_total. split; assumption. }
    destruct H1' as [?|H1']; [congruence|]. destruct H2' as [?|H2']; [congruence|].
    eapply str_lt_negtrans; eassumption.
Qed.

Lemma pair_lt_total a b : same_rank pair_lt a b -> a = b.
Proof.
  unfold same_rank, pair_lt. destruct a as [a1 a2], b as [b1 b2]. cbn [fst snd].
  rewrite !orb_false_iff, !andb_false_iff, !bool_decide_eq_false.
  intros [[H1 H1'] [H2 H2']].
  assert (a1 = b1) as -> by (apply str_lt_total; split; assumption).
  destruct H1' as [?|H1']; [congruence|]. destruct H2' as [?|H2']; [congruence|].
  f_equal. apply str_lt_total. split; assumption.
Qed.

(** The text of the graph is the same for every order in which the two sets
    are enumerated. *)
Lemma graph_text_enumeration g (ns : list str) (es : list (str * str)) :
  ns ≡ₚ elements (nodes g) -> es ≡ₚ elements (edges g) ->
  Py.join nl
    (header ++ map node_text (Py.sorted Py.str_lt ns)
       ++ map edge_line (Py.sorted pair_lt es) ++ [L "}"]) =
  graph_text g.
Proof.
  intros Hn He. unfold graph_text.
  rewrite (sorted_enumeration Py.str_lt str_lt_asym str_lt_negtrans str_lt_total
             (elements (nodes g)) ns) by (apply NoDup_elements || (symmetry; exact Hn)).
  rewrite (sorted_enumeration pair_lt pair_lt_asym pair_lt_negtrans pair_lt_total
             (elements (edges g)) es) by (apply NoDup_elements || (symmetry; exact He)).
  reflexivity.
Qed.

(** * The claims *)

(** ** The canonicalizer *)

(** The sample is put in the order of the keys (0,0) (1,1) (1,2) (2,3). *)
Example reorder_sample :
  _reorder_statespace_dot sample_dot =
  Ok (L "digraph test {" ++ nl
      ++ edge_text "0 0" "0 0" ++ nl
      ++ edge_text "0 1" "1 1" ++ nl
      ++ edge_text "1 0" "0 1" ++ nl
      ++ edge_text "1 1" "0 0" ++ nl
      ++ L "}").
Proof. vm_compute. reflexivity. Qed.

(** C1, as amended.  When the text has at most one closing line, the lines
    of the output are the lines of the input in another order: none is
    added, lost or changed. *)
Theorem reorder_preserves_lines text :
  (length (filter is_closing (Py.splitlines text)) <= 1)%nat ->
  exists new_lines,
    _reorder_statespace_dot text = Ok (Py.join nl new_lines) /\
    new_lines ≡ₚ Py.splitlines text.
Proof.
  intros H. exists (canon (Py.splitlines text)). split.
  - apply reorder_ok.
  - apply canon_perm_one_closing, H.
Qed.

Lemma reorder_preserves_lines_witness :
  (length (filter is_closing (Py.splitlines sample_dot)) <= 1)%nat /\
  exists new_lines,
    _reorder_statespace_dot sample_dot = Ok (Py.join nl new_lines) /\
    new_lines ≡ₚ Py.splitlines sample_dot.
Proof.
  assert (length (filter is_closing (Py.splitlines sample_dot)) <= 1)%nat as H
    by (vm_compute; lia).
  split; [exact H|]. exact (reorder_preserves_lines sample_dot H).
Defined.

(** C1 fails as stated: of two closing lines only one is in the output. *)
Lemma reorder_drops_closing_lines :
  ~ exists new_lines,
      _reorder_statespace_dot (L "}" ++ nl ++ L "}") = Ok (Py.join nl new_lines) /\
      new_lines ≡ₚ Py.splitlines (L "}" ++ nl ++ L "}").
Proof.
  intros (ls & E & P).
  change (Py.splitlines (L "}" ++ nl ++ L "}")) with [[125]; [125]] in P.
  change (_reorder_statespace_dot (L "}" ++ nl ++ L "}")) with (@Ok (list N) [125]) in E.
  pose proof (Permutation_length P) as Hl.
  destruct ls as [|a [|b [|c ls]]]; try discriminate.
  assert (a ∈ [[125]; [125]]) as Ha by (rewrite <- P; left).
  assert (b ∈ [[125]; [125]]) as Hb by (rewrite <- P; right; left).
  assert (forall x : list N, x ∈ [[125]; [125]] -> x = [125]) as Hx.
  { intros x Hin. repeat (apply elem_of_cons in Hin as [->|Hin]; [reflexivity|]).
    apply elem_of_nil in Hin. contradiction. }
  rewrite (Hx _ Ha), (Hx _ Hb) in E. discriminate.
Qed.

Lemma has_edge_first line : has_edge line -> exists src, first_edge line src.
Proof.
  unfold has_edge. destruct (search edge_pattern line) as [m|] eqn:E; [|congruence].
  intros _. apply search_edge_Some in E as (src & Hf & _). eauto.
Qed.

Lemma key_for_line_first line src :
  first_edge line src ->
  key_for_line line = Ok (hamming_weight src, binary_value src).
Proof.
  intros H. rewrite key_for_line_ok. f_equal. unfold key_of.
  apply first_edge_search in H as (m & -> & Hg). unfold group in Hg.
  destruct (assoc 1 (caps m)); [|discriminate]. injection Hg as ->. reflexivity.
Qed.

Lemma key_of_first line src : first_edge line src -> key_of line = label_key src.
Proof.
  intros H. pose proof (key_for_line_first _ _ H) as E.
  rewrite key_for_line_ok in E. injection E as E. exact E.
Qed.

(** C2.  In the output an edge line stands before every edge line of greater
    Hamming weight of the source label, and before every edge line of equal
    weight and greater value of the source label; edge lines of equal key
    keep the order they have in the input. *)
Theorem reorder_sorts_edge_lines text :
  exists new_lines,
    _reorder_statespace_dot text = Ok (Py.join nl new_lines) /\
    (forall l1 a l2 b l3,
       new_lines = l1 ++ a :: l2 ++ b :: l3 -> has_edge a -> has_edge b ->
       exists sa sb,
         first_edge a sa /\ first_edge b sb /\
         key_for_line a = Ok (hamming_weight sa, binary_value sa) /\
         key_for_line b = Ok (hamming_weight sb, binary_value sb) /\
         hamming_weight sa <= hamming_weight sb /\
         (hamming_weight sa = hamming_weight sb -> binary_value sa <= binary_value sb)) /\
    (forall k,
       filter (fun l => has_edge l /\ key_for_line l = Ok k) new_lines =
       filter (fun l => has_edge l /\ key_for_line l = Ok k) (Py.splitlines text)).
Proof.
  exists (canon (Py.splitlines text)). split; [apply reorder_ok|]. split.
  - intros l1 a l2 b l3 E Ha Hb.
    pose proof (canon_edges_ordered _ _ _ _ _ _ E Ha Hb) as Ho.
    destruct (has_edge_first _ Ha) as [sa Hsa], (has_edge_first _ Hb) as [sb Hsb].
    exists sa, sb. rewrite (key_of_first _ _ Hsa), (key_of_first _ _ Hsb) in Ho.
    apply key_lt_false in Ho. cbn [label_key fst snd] in Ho.
    repeat split; try assumption; try (apply key_for_line_first; assumption); tauto.
  - intros k.
    assert (forall l, has_edge l /\ key_for_line l = Ok k <->
                      has_edge l /\ key_of l = k) as Hk.
    { intros l. rewrite key_for_line_ok. split.
      - intros [H [= <-]]. auto.
      - intros [H <-]. auto. }
    rewrite (list_filter_iff _ _ _ Hk), (list_filter_iff _ _ (Py.splitlines text) Hk).
    apply canon_edges_stable.
Qed.

Lemma splitlines_join_subset ls l :
  Forall nobreak ls -> l ∈ Py.splitlines (Py.join nl ls) -> l ∈ ls.
Proof.
  intros Hn Hl. destruct (decide (last ls = Some [])) as [E|E].
  - apply last_blank_split in E as [p ->].
    apply Forall_app in Hn as [Hn _].
    rewrite splitlines_join_blank in Hl by exact Hn.
    apply elem_of_app. auto.
  - rewrite splitlines_join in Hl by assumption. exact Hl.
Qed.

(** C7.  A closing line of the input is the last line of the output (the
    last one, when there are several); without a closing line in the input
    there is none in the output. *)
Theorem reorder_closing_last text :
  exists new_lines,
    _reorder_statespace_dot text = Ok (Py.join nl new_lines) /\
    (forall l, l ∈ Py.splitlines text -> is_closing l ->
       exists c,
         last (filter is_closing (Py.splitlines text)) = Some c /\ is_closing c /\
         last new_lines = Some c /\
         last (Py.splitlines (Py.join nl new_lines)) = Some c) /\
    ((forall l, l ∈ Py.splitlines text -> ~ is_closing l) ->
       forall l, l ∈ new_lines \/ l ∈ Py.splitlines (Py.join nl new_lines) ->
         ~ is_closing l).
Proof.
  exists (canon (Py.splitlines text)). split; [apply reorder_ok|]. split.
  - intros l Hl Hc.
    destruct (last (filter is_closing (Py.splitlines text))) as [c|] eqn:E.
    + exists c. pose proof (canon_last_closing _ _ E) as Hlast.
      pose proof (last_filter_closing _ _ E) as [Hcc _].
      split; [reflexivity|]. split; [exact Hcc|]. split; [exact Hlast|].
      rewrite splitlines_join; [exact Hlast|apply canon_nobreak|].
      rewrite Hlast. intros [= ->]. exact (closing_nonempty _ Hcc eq_refl).
    + apply last_None in E.
      assert (l ∈ filter is_closing (Py.splitlines text)) as Hin
        by (apply list_elem_of_filter; auto).
      rewrite E in Hin. apply elem_of_nil in Hin. contradiction.
  - intros Hno l Hl.
    assert (l ∈ canon (Py.splitlines text)) as Hin.
    { destruct Hl as [Hl|Hl]; [exact Hl|].
      eapply splitlines_join_subset; [apply canon_nobreak|exact Hl]. }
    apply Hno, canon_elem_of, Hin.
Qed.

(** C9.  Of the closing lines of the input the last one alone is in the
    output, as its last line; the lines before it are the lines of the input
    that are not closing lines. *)
Theorem reorder_keeps_last_closing text cs c :
  filter is_closing (Py.splitlines text) = cs ++ [c] ->
  exists body,
    _reorder_statespace_dot text = Ok (Py.join nl (body ++ [c])) /\
    Forall (fun l => ~ is_closing l) body /\
    body ≡ₚ filter (fun l => ~ is_closing l) (Py.splitlines text).
Proof.
  intros H.
  exists (prefix_block (Py.splitlines text) ++ edge_block (Py.splitlines text)).
  split; [|split].
  - rewrite reorder_ok, canon_blocks. unfold closing_block.
    rewrite H, last_snoc, <- app_assoc. reflexivity.
  - apply Forall_app. split.
    + eapply Forall_impl; [apply prefix_block_all|apply prefix_not_closing].
    + eapply Forall_impl; [apply edge_block_all|apply edge_not_closing].
  - rewrite not_closing_split. apply Permutation_app_head, edge_block_perm.
Qed.

Lemma reorder_keeps_last_closing_witness :
  filter is_closing (Py.splitlines two_graphs) = [L "}"] ++ [L " }"] /\
  exists body,
    _reorder_statespace_dot two_graphs = Ok (Py.join nl (body ++ [L " }"])) /\
    Forall (fun l => ~ is_closing l) body /\
    body ≡ₚ filter (fun l => ~ is_closing l) (Py.splitlines two_graphs).
Proof.
  assert (filter is_closing (Py.splitlines two_graphs) = [L "}"] ++ [L " }"]) as H
    by (vm_compute; reflexivity).
  split; [exact H|]. exact (reorder_keeps_last_closing two_graphs _ _ H).
Defined.

Lemma has_edge_occurs line : has_edge line <-> exists pre src, edge_occurs line pre src.
Proof.
  unfold has_edge. split.
  - intros H. destruct (search edge_pattern line) as [m|] eqn:E; [|congruence].
    apply search_edge_Some in E as (src & (pre & Ho & _) & _). eauto.
  - intros (pre & src & Ho) E. exact (proj1 (search_edge_None line) E _ _ Ho).
Qed.

(** A comment that quotes an edge is sorted with the edges, here after the
    edge of smaller key that follows it in the input. *)
Example reorder_comment_line :
  _reorder_statespace_dot
    (L "// see " ++ edge_text "1 1" "0 0" ++ nl ++ edge_text "0 1" "1 1" ++ nl ++ L "}") =
  Ok (edge_text "0 1" "1 1" ++ nl ++ L "// see " ++ edge_text "1 1" "0 0" ++ nl ++ L "}").
Proof. vm_compute. reflexivity. Qed.

(** C10.  A line that is not a closing line goes to the sorted block of edge
    lines exactly when an edge statement occurs somewhere in it, and to the
    prefix lines otherwise; its key is that of the source label of the first
    edge statement in it. *)
Theorem reorder_edge_anywhere text :
  exists prefix block closing,
    _reorder_statespace_dot text = Ok (Py.join nl (prefix ++ block ++ closing)) /\
    Forall is_closing closing /\
    (forall line, line ∈ Py.splitlines text -> ~ is_closing line ->
       (line ∈ block <-> exists pre src, edge_occurs line pre src) /\
       (line ∈ prefix <-> ~ exists pre src, edge_occurs line pre src)) /\
    (forall l1 a l2 b l3, block = l1 ++ a :: l2 ++ b :: l3 ->
       exists ka kb, key_for_line a = Ok ka /\ key_for_line b = Ok kb /\
         key_lt kb ka = false) /\
    (forall line src, first_edge line src ->
       key_for_line line = Ok (hamming_weight src, binary_value src)).
Proof.
  exists (prefix_block (Py.splitlines text)), (edge_block (Py.splitlines text)),
    (closing_block (Py.splitlines text)).
  split; [apply reorder_ok|]. split; [apply closing_block_all|]. split; [|split].
  - intros line Hl Hc. rewrite <- has_edge_occurs. split.
    + rewrite edge_block_perm, list_elem_of_filter. unfold is_edge_line. tauto.
    + unfold prefix_block. rewrite list_elem_of_filter. unfold is_prefix_line. tauto.
  - intros l1 a l2 b l3 E. exists (key_of a), (key_of b).
    rewrite !key_for_line_ok. split; [reflexivity|]. split; [reflexivity|].
    pose proof (edge_block_ordered (Py.splitlines text)) as Hs. rewrite E in Hs.
    apply StronglySorted_app_1_r in Hs. apply StronglySorted_cons in Hs as [Hs _].
    rewrite Forall_forall in Hs. apply (Hs b). rewrite elem_of_app. right. left.
  - apply key_for_line_first.
Qed.

(** C10 fails as stated: the key of an edge line is not that of the first
    quoted label occurring in the line when no arrow follows that label.  The
    line ["1 1" "0 1" -> "1"] is an edge line; its first quoted label is
    ["1 1"], of key (2, 3), but its key is (1, 1), that of ["0 1"], the source
    label of its first edge statement, and it is sorted before an edge from
    ["1 0"], of key (1, 2). *)
Lemma reorder_key_not_first_label :
  ~ is_closing label_before_edge /\
  (exists pre src, edge_occurs label_before_edge pre src) /\
  first_quoted_label label_before_edge (L "1 1") /\
  (hamming_weight (L "1 1"), binary_value (L "1 1")) = (2, 3) /\
  key_for_line label_before_edge = Ok (1, 1) /\
  first_edge label_before_edge (L "0 1") /\
  _reorder_statespace_dot (edge_text "1 0" "0 0" ++ nl ++ label_before_edge) =
    Ok (label_before_edge ++ nl ++ edge_text "1 0" "0 0") /\
  ~ (forall line label, first_quoted_label line label ->
       key_for_line line = Ok (hamming_weight label, binary_value label)).
Proof.
  assert (Hq : first_quoted_label label_before_edge (L "1 1")).
  { exists []. split.
    - eexists. split; [reflexivity|]. split; [discriminate|].
      repeat constructor.
    - intros pre' label' _. apply Nat.le_0_l. }
  assert (Hf : first_edge label_before_edge (L "0 1")).
  { destruct (search edge_pattern label_before_edge) as [m|] eqn:E;
      [|vm_compute in E; discriminate E].
    destruct (search_edge_Some _ _ E) as (src & Hfirst & Hcap).
    assert (Hm : group 1 m = Ok (L "0 1")).
    { vm_compute in E. injection E as <-. vm_compute. reflexivity. }
    rewrite Hm in Hcap. injection Hcap as <-. exact Hfirst. }
  split; [vm_compute; discriminate|]. split.
  { destruct Hf as (pre & Ho & _). eauto. }
  split; [exact Hq|]. split; [vm_compute; reflexivity|].
  split; [vm_compute; reflexivity|]. split; [exact Hf|].
  split; [vm_compute; reflexivity|].
  intros H. specialize (H _ _ Hq). vm_compute in H. discriminate H.
Qed.

(** C6 fails as stated: a text of prefix lines that ends with an empty line
    loses one line feed at each pass. *)
Lemma reorder_not_idempotent_blank :
  ~ exists out,
      _reorder_statespace_dot (L "a" ++ nl ++ nl) = Ok out /\
      _reorder_statespace_dot out = Ok out.
Proof.
  intros (out & E1 & E2).
  change (_reorder_statespace_dot (L "a" ++ nl ++ nl)) with (@Ok (list N) [97; 10]) in E1.
  injection E1 as <-.
  change (_reorder_statespace_dot [97; 10]) with (@Ok (list N) [97]) in E2.
  discriminate.
Qed.

(** C6, as amended.  Applying the canonicalizer to its own output gives that
    output again exactly when the output does not end with a line feed, and
    so for every text with a closing line or an edge line. *)
Theorem reorder_idempotent text :
  exists out,
    _reorder_statespace_dot text = Ok out /\
    (_reorder_statespace_dot out = Ok out <-> last out <> Some 10) /\
    ((exists l, l ∈ Py.splitlines text /\ (is_closing l \/ has_edge l)) ->
       _reorder_statespace_dot out = Ok out).
Proof.
  exists (Py.join nl (canon (Py.splitlines text))).
  split; [apply reorder_ok|]. split; [apply canon_idempotent_iff|].
  intros (l & Hl & H). apply reorder_twice. intros Hb.
  apply canon_last_blank in Hb. rewrite Forall_forall in Hb.
  destruct H as [H|H].
  - destruct (last (filter is_closing (Py.splitlines text))) as [c|] eqn:E.
    + pose proof (last_filter_closing _ _ E) as [Hc _].
      apply canon_last_closing, last_Some_elem_of in E.
      exact (prefix_not_closing _ (Hb _ E) Hc).
    + apply last_None in E.
      assert (l ∈ filter is_closing (Py.splitlines text)) as Hin
        by (apply list_elem_of_filter; auto).
      rewrite E in Hin. apply elem_of_nil in Hin. contradiction.
  - apply edge_line_iff in H.
    assert (l ∈ canon (Py.splitlines text)) as Hin.
    { rewrite canon_blocks, !elem_of_app. right. left.
      rewrite edge_block_perm. apply list_elem_of_filter. auto. }
    exact (prefix_not_edge _ (Hb _ Hin) H).
Qed.

(** ** The dependency extractor *)

(** C3.  The nodes are the targets of the equation lines and the Variables
    that stand between word boundaries in their right-hand sides; the system
    of three equations has the three nodes and the five edges of the
    specification. *)
Theorem dependency_nodes_union :
  (forall text, exists g,
      dependency_graph text = Ok g /\
      forall v, v ∈ nodes g <->
        exists line target rhs,
          line ∈ Py.splitlines text /\
          equation_line (Py.strip line) target rhs /\
          (v = target \/ var_occurs rhs v)) /\
  dependency_graph example_system =
    Ok (Graph {[ L "x1"; L "x2"; L "x3" ]}
              {[ (L "x1", L "x2"); (L "x2", L "x1"); (L "x2", L "x3");
                 (L "x3", L "x2"); (L "x3", L "x1") ]}).
Proof.
  split; [|vm_compute; reflexivity].
  intros text. destruct (dependency_graph_spec text) as (g & E & Hv & _).
  exists g. split; [exact E|]. intros v. rewrite Hv. unfold names.
  split; intros (line & target & rhs & Hl & He & H); exists line, target, rhs;
    (split; [exact Hl|split; [exact He|]]);
    [rewrite <- findall_var_iff|rewrite findall_var_iff]; exact H.
Qed.

(** A variable on both sides of its own equation gets no edge to itself. *)
Example dependency_own_variable :
  dependency_graph (L "x1 = x1 + x2") =
  Ok (Graph {[ L "x1"; L "x2" ]} {[ (L "x1", L "x2") ]}).
Proof. vm_compute. reflexivity. Qed.

(** C4.  No edge goes from a variable to itself. *)
Theorem dependency_no_self_loop text :
  exists g, dependency_graph text = Ok g /\ forall v, (v, v) ∉ edges g.
Proof.
  destruct (dependency_graph_spec text) as (g & E & _ & Hd).
  exists g. split; [exact E|]. intros v Hin.
  apply Hd in Hin as (line & rhs & _ & _ & _ & Hne). congruence.
Qed.

(** C8.  A text none of whose lines matches the pattern of an assignment
    gives two empty sets and the empty string. *)
Theorem dependency_empty_text text :
  Forall (fun line => match_ assign_re (Py.strip line) = None) (Py.splitlines text) ->
  dependency_graph text = Ok (Graph ∅ ∅) /\
  build_dependency_dot text = Ok [].
Proof.
  intros H. rewrite Forall_forall in H.
  destruct (build_dependency_dot_spec text) as (g & E & Eb).
  destruct (no_equation_empty_graph text g E) as [Hn He].
  { intros line target rhs Hl. apply match_assign_None, H, Hl. }
  rewrite Eb, E. destruct g as [n e]. cbn [nodes edges] in *. subst n e.
  split; reflexivity.
Qed.

Lemma dependency_empty_text_witness :
  Forall (fun line => match_ assign_re (Py.strip line) = None)
    (Py.splitlines headers_only) /\
  dependency_graph headers_only = Ok (Graph ∅ ∅) /\
  build_dependency_dot headers_only = Ok [].
Proof.
  assert (Forall (fun line => match_ assign_re (Py.strip line) = None)
            (Py.splitlines headers_only)) as H
    by (repeat (constructor; [vm_compute; reflexivity|]); constructor).
  split; [exact H|]. exact (dependency_empty_text headers_only H).
Defined.

(** The empty string is returned in no other case. *)
Lemma build_dependency_dot_empty_iff text :
  build_dependency_dot text = Ok [] <->
  forall line target rhs,
    line ∈ Py.splitlines text -> ~ equation_line (Py.strip line) target rhs.
Proof.
  destruct (build_dependency_dot_spec text) as (g & E & Eb). split.
  - intros H line target rhs Hl He. rewrite Eb in H.
    pose proof (equation_nonempty_graph _ _ _ _ _ E Hl He) as Hin.
    destruct (bool_decide (nodes g = ∅)) eqn:En.
    + apply bool_decide_eq_true in En. rewrite En in Hin.
      apply elem_of_empty in Hin. exact Hin.
    + rewrite andb_false_r in H. injection H as H. exact (graph_text_nonempty _ H).
  - intros H. destruct (no_equation_empty_graph text g E H) as [Hn He].
    rewrite Eb, Hn, He. reflexivity.
Qed.

(** ** The label formatter *)

Lemma ascii_digit_decimal d : ascii_digit d = true -> isdecimal d = true.
Proof.
  unfold ascii_digit. intros H. apply andb_true_iff in H as [H1 H2].
  apply in_ranges_true. exists 48, 57. split; [left; reflexivity|].
  apply N.leb_le in H1, H2. lia.
Qed.

Lemma glyph_is_glyph d : ascii_digit d = true -> is_glyph (glyph d) = true.
Proof.
  unfold ascii_digit, is_glyph, glyph. intros H. apply andb_true_iff in H as [H1 H2].
  apply N.leb_le in H1, H2. apply andb_true_iff. split; apply N.leb_le; lia.
Qed.

(** C5 fails as stated: a name with a digit of another script is neither
    returned unchanged nor given one subscript glyph per digit. *)
Lemma subscript_label_foreign_digit :
  _subscript_label [120; 49; 1635] = Ok [120; 8321; 1635] /\
  ~ (exists ds, [120; 49; 1635] = ch "x" :: ds /\ ds <> [] /\ all ascii_digit ds) /\
  [120; 8321; 1635] <> [120; 49; 1635] /\
  is_variable [120; 49; 1635] /\
  ~ all is_glyph [8321; 1635].
Proof.
  split; [vm_compute; reflexivity|]. split; [|split; [discriminate|split]].
  - intros (ds & [= <-] & _ & H). apply Forall_cons in H as [_ H].
    apply Forall_cons in H as [H _]. discriminate.
  - exists [49; 1635]. split; [reflexivity|]. split; [discriminate|].
    repeat constructor.
  - intros H. apply Forall_cons in H as [_ H]. apply Forall_cons in H as [H _].
    discriminate.
Qed.

Lemma subscript_ascii ds :
  all ascii_digit ds ->
  map subscript_digit ds = map glyph ds /\ all is_glyph (map glyph ds) /\
  all isdecimal ds.
Proof.
  induction 1 as [|d ds Hd _ (IH1 & IH2 & IH3)]; [repeat split; constructor|].
  cbn [map]. unfold subscript_digit at 1. rewrite Hd, IH1.
  split; [reflexivity|]. split; constructor; auto using glyph_is_glyph, ascii_digit_decimal.
Qed.

(** C5, as amended.  The label formatter always returns a string.  For [x]
    followed by digits [0] to [9] it is [x] followed by the subscript glyph
    of each digit, in order.  For [x] followed by decimal digits of any
    script, each digit [0] to [9] is replaced by its glyph and every other
    digit is kept.  Every other string is returned unchanged. *)
Theorem subscript_label_spec s :
  exists out,
    _subscript_label s = Ok out /\
    (forall ds, s = ch "x" :: ds -> ds <> [] -> all ascii_digit ds ->
       out = ch "x" :: map glyph ds /\
       all is_glyph (map glyph ds) /\ length (map glyph ds) = length ds) /\
    (forall ds, s = ch "x" :: ds -> ds <> [] -> all isdecimal ds ->
       out = ch "x" :: map subscript_digit ds) /\
    (~ is_variable s -> out = s).
Proof.
  destruct (subscript_label_total s) as [out E]. exists out.
  split; [exact E|]. split; [|split].
  - intros ds -> Hds Ha. destruct (subscript_ascii ds Ha) as (H1 & H2 & H3).
    rewrite subscript_label_variable in E by assumption.
    injection E as <-. rewrite H1, length_map. auto.
  - intros ds -> Hds Hd. rewrite subscript_label_variable in E by assumption.
    injection E as <-. reflexivity.
  - intros H. rewrite subscript_label_other in E by exact H.
    injection E as <-. reflexivity.
Qed.

Example subscript_label_x12 : _subscript_label (L "x12") = Ok [120; 8321; 8322].
Proof. vm_compute. reflexivity. Qed.

Example subscript_label_state : _subscript_label (L "state") = Ok (L "state").
Proof. vm_compute. reflexivity. Qed.

(** * Further properties of the canonicalizer *)

(** X1.  The canonicalizer never raises: [int(bits, 2)] is only reached with
    a non-empty string of [0] and [1], and [m.group(1)] always exists. *)
Theorem reorder_never_raises :
  (forall line, exists w v, key_for_line line = Ok (w, v)) /\
  (forall text, exists out, _reorder_statespace_dot text = Ok out).
Proof.
  split.
  - intros line. rewrite key_for_line_ok. destruct (key_of line) as [w v]. eauto.
  - intros text. rewrite reorder_ok. eauto.
Qed.

(** X2.  The lines that are neither closing lines nor hold an edge statement
    come first in the output, in the order they have in the input; the edge
    lines follow, and at most one closing line ends the output. *)
Theorem reorder_prefix_lines_first text :
  exists block closing,
    _reorder_statespace_dot text =
      Ok (Py.join nl
            (filter (fun l => ~ is_closing l /\ ~ has_edge l) (Py.splitlines text)
             ++ block ++ closing)) /\
    block ≡ₚ filter (fun l => ~ is_closing l /\ has_edge l) (Py.splitlines text) /\
    Forall is_closing closing /\ (length closing <= 1)%nat.
Proof.
  exists (edge_block (Py.splitlines text)), (closing_block (Py.splitlines text)).
  split; [apply reorder_ok|]. split; [apply edge_block_perm|].
  split; [apply closing_block_all|].
  unfold closing_block. destruct (last _); cbn [option_list length]; auto.
Qed.

Lemma popcount_double n : popcount (2 * n) = popcount n.
Proof. destruct n; reflexivity. Qed.

Lemma popcount_double_one n : popcount (2 * n + 1) = popcount n + 1.
Proof.
  destruct n as [|p]; [reflexivity|].
  change (1 + pos_popcount p = pos_popcount p + 1). apply N.add_comm.
Qed.

Lemma popcount_binary label : forall acc,
  popcount (fold_left binary_step label acc) =
  popcount acc + N.of_nat (count_occ N.eq_dec label (ch "1")).
Proof.
  induction label as [|c label IH]; intros acc.
  - simpl. lia.
  - cbn [fold_left count_occ]. rewrite IH. unfold binary_step.
    change (ch "0") with 48. change (ch "1") with 49.
    destruct (N.eq_dec c 49) as [->|Hc].
    + change (49 =? 48) with false. change (49 =? 49) with true. cbv iota.
      rewrite popcount_double_one. lia.
    + destruct (N.eqb_spec c 48).
      * rewrite popcount_double. lia.
      * destruct (N.eqb_spec c 49); [contradiction|]. lia.
Qed.

Lemma hamming_weight_popcount label :
  hamming_weight label = popcount (binary_value label).
Proof. unfold hamming_weight, binary_value. rewrite popcount_binary. reflexivity. Qed.

(** X3.  The first half of a key is the number of [1] bits of its second
    half: the value of the source label alone decides the place of a line. *)
Theorem key_weight_is_popcount line :
  exists v, key_for_line line = Ok (popcount v, v).
Proof.
  rewrite key_for_line_ok. unfold key_of.
  destruct (search edge_pattern line) as [m|]; [|exists 0; reflexivity].
  destruct (assoc 1 (caps m)) as [raw|]; [|exists 0; reflexivity].
  exists (binary_value raw). unfold label_key.
  rewrite hamming_weight_popcount. reflexivity.
Qed.

Lemma join_line_feeds ls :
  Forall nobreak ls ->
  Forall (fun c => islinebreak c = true -> c = 10) (Py.join nl ls).
Proof.
  induction 1 as [|x ls Hx Hls IH]; [constructor|].
  assert (Forall (fun c => islinebreak c = true -> c = 10) x) as Hx'.
  { eapply Forall_impl; [exact Hx|]. intros c Hc Hb. congruence. }
  destruct ls as [|y ls]; [exact Hx'|].
  rewrite join_cons. apply Forall_app. split; [exact Hx'|].
  apply Forall_app. split; [|exact IH]. repeat constructor.
Qed.

(** X4.  Whatever line boundaries the input uses (CR, CR LF, form feed,
    U+2028 and the like), the only one in the output is the line feed. *)
Theorem reorder_line_feeds_only text :
  exists out,
    _reorder_statespace_dot text = Ok out /\
    Forall (fun c => islinebreak c = true -> c = 10) out.
Proof.
  exists (Py.join nl (canon (Py.splitlines text))).
  split; [apply reorder_ok|]. apply join_line_feeds, canon_nobreak.
Qed.

Lemma same_rank_line a b : same_rank line_lt a b <-> key_of a = key_of b.
Proof.
  unfold same_rank, line_lt. rewrite !key_lt_false.
  destruct (key_of a) as [w v], (key_of b) as [w' v']. cbn [fst snd]. split.
  - intros [[H1 H2] [H3 H4]]. assert (w = w') as -> by lia. f_equal. lia.
  - intros [= -> ->]. lia.
Qed.

(** The output of [reorder_lines] depends on three things only. *)
Lemma canon_ext l1 l2 :
  filter is_prefix_line l1 = filter is_prefix_line l2 ->
  last (filter is_closing l1) = last (filter is_closing l2) ->
  (forall x, filter (same_rank line_lt x) (filter is_edge_line l1) =
             filter (same_rank line_lt x) (filter is_edge_line l2)) ->
  canon l1 = canon l2.
Proof.
  intros Hp Hc He. unfold canon. rewrite Hp, Hc. do 2 f_equal.
  apply sorted_unique.
  - apply line_lt_asym.
  - apply line_lt_negtrans.
  - apply sorted_ordered; [apply line_lt_asym|apply line_lt_negtrans].
  - intros x. rewrite sorted_filter.
    + apply He.
    + intros a b. apply same_rank_not_lt, line_lt_negtrans.
Qed.

Lemma filter_swap {A} (P : A -> Prop) `{!forall x, Decision (P x)} pre a b post :
  ~ (P a /\ P b) ->
  filter P (pre ++ a :: b :: post) = filter P (pre ++ b :: a :: post).
Proof.
  intros Hn. rewrite !filter_app, !filter_cons.
  destruct (decide (P a)), (decide (P b)); try reflexivity. tauto.
Qed.

Lemma canon_swap pre a b post :
  may_swap a b -> canon (pre ++ a :: b :: post) = canon (pre ++ b :: a :: post).
Proof.
  intros (Hp & Hc & He). apply canon_ext.
  - apply filter_swap, Hp.
  - f_equal. apply filter_swap, Hc.
  - intros x. rewrite !list_filter_filter. apply filter_swap.
    intros [[Hxa Ha] [Hxb Hb]]. apply He.
    apply edge_line_iff in Ha, Hb. split; [exact Ha|]. split; [exact Hb|].
    rewrite !key_for_line_ok. f_equal.
    apply same_rank_line in Hxa, Hxb. congruence.
Qed.

(** X5.  Exchanging two neighbouring lines of the input changes nothing in
    the output, unless both are prefix lines, both are closing lines, or both
    are edge lines of the same key. *)
Theorem reorder_swap_neighbours text1 text2 pre a b post :
  Py.splitlines text1 = pre ++ a :: b :: post ->
  Py.splitlines text2 = pre ++ b :: a :: post ->
  may_swap a b ->
  _reorder_statespace_dot text1 = _reorder_statespace_dot text2.
Proof.
  intros E1 E2 H. rewrite !reorder_ok, E1, E2, (canon_swap _ _ _ _ H). reflexivity.
Qed.

Lemma reorder_swap_neighbours_witness :
  _reorder_statespace_dot sample_dot = _reorder_statespace_dot sample_dot_swapped.
Proof.
  apply (reorder_swap_neighbours sample_dot sample_dot_swapped
           [L "digraph test {"] (edge_text "1 1" "0 0") (edge_text "0 1" "1 1")
           [edge_text "0 0" "0 0"; edge_text "1 0" "0 1"; L "}"]).
  - vm_compute. reflexivity.
  - vm_compute. reflexivity.
  - apply (bool_decide_unpack _); vm_compute; exact I.
Defined.

Lemma canon_in_order lines : in_order lines -> canon lines = lines.
Proof.
  intros (p & e & c & -> & Hp & He & Hs & Hc & Hlen).
  assert (Forall is_edge_line e) as He'.
  { eapply Forall_impl; [exact He|]. intros l. apply edge_line_iff. }
  unfold canon. rewrite !filter_app.
  rewrite (filter_all is_prefix_line p) by exact Hp.
  rewrite (filter_none is_prefix_line e)
    by (eapply Forall_impl; [exact He'|apply edge_not_prefix]).
  rewrite (filter_none is_prefix_line c)
    by (eapply Forall_impl; [exact Hc|apply closing_not_prefix]).
  rewrite (filter_none is_edge_line p)
    by (eapply Forall_impl; [exact Hp|apply prefix_not_edge]).
  rewrite (filter_all is_edge_line e) by exact He'.
  rewrite (filter_none is_edge_line c)
    by (eapply Forall_impl; [exact Hc|apply closing_not_edge]).
  rewrite (filter_none is_closing p)
    by (eapply Forall_impl; [exact Hp|apply prefix_not_closing]).
  rewrite (filter_none is_closing e)
    by (eapply Forall_impl; [exact He'|apply edge_not_closing]).
  rewrite (filter_all is_closing c) by exact Hc.
  rewrite !app_nil_r. cbn [app].
  rewrite (sorted_id line_lt e) by exact Hs.
  rewrite option_list_last_short by exact Hlen. reflexivity.
Qed.

(** X6.  A text whose lines are in order already comes back with the same
    lines, joined by line feeds. *)
Theorem reorder_ordered_text_unchanged text :
  in_order (Py.splitlines text) ->
  _reorder_statespace_dot text = Ok (Py.join nl (Py.splitlines text)).
Proof. intros H. rewrite reorder_ok, (canon_in_order _ H). reflexivity. Qed.

Lemma reorder_ordered_text_unchanged_witness :
  in_order (Py.splitlines sample_dot_ordered) /\
  _reorder_statespace_dot sample_dot_ordered =
    Ok (Py.join nl (Py.splitlines sample_dot_ordered)).
Proof.
  assert (in_order (Py.splitlines sample_dot_ordered)) as H.
  { exists [L "digraph test {"],
      [edge_text "0 0" "0 0"; edge_text "0 1" "1 1";
       edge_text "1 0" "0 1"; edge_text "1 1" "0 0"], [L "}"].
    split; [vm_compute; reflexivity|].
    split; [repeat constructor; apply (bool_decide_unpack _); vm_compute; exact I|].
    split; [repeat constructor; apply (bool_decide_unpack _); vm_compute; exact I|].
    split; [repeat constructor; vm_compute; reflexivity|].
    split; [repeat constructor; vm_compute; reflexivity|simpl; lia]. }
  split; [exact H|]. exact (reorder_ordered_text_unchanged sample_dot_ordered H).
Defined.

(** * Further properties of the dependency extractor *)

(** X7.  The dependency extractor never raises: a line that matches the
    pattern of an assignment holds an [=], so that [split("=", 1)] has a
    second part, and the label formatter always returns. *)
Theorem build_dependency_dot_never_raises text :
  exists g out, dependency_graph text = Ok g /\ build_dependency_dot text = Ok out.
Proof.
  destruct (build_dependency_dot_spec text) as (g & E & Eb). eauto.
Qed.

(** X8.  There is an edge from [u] to [v] exactly when some equation line
    has the target [u] and the Variable [v], other than [u], between word
    boundaries in its right-hand side: edges go from the variable defined to
    the variables read. *)
Theorem dependency_edges_spec text :
  exists g,
    dependency_graph text = Ok g /\
    forall u v, (u, v) ∈ edges g <->
      exists line rhs,
        line ∈ Py.splitlines text /\
        equation_line (Py.strip line) u rhs /\
        var_occurs rhs v /\ v <> u.
Proof.
  destruct (dependency_graph_spec text) as (g & E & _ & Hd).
  exists g. split; [exact E|]. intros u v. rewrite Hd. unfold depends.
  split; intros (line & rhs & Hl & He & H & Hne); exists line, rhs;
    (split; [exact Hl|split; [exact He|split; [|exact Hne]]]);
    [rewrite <- findall_var_iff|rewrite findall_var_iff]; exact H.
Qed.

Lemma graph_edges_between_nodes text g u v :
  dependency_graph text = Ok g -> (u, v) ∈ edges g -> u ∈ nodes g /\ v ∈ nodes g.
Proof.
  intros E Hin. destruct (dependency_graph_spec text) as (g' & E' & Hv & Hd).
  rewrite E in E'. injection E' as <-.
  apply Hd in Hin as (line & rhs & Hl & He & H & _).
  split; apply Hv; exists line, u, rhs; auto.
Qed.

(** X9.  The two ends of every edge are nodes. *)
Theorem dependency_edges_between_nodes text :
  exists g,
    dependency_graph text = Ok g /\
    forall u v, (u, v) ∈ edges g -> u ∈ nodes g /\ v ∈ nodes g.
Proof.
  destruct (dependency_graph_spec text) as (g & E & _).
  exists g. split; [exact E|]. intros u v. apply (graph_edges_between_nodes text), E.
Qed.

Lemma variable_no_quote v : is_variable v -> dq ∉ v.
Proof.
  intros (ds & -> & _ & Hd). apply not_elem_of_cons. split; [discriminate|].
  eapply all_not_elem; [exact Hd|reflexivity].
Qed.

(** X10.  Every node is a Variable, [x] and decimal digits; no node name
    holds a double quote, so that the quoted names of the output are never
    cut short. *)
Theorem dependency_nodes_are_variables text :
  exists g,
    dependency_graph text = Ok g /\
    forall v, v ∈ nodes g -> is_variable v /\ dq ∉ v.
Proof.
  destruct (dependency_graph_spec text) as (g & E & Hv & _).
  exists g. split; [exact E|]. intros v Hin.
  assert (is_variable v) as H.
  { apply Hv in Hin as (line & target & rhs & _ & He & [->|H]).
    - destruct He as (_ & _ & _ & _ & H & _). exact H.
    - apply findall_var_iff in H as (_ & _ & _ & H & _). exact H. }
  split; [exact H|apply variable_no_quote, H].
Qed.

(** In a list without repetition, in order for a total order, every element
    is smaller than those after it. *)
Lemma ordered_strict {A} (lt : A -> A -> bool) l :
  (forall a b, same_rank lt a b -> a = b) ->
  StronglySorted (ordered lt) l -> NoDup l ->
  StronglySorted (fun a b => lt a b = true) l.
Proof.
  intros Htot Hs. induction Hs as [|a l Hs IH Ha]; intros Hn; [constructor|].
  apply NoDup_cons in Hn as [Hin Hn]. constructor; [apply IH, Hn|].
  rewrite Forall_forall in *. intros b Hb. specialize (Ha _ Hb).
  destruct (lt a b) eqn:E; [reflexivity|exfalso].
  apply Hin. rewrite (Htot a b); [exact Hb|]. split; assumption.
Qed.

Lemma sorted_elements_strict `{Countable A} (lt : A -> A -> bool) (s : gset A) :
  (forall a b, lt a b = true -> lt b a = false) ->
  (forall a b c, lt b a = false -> lt c b = false -> lt c a = false) ->
  (forall a b, same_rank lt a b -> a = b) ->
  StronglySorted (fun a b => lt a b = true) (Py.sorted lt (elements s)) /\
  forall x, x ∈ Py.sorted lt (elements s) <-> x ∈ s.
Proof.
  intros Ha Hn Ht. split.
  - apply ordered_strict; [exact Ht|apply sorted_ordered; assumption|].
    rewrite sorted_perm. apply NoDup_elements.
  - intros x. rewrite sorted_perm. apply elem_of_elements.
Qed.

(** X11.  The text returned is empty, when there is no node, or made of the
    four lines of the header, one declaration for each node in strictly
    ascending order of the names, one line for each edge in strictly
    ascending order of the pairs, and the closing brace. *)
Theorem build_dependency_dot_shape text :
  exists g,
    dependency_graph text = Ok g /\
    ((nodes g = ∅ /\ edges g = ∅ /\ build_dependency_dot text = Ok []) \/
     exists ns es,
       build_dependency_dot text =
         Ok (Py.join nl (header ++ map node_text ns ++ map edge_line es ++ [L "}"])) /\
       StronglySorted (fun a b => Py.str_lt a b = true) ns /\
       (forall v, v ∈ ns <-> v ∈ nodes g) /\
       StronglySorted (fun a b => pair_lt a b = true) es /\
       (forall e, e ∈ es <-> e ∈ edges g)).
Proof.
  destruct (build_dependency_dot_spec text) as (g & E & Eb).
  pose proof (graph_edges_between_nodes text g) as Hends.
  exists g. split; [exact E|].
  destruct (decide (nodes g = ∅)) as [Hn|Hn].
  - left. assert (edges g = ∅) as He.
    { apply elem_of_equiv_empty_L. intros [u v] Hin.
      apply (Hends _ _ E) in Hin as [Hu _]. rewrite Hn in Hu.
      apply elem_of_empty in Hu. exact Hu. }
    rewrite Eb, Hn, He. auto.
  - right. exists (Py.sorted Py.str_lt (elements (nodes g))),
      (Py.sorted pair_lt (elements (edges g))).
    rewrite Eb, (bool_decide_eq_false_2 (nodes g = ∅)) by exact Hn.
    rewrite andb_false_r.
    destruct (sorted_elements_strict Py.str_lt (nodes g)
                str_lt_asym str_lt_negtrans str_lt_total) as [H1 H2].
    destruct (sorted_elements_strict pair_lt (edges g)
                pair_lt_asym pair_lt_negtrans pair_lt_total) as [H3 H4].
    auto.
Qed.

(** X12.  The text does not depend on the order in which the two sets are
    enumerated: sorting any enumeration of the nodes and of the edges gives
    the text returned. *)
Theorem build_dependency_dot_any_enumeration text g
    (ns : list str) (es : list (str * str)) :
  dependency_graph text = Ok g ->
  nodes g <> ∅ ->
  ns ≡ₚ elements (nodes g) -> es ≡ₚ elements (edges g) ->
  build_dependency_dot text =
    Ok (Py.join nl
          (header ++ map node_text (Py.sorted Py.str_lt ns)
             ++ map edge_line (Py.sorted pair_lt es) ++ [L "}"])).
Proof.
  intros E Hne Hn He.
  destruct (build_dependency_dot_spec text) as (g' & E' & Eb).
  rewrite E in E'. injection E' as <-.
  rewrite Eb, (bool_decide_eq_false_2 (nodes g = ∅)) by exact Hne.
  rewrite andb_false_r, (graph_text_enumeration g ns es Hn He). reflexivity.
Qed.

Lemma build_dependency_dot_any_enumeration_witness :
  build_dependency_dot example_system =
    Ok (Py.join nl
          (header
             ++ map node_text (Py.sorted Py.str_lt [L "x2"; L "x3"; L "x1"])
             ++ map edge_line
                  (Py.sorted pair_lt
                     [(L "x3", L "x1"); (L "x1", L "x2"); (L "x2", L "x3");
                      (L "x3", L "x2"); (L "x2", L "x1")])
             ++ [L "}"])).
Proof.
  apply (build_dependency_dot_any_enumeration example_system
           (Graph {[ L "x1"; L "x2"; L "x3" ]}
                  {[ (L "x1", L "x2"); (L "x2", L "x1"); (L "x2", L "x3");
                     (L "x3", L "x2"); (L "x3", L "x1") ]})).
  - vm_compute. reflexivity.
  - apply (bool_decide_unpack _). vm_compute. exact I.
  - apply (bool_decide_unpack _). vm_compute. exact I.
  - apply (bool_decide_unpack _). vm_compute. exact I.
Defined.

Lemma same_lines_same_graph l1 l2 g1 g2 :
  (forall l : str, l ∈ l1 <-> l ∈ l2) ->
  scan_lines (Graph ∅ ∅) l1 = Ok g1 -> scan_lines (Graph ∅ ∅) l2 = Ok g2 ->
  g1 = g2.
Proof.
  intros Hl E1 E2.
  destruct (scan_lines_spec l1 (Graph ∅ ∅)) as (g1' & E1' & Hv1 & Hd1).
  destruct (scan_lines_spec l2 (Graph ∅ ∅)) as (g2' & E2' & Hv2 & Hd2).
  rewrite E1 in E1'. injection E1' as <-. rewrite E2 in E2'. injection E2' as <-.
  assert (forall v, names l1 v <-> names l2 v) as Hn.
  { intros v. unfold names. split; intros (l & t & r & H & H'); exists l, t, r;
      (split; [apply Hl, H|exact H']). }
  assert (forall u v, depends l1 u v <-> depends l2 u v) as Hdp.
  { intros u v. unfold depends. split; intros (l & r & H & H'); exists l, r;
      (split; [apply Hl, H|exact H']). }
  destruct g1 as [n1 e1], g2 as [n2 e2]. cbn [nodes edges] in *. f_equal.
  - apply set_eq. intros v. rewrite Hv1, Hv2, Hn. tauto.
  - apply set_eq. intros [u v]. rewrite Hd1, Hd2, Hdp. tauto.
Qed.

(** X13.  Two texts with the same set of lines give the same graph and the
    same text: neither the order of the lines nor a line said twice
    matters. *)
Theorem build_dependency_dot_line_set text1 text2 :
  list_to_set (Py.splitlines text1) =@{gset str} list_to_set (Py.splitlines text2) ->
  dependency_graph text1 = dependency_graph text2 /\
  build_dependency_dot text1 = build_dependency_dot text2.
Proof.
  intros H.
  assert (dependency_graph text1 = dependency_graph text2) as E.
  { destruct (dependency_graph_spec text1) as (g1 & E1 & _).
    destruct (dependency_graph_spec text2) as (g2 & E2 & _).
    rewrite E1, E2. f_equal.
    apply (same_lines_same_graph (Py.splitlines text1) (Py.splitlines text2));
      [|exact E1|exact E2].
    intros l. rewrite <- !(elem_of_list_to_set (C := gset str)), H. reflexivity. }
  split; [exact E|]. unfold build_dependency_dot. rewrite E. reflexivity.
Qed.

Lemma build_dependency_dot_line_set_witness :
  dependency_graph example_system = dependency_graph example_system_shuffled /\
  build_dependency_dot example_system = build_dependency_dot example_system_shuffled.
Proof.
  apply build_dependency_dot_line_set. vm_compute. reflexivity.
Defined.

(** ** Two systems, one after the other *)

(** The lines of [t1], a line feed and [t2]: those of [t1], an empty line
    when [t1] is empty or ends with a line boundary other than CR, and those
    of [t2]. *)
Lemma splitlines_from_concat t1 : forall cur t2,
  exists x,
    Py.splitlines_from cur (t1 ++ nl ++ t2) = x ++ Py.splitlines t2 /\
    (x = Py.splitlines_from cur t1 \/ x = Py.splitlines_from cur t1 ++ [[]]).
Proof.
  remember (length t1) as n eqn:En. revert t1 En.
  induction (lt_wf n) as [n _ IH]. intros t1 -> cur t2.
  assert (forall t cur', (length t < length t1)%nat ->
            exists x, Py.splitlines_from cur' (t ++ nl ++ t2) = x ++ Py.splitlines t2 /\
              (x = Py.splitlines_from cur' t \/ x = Py.splitlines_from cur' t ++ [[]])) as IH'.
  { intros t cur' Hl. eapply (IH (length t)); [exact Hl|reflexivity]. }
  clear IH. destruct t1 as [|c t1].
  - destruct cur as [|a cur].
    + exists [[]]. split; [reflexivity|]. right. reflexivity.
    + exists [rev (a :: cur)]. split; [reflexivity|]. left. reflexivity.
  - cbn [app Py.splitlines_from]. destruct (c =? 13) eqn:Ec.
    + destruct t1 as [|d t1].
      * exists [rev cur]. split; [reflexivity|]. left. reflexivity.
      * cbn [app]. destruct (d =? 10).
        -- destruct (IH' t1 [] ltac:(simpl; lia)) as (x & -> & Hx).
           exists (rev cur :: x). split; [reflexivity|].
           destruct Hx as [->| ->]; [left|right]; reflexivity.
        -- destruct (IH' (d :: t1) [] ltac:(simpl; lia)) as (x & E & Hx).
           cbn [app] in E. rewrite E.
           exists (rev cur :: x). split; [reflexivity|].
           destruct Hx as [->| ->]; [left|right]; reflexivity.
    + destruct (islinebreak c).
      * destruct (IH' t1 [] ltac:(simpl; lia)) as (x & -> & Hx).
        exists (rev cur :: x). split; [reflexivity|].
        destruct Hx as [->| ->]; [left|right]; reflexivity.
      * destruct (IH' t1 (c :: cur) ltac:(simpl; lia)) as (x & -> & Hx).
        exists x. split; [reflexivity|exact Hx].
Qed.

Lemma splitlines_concat_elem t1 t2 l :
  l ∈ Py.splitlines (t1 ++ nl ++ t2) <->
  l ∈ Py.splitlines t1 \/ l ∈ Py.splitlines t2 \/
  (l = [] /\ l ∈ Py.splitlines (t1 ++ nl ++ t2)).
Proof.
  destruct (splitlines_from_concat t1 [] t2) as (x & E & Hx).
  change (Py.splitlines_from [] (t1 ++ nl ++ t2))
    with (Py.splitlines (t1 ++ nl ++ t2)) in E.
  change (Py.splitlines_from [] t1) with (Py.splitlines t1) in Hx.
  rewrite E, elem_of_app. destruct Hx as [->| ->]; [tauto|].
  rewrite elem_of_app, list_elem_of_singleton. tauto.
Qed.

Lemma empty_line_no_equation target rhs : ~ equation_line (Py.strip []) target rhs.
Proof.
  intros (ws & ws' & E & _ & (ds & -> & _) & _).
  change (Py.strip []) with (@nil N) in E. destruct ws; discriminate.
Qed.

(** X14.  The graph of two systems written one after the other, a line feed
    between them, has the nodes of both and the edges of both. *)
Theorem dependency_graph_concat text1 text2 :
  exists g1 g2 g,
    dependency_graph text1 = Ok g1 /\ dependency_graph text2 = Ok g2 /\
    dependency_graph (text1 ++ nl ++ text2) = Ok g /\
    nodes g = nodes g1 ∪ nodes g2 /\ edges g = edges g1 ∪ edges g2.
Proof.
  destruct (dependency_graph_spec text1) as (g1 & E1 & Hv1 & Hd1).
  destruct (dependency_graph_spec text2) as (g2 & E2 & Hv2 & Hd2).
  destruct (dependency_graph_spec (text1 ++ nl ++ text2)) as (g & E & Hv & Hd).
  exists g1, g2, g. repeat (split; [assumption|]). split.
  - apply set_eq. intros v. rewrite elem_of_union, Hv, Hv1, Hv2. unfold names. split.
    + intros (l & t & r & Hl & He & H). apply splitlines_concat_elem in Hl.
      destruct Hl as [Hl|[Hl|[-> _]]].
      * left. exists l, t, r. auto.
      * right. exists l, t, r. auto.
      * destruct (empty_line_no_equation _ _ He).
    + intros [(l & t & r & Hl & H)|(l & t & r & Hl & H)]; exists l, t, r;
        (split; [apply splitlines_concat_elem; tauto|exact H]).
  - apply set_eq. intros [u v]. rewrite elem_of_union, Hd, Hd1, Hd2. unfold depends. split.
    + intros (l & r & Hl & He & H). apply splitlines_concat_elem in Hl.
      destruct Hl as [Hl|[Hl|[-> _]]].
      * left. exists l, r. auto.
      * right. exists l, r. auto.
      * destruct (empty_line_no_equation _ _ He).
    + intros [(l & r & Hl & H)|(l & r & Hl & H)]; exists l, r;
        (split; [apply splitlines_concat_elem; tauto|exact H]).
Qed.

(** * Further properties of the label formatter *)

Lemma glyph_not_decimal d : ascii_digit d = true -> isdecimal (glyph d) = false.
Proof.
  intros H. apply (in_ranges_apart [(8320, 8329)] decimal_ranges).
  - vm_compute. reflexivity.
  - apply in_ranges_true. exists 8320, 8329. split; [left; reflexivity|].
    unfold ascii_digit, glyph in *. apply andb_true_iff in H as [H1 H2].
    apply N.leb_le in H1, H2. lia.
Qed.

Lemma glyph_inj d1 d2 :
  ascii_digit d1 = true -> ascii_digit d2 = true -> glyph d1 = glyph d2 -> d1 = d2.
Proof.
  unfold ascii_digit, glyph. intros H1 H2 E.
  apply andb_true_iff in H1 as [H1 _], H2 as [H2 _]. apply N.leb_le in H1, H2. lia.
Qed.

Lemma subscript_digit_inj d1 d2 :
  isdecimal d1 = true -> isdecimal d2 = true ->
  subscript_digit d1 = subscript_digit d2 -> d1 = d2.
Proof.
  unfold subscript_digit. intros H1 H2.
  destruct (ascii_digit d1) eqn:A1, (ascii_digit d2) eqn:A2; intros E.
  - apply glyph_inj; assumption.
  - rewrite <- E, glyph_not_decimal in H2 by exact A1. discriminate.
  - rewrite E, glyph_not_decimal in H1 by exact A2. discriminate.
  - exact E.
Qed.

Lemma map_subscript_inj ds1 : forall ds2,
  all isdecimal ds1 -> all isdecimal ds2 ->
  map subscript_digit ds1 = map subscript_digit ds2 -> ds1 = ds2.
Proof.
  induction ds1 as [|d1 ds1 IH]; intros [|d2 ds2] H1 H2 E; try discriminate.
  - reflexivity.
  - apply Forall_cons in H1 as [Hd1 H1], H2 as [Hd2 H2]. injection E as E E'.
    f_equal; [apply subscript_digit_inj; assumption|apply IH; assumption].
Qed.

(** X15.  Two different Variables never get the same label. *)
Theorem subscript_label_injective v1 v2 :
  is_variable v1 -> is_variable v2 ->
  _subscript_label v1 = _subscript_label v2 -> v1 = v2.
Proof.
  intros (ds1 & -> & Hn1 & Hd1) (ds2 & -> & Hn2 & Hd2).
  rewrite !subscript_label_variable by assumption.
  intros [= E]. f_equal. apply map_subscript_inj; assumption.
Qed.

Lemma subscript_label_injective_witness :
  is_variable (L "x12") /\ is_variable [120; 49; 1634] /\
  (_subscript_label (L "x12") = _subscript_label [120; 49; 1634] ->
   L "x12" = [120; 49; 1634]).
Proof.
  assert (is_variable (L "x12")) as H1.
  { exists (L "12"). split; [reflexivity|]. split; [discriminate|].
    repeat constructor. }
  assert (is_variable [120; 49; 1634]) as H2.
  { exists [49; 1634]. split; [reflexivity|]. split; [discriminate|].
    repeat constructor. }
  split; [exact H1|]. split; [exact H2|].
  exact (subscript_label_injective _ _ H1 H2).
Defined.

Lemma subscript_digit_fixed d :
  isdecimal (subscript_digit d) = true ->
  subscript_digit (subscript_digit d) = subscript_digit d.
Proof.
  unfold subscript_digit at 1 3. destruct (ascii_digit d) eqn:A.
  - rewrite glyph_not_decimal by exact A. discriminate.
  - intros _. unfold subscript_digit. rewrite A. reflexivity.
Qed.

(** X16.  A label has the length of the name, and formatting a label again
    changes nothing. *)
Theorem subscript_label_idempotent s :
  exists out,
    _subscript_label s = Ok out /\
    length out = length s /\
    _subscript_label out = Ok out.
Proof.
  destruct (fullmatch_label_cases s) as [(ds & -> & Hn & Hd)|H].
  - exists (ch "x" :: map subscript_digit ds).
    split; [apply subscript_label_variable; assumption|].
    split; [cbn [length]; rewrite length_map; reflexivity|].
    destruct (fullmatch_label_cases (ch "x" :: map subscript_digit ds))
      as [(ds' & [= <-] & Hn' & Hd')|H'].
    + rewrite subscript_label_variable by assumption. do 2 f_equal.
      clear Hn Hn' Hd. induction ds as [|d ds IH]; [reflexivity|].
      cbn [map] in *. apply Forall_cons in Hd' as [H1 H2].
      rewrite subscript_digit_fixed by exact H1. f_equal. apply IH, H2.
    + apply subscript_label_other, H'.
  - exists s. rewrite subscript_label_other by exact H. auto.
Qed.

(** * The surroundings *)

Lemma protocol_nil R : protocol R [].
Proof. intros [|x pre] e post H; discriminate H. Qed.

Lemma protocol_snoc R h e : protocol R h -> R (last h) e -> protocol R (h ++ [e]).
Proof.
  intros Hh He pre e' post H.
  destruct post as [|x post _] using rev_ind.
  - apply app_inj_tail in H as [-> ->]. exact He.
  - change (pre ++ e' :: post ++ [x]) with (pre ++ (e' :: post) ++ [x]) in H.
    rewrite app_assoc in H. apply app_inj_tail in H as [H _].
    apply (Hh pre e' post H).
Qed.

Lemma protocol_event R h e : protocol R h -> e ∈ h -> exists prev, R prev e.
Proof.
  intros Hh He. apply list_elem_of_split in He as (pre & post & ->).
  exists (last pre). apply (Hh pre e post eq_refl).
Qed.

Lemma protocol_Forall R (P : event -> Prop) h :
  protocol R h -> (forall prev e, R prev e -> P e) -> Forall P h.
Proof.
  intros Hh HP. apply Forall_forall. intros e He.
  destruct (protocol_event R h e Hh He) as (prev & Hr). exact (HP prev e Hr).
Qed.

Lemma last_eq_snoc {A} (l : list A) x : last l = Some x -> exists l', l = l' ++ [x].
Proof. apply last_Some. Qed.

Section Surroundings.
Context {W E : Type} `{!OS W E}.
Variable R : option event -> event -> Prop.

Lemma triple_ret {A} (P : option event -> Prop) (a : A) :
  triple R P (ret (W := W) (E := E) a) (fun prev a' => P prev /\ a' = a).
Proof.
  intros h w Hh HP. cbn. rewrite app_nil_r. auto.
Qed.

Lemma triple_conseq {A} (P P' : option event -> Prop) (Q Q' : option event -> A -> Prop)
    (m : io W E A) :
  (forall prev, P' prev -> P prev) ->
  triple R P m Q ->
  (forall prev a, Q prev a -> Q' prev a) ->
  triple R P' m Q'.
Proof.
  intros HP Hm HQ h w Hh Hl. destruct (Hm h w Hh (HP _ Hl)) as [H1 H2].
  split; [exact H1|]. destruct (answer_of (m w)); auto.
Qed.

Lemma triple_bind {A B} (P : option event -> Prop) (Q : option event -> A -> Prop)
    (S : option event -> B -> Prop) (m : io W E A) (k : A -> io W E B) :
  triple R P m Q ->
  (forall a, triple R (fun prev => Q prev a) (k a) S) ->
  triple R P (iobind m k) S.
Proof.
  intros Hm Hk h w Hh HP. unfold iobind, trace_of, answer_of.
  specialize (Hm h w Hh HP). unfold trace_of, answer_of in Hm.
  destruct (m w) as [[w1 t1] [a|e]]; cbn [fst snd] in *.
  - destruct Hm as [Ht Ha]. specialize (Hk a (h ++ t1) w1 Ht Ha).
    unfold trace_of, answer_of in Hk.
    destruct (k a w1) as [[w2 t2] r]; cbn [fst snd] in *.
    rewrite app_assoc. exact Hk.
  - destruct Hm as [Ht _]. split; [exact Ht|exact I].
Qed.

Lemma triple_perform {A} (P : option event -> Prop) (ev : answer E A -> event)
    (op : W -> W * answer E A) :
  (forall prev r, P prev -> R prev (ev r)) ->
  triple R P (perform ev op) (fun prev a => prev = Some (ev (Returned a))).
Proof.
  intros H h w Hh HP. unfold perform, trace_of, answer_of.
  destruct (op w) as [w' r]; cbn [fst snd].
  split; [apply protocol_snoc; auto|].
  destruct r; [apply last_snoc|exact I].
Qed.

Lemma triple_lift {A} (P : option event -> Prop) (r : result A) :
  triple R P (lift r) (fun prev a => P prev /\ r = Ok a).
Proof.
  intros h w Hh HP. destruct r as [a|e]; cbn; rewrite app_nil_r; auto.
Qed.

(** What [with_tempdir] adds to the events of the block. *)
Lemma with_tempdir_trace {A} (body : str -> io W E A) w :
  trace_of (with_tempdir body w) = [] \/
  exists dir w1,
    trace_of (with_tempdir body w) =
      EMkdtemp dir :: trace_of (body dir w1) ++ [ERmtree dir].
Proof.
  unfold with_tempdir, trace_of.
  destruct (os_mkdtemp w) as [w1 [d|e]]; [|left; reflexivity].
  right. exists d, w1.
  destruct (body d w1) as [[w2 t] r]. destruct (os_rmtree d w2) as [w3 [u|e]]; reflexivity.
Qed.

Lemma with_tempdir_answer {A} (Q : A -> Prop) (body : str -> io W E A) w :
  (forall d w1, match answer_of (body d w1) with Returned a => Q a | Raised _ => True end) ->
  match answer_of (with_tempdir body w) with Returned a => Q a | Raised _ => True end.
Proof.
  intros H. unfold with_tempdir, answer_of.
  destruct (os_mkdtemp w) as [w1 [d|e]]; [|exact I].
  specialize (H d w1). unfold answer_of in H.
  destruct (body d w1) as [[w2 t] r]. destruct (os_rmtree d w2) as [w3 [u|e]]; [exact H|exact I].
Qed.
End Surroundings.

(** * The computation *)

Section Rules.
Context {W E : Type} `{!OS W E}.
Variable R : option event -> event -> Prop.

Lemma triple_ret' {A} (P : option event -> Prop) (Q : option event -> A -> Prop) a :
  (forall prev, P prev -> Q prev a) -> triple R P (ret (W := W) (E := E) a) Q.
Proof.
  intros H. eapply triple_conseq; [|apply triple_ret|].
  - intros prev HP. exact HP.
  - intros prev a' [HP ->]. apply H, HP.
Qed.

Lemma triple_perform' {A} (P : option event -> Prop) (Q : option event -> A -> Prop)
    (ev : answer E A -> event) (op : W -> W * answer E A) :
  (forall prev r, P prev -> R prev (ev r)) ->
  (forall a, Q (Some (ev (Returned a))) a) ->
  triple R P (perform ev op) Q.
Proof.
  intros H1 H2. eapply triple_conseq; [|apply triple_perform, H1|].
  - intros prev HP. exact HP.
  - intros prev a ->. apply H2.
Qed.

Lemma triple_lift_bind {A B} (P : option event -> Prop) (Q : option event -> B -> Prop)
    (r : result A) (k : A -> io W E B) :
  (forall a, r = Ok a -> triple R P (k a) Q) ->
  triple R P (iobind (lift r) k) Q.
Proof.
  intros H. eapply triple_bind; [apply triple_lift|].
  intros a h w Hh [HP Hr]. apply (H a Hr h w Hh HP).
Qed.

Lemma triple_pure {A} (P P' : option event -> Prop) (F : Prop)
    (Q : option event -> A -> Prop) (m : io W E A) :
  (forall prev, P' prev -> P prev /\ F) ->
  (F -> triple R P m Q) ->
  triple R P' m Q.
Proof.
  intros H1 H2 h w Hh HP. destruct (H1 _ HP) as [HP' HF]. apply (H2 HF h w Hh HP').
Qed.

Lemma render_svg_triple (P : option event -> Prop) dir dot_name svg_name :
  (forall prev code, P prev ->
     R prev (ERun (dot_command (file dir svg_name) (file dir dot_name)) (Path dir) code)) ->
  (forall found,
     R (Some (ERun (dot_command (file dir svg_name) (file dir dot_name))
                   (Path dir) (Some 0%Z)))
       (EExists (file dir svg_name) found)) ->
  R (Some (EExists (file dir svg_name) true)) (ERead (file dir svg_name)) ->
  triple R P (render_svg (Path dir) (file dir dot_name) (file dir svg_name))
    (fun prev _ => after_render dir dot_name svg_name prev).
Proof.
  intros H1 H2 H3. unfold render_svg.
  eapply triple_bind.
  { apply triple_perform. intros prev r HP. apply H1, HP. }
  intros proc. destruct (bool_decide (fst (fst proc) = 0%Z)) eqn:Hrc.
  - apply bool_decide_eq_true in Hrc.
    eapply triple_bind.
    { apply triple_perform. intros prev r HP. known HP. rewrite Hrc. apply H2. }
    intros [|].
    + apply triple_perform'.
      * intros prev r HP. known HP. apply H3.
      * intros a. right. right. reflexivity.
    + apply triple_ret'. intros prev HP. known HP. right. left. reflexivity.
  - apply bool_decide_eq_false in Hrc.
    apply triple_ret'. intros prev HP. known HP. left.
    exists (fst (fst proc)). split; [exact Hrc|reflexivity].
Qed.
End Rules.

Section Computation.
Context {W E : Type} `{!OS W E}.
Variables system_text dir : str.

Lemma statespace_part_triple :
  triple (next system_text dir) (after_simfds dir) (statespace_part (Path dir))
    (fun prev ss =>
       after_statespace dir prev /\
       ((snd ss = [] /\ fst ss = []) \/
        exists raw_dot, _reorder_statespace_dot raw_dot = Ok (snd ss))).
Proof.
  unfold statespace_part. lazy zeta.
  eapply triple_bind.
  { apply triple_perform. intros prev r HP. apply N_exists_statespace, HP. }
  intros [|].
  - eapply triple_bind.
    { apply triple_perform. intros prev r HP. known HP.
      apply (N_read _ _ "system-statespace.dot"). member. }
    intros raw_dot. apply triple_lift_bind. intros text Htext.
    eapply triple_bind.
    { apply (render_svg_triple _ _ dir "system-statespace.dot" "system-statespace.svg").
      - intros prev code HP. known HP. apply N_dot_statespace.
      - intros found.
        apply (N_exists_image _ _ "system-statespace.dot" "system-statespace.svg").
        member.
      - apply (N_read _ _ "system-statespace.svg"). member. }
    intros svg. apply triple_ret'. intros prev HP. split.
    + right. exact HP.
    + right. exists raw_dot. exact Htext.
  - apply triple_ret'. intros prev HP. known HP. split.
    + left. reflexivity.
    + left. split; reflexivity.
Qed.

Lemma limitcycles_part_triple :
  triple (next system_text dir) (after_statespace dir) (limitcycles_part (Path dir))
    (fun prev _ => after_limitcycles dir prev).
Proof.
  unfold limitcycles_part. lazy zeta.
  eapply triple_bind.
  { apply triple_perform. intros prev r HP. apply N_exists_limitcycles, HP. }
  intros [|].
  - apply triple_perform'.
    + intros prev r HP. known HP. apply (N_read _ _ "system-limitcycles.txt"). member.
    + intros a. right. reflexivity.
  - apply triple_ret'. intros prev HP. known HP. left. reflexivity.
Qed.

Lemma dependency_part_triple :
  triple (next system_text dir) (after_limitcycles dir)
    (dependency_part system_text (Path dir))
    (fun _ svg => svg <> [] ->
                  exists s, s <> [] /\ build_dependency_dot system_text = Ok s).
Proof.
  unfold dependency_part. apply triple_lift_bind. intros s Hs.
  destruct s as [|c s].
  { apply triple_ret'. intros prev _ H. destruct H. reflexivity. }
  lazy zeta. eapply triple_bind.
  { apply triple_perform. intros prev r HP.
    apply N_write_dep; [exact HP|discriminate|exact Hs]. }
  intros u. eapply triple_conseq.
  - intros prev HP. exact HP.
  - apply (render_svg_triple _ _ dir "system-dep.dot" "system-dep.svg").
    + intros prev code HP. known HP. apply N_dot_dep; [discriminate|exact Hs].
    + intros found. apply (N_exists_image _ _ "system-dep.dot" "system-dep.svg"). member.
    + apply (N_read _ _ "system-dep.svg"). member.
  - intros prev svg _ _. exists (c :: s). split; [discriminate|exact Hs].
Qed.

Lemma in_tempdir_triple :
  triple (next system_text dir) (fun prev => prev = None) (in_tempdir system_text dir)
    (fun _ a => from_files system_text a).
Proof.
  unfold in_tempdir. lazy zeta.
  eapply triple_bind.
  { apply triple_perform. intros prev r HP. known HP. apply N_write_pds. }
  intros u.
  eapply triple_bind.
  { apply triple_perform. intros prev r HP. known HP. apply N_exists_simfds. }
  intros there.
  eapply triple_bind with (Q := fun prev _ => after_simfds dir prev).
  { destruct there.
    - eapply triple_bind.
      { apply triple_perform. intros prev r HP. known HP. apply N_run_simfds. }
      intros proc. apply triple_ret'. intros prev HP. known HP.
      right. exists (fst (fst proc)). reflexivity.
    - apply triple_ret'. intros prev HP. known HP. left. reflexivity. }
  intros u'.
  eapply triple_bind; [apply statespace_part_triple|]. intros ss.
  eapply triple_pure; [intros prev HP; exact HP|]. intros Hss.
  eapply triple_bind; [apply limitcycles_part_triple|]. intros lc.
  eapply triple_bind; [apply dependency_part_triple|]. intros dep.
  apply triple_ret'. intros prev Hdep. split; [exact Hss|exact Hdep].
Qed.
End Computation.

Section Compute.
Context {W E : Type} `{!OS W E}.

Lemma compute_protocol system_text (w : W) :
  trace_of (compute_system_artifacts system_text w) = [] \/
  exists dir body,
    trace_of (compute_system_artifacts system_text w) =
      EMkdtemp dir :: body ++ [ERmtree dir] /\
    protocol (next system_text dir) body.
Proof.
  unfold compute_system_artifacts.
  destruct (with_tempdir_trace (in_tempdir system_text) w) as [H|(dir & w1 & H)];
    [left; exact H|right].
  exists dir, (trace_of (in_tempdir system_text dir w1)). split; [exact H|].
  destruct (in_tempdir_triple system_text dir [] w1 (protocol_nil _) eq_refl) as [Hp _].
  exact Hp.
Qed.

Lemma compute_answer system_text (w : W) :
  match answer_of (compute_system_artifacts system_text w) with
  | Returned a => from_files system_text a
  | Raised _ => True
  end.
Proof.
  apply with_tempdir_answer. intros d w1.
  destruct (in_tempdir_triple system_text d [] w1 (protocol_nil _) eq_refl) as [_ Ha].
  exact Ha.
Qed.
End Compute.

(** * Further properties: the computation and the routes *)

Lemma next_inside {W E} `{!OS W E} system_text dir prev e :
  next system_text dir prev e -> inside dir e.
Proof.
  intros Hn.
  destruct Hn as [| | | | |dot_name svg_name found Hg| |name Hname| | ];
    cbn [inside]; auto.
  - left. exists "system-statespace.dot"%string. split; [member|reflexivity].
  - left. exists svg_name. split; [|reflexivity].
    apply list_elem_of_In in Hg. simpl in Hg.
    destruct Hg as [[= <- <-]|[[= <- <-]|[]]]; member.
  - left. exists "system-limitcycles.txt"%string. split; [member|reflexivity].
  - exists name. split; [assumption|reflexivity].
Qed.

(** X17.  [compute_system_artifacts] creates one temporary directory and
    removes it when it is done, whether it returns or raises; in between it
    looks for and reads only the four files it expects there, writes only
    [system.pds] and [system-dep.dot] there, runs every command there, and
    looks outside for the simFDS binary alone. *)
Theorem compute_stays_in_tempdir {W E} `{!OS W E} (system_text : str) (w : W) :
  trace_of (compute_system_artifacts system_text w) = [] \/
  exists dir body,
    trace_of (compute_system_artifacts system_text w) =
      EMkdtemp dir :: body ++ [ERmtree dir] /\
    Forall (inside dir) body.
Proof.
  destruct (compute_protocol system_text w) as [H|(dir & body & H & Hp)];
    [left; exact H|right].
  exists dir, body. split; [exact H|].
  apply (protocol_Forall _ _ _ Hp). intros prev e. apply next_inside.
Qed.


(** X19.  When [compute_system_artifacts] returns, the state-space text is
    empty, with no image, or what the canonicalizer made of a text; and the
    image of the dependency graph is empty when no line of the system text
    is an equation. *)
Theorem compute_artifacts_from_files {W E} `{!OS W E} (system_text : str) (w : W) :
  match answer_of (compute_system_artifacts system_text w) with
  | Returned a =>
      ((statespace_dot_text a = [] /\ statespace_svg a = []) \/
       exists raw_dot, _reorder_statespace_dot raw_dot = Ok (statespace_dot_text a)) /\
      ((forall line target rhs, line ∈ Py.splitlines system_text ->
          ~ equation_line (Py.strip line) target rhs) ->
       depgraph_svg a = [])
  | Raised _ => True
  end.
Proof.
  pose proof (compute_answer system_text w) as H.
  destruct (answer_of (compute_system_artifacts system_text w)) as [a|e]; [|exact I].
  destruct H as [H1 H2]. split; [exact H1|]. intros Hno.
  destruct (depgraph_svg a) as [|c s] eqn:Es; [reflexivity|exfalso].
  destruct H2 as (s' & Hs' & Hb); [discriminate|].
  apply build_dependency_dot_empty_iff in Hno. congruence.
Qed.

Lemma L_file_inj dir a b : file dir a = file dir b -> L a = L b.
Proof. intros [= H]. exact H. Qed.

(** X22.  A file is read only directly after it was looked for and found,
    and it is one of the four files the program expects; an image is read
    only when, directly before that look, [dot] was run to draw it from its
    graph and returned 0. *)
Theorem compute_reads_checked {W E} `{!OS W E} (system_text : str) (w : W) :
  trace_of (compute_system_artifacts system_text w) = [] \/
  exists dir body,
    trace_of (compute_system_artifacts system_text w) =
      EMkdtemp dir :: body ++ [ERmtree dir] /\
    (forall pre p post,
       body = pre ++ ERead p :: post ->
       (exists name, name ∈ read_files /\ p = file dir name) /\
       last pre = Some (EExists p true)) /\
    (forall pre dot_name svg_name post,
       (dot_name, svg_name) ∈ graphs ->
       body = pre ++ ERead (file dir svg_name) :: post ->
       exists pre',
         pre = pre' ++
               [ERun (dot_command (file dir svg_name) (file dir dot_name))
                     (Path dir) (Some 0%Z);
                EExists (file dir svg_name) true]).
Proof.
  destruct (compute_protocol system_text w) as [H|(dir & body & H & Hp)];
    [left; exact H|right].
  exists dir, body. split; [exact H|].
  assert (Hread : forall pre p post,
             body = pre ++ ERead p :: post ->
             (exists name, name ∈ read_files /\ p = file dir name) /\
             last pre = Some (EExists p true)).
  { intros pre p post Hb. specialize (Hp pre (ERead p) post Hb).
    inversion Hp as [| | | | | | |name Hn| | ]; subst.
    split; [exists name; auto|reflexivity]. }
  split; [exact Hread|].
  intros pre dot_name svg_name post Hg Hb.
  destruct (Hread pre _ post Hb) as [_ Hl].
  apply last_eq_snoc in Hl as (pre1 & ->).
  rewrite <- app_assoc in Hb. cbn [app] in Hb.
  specialize (Hp pre1 _ _ Hb).
  assert (Hcases : (dot_name, svg_name) =
                     ("system-statespace.dot"%string, "system-statespace.svg"%string) \/
                   (dot_name, svg_name) =
                     ("system-dep.dot"%string, "system-dep.svg"%string)).
  { apply list_elem_of_In in Hg. simpl in Hg.
    destruct Hg as [Hg|[Hg|[]]]; [left|right]; symmetry; exact Hg. }
  inversion Hp as [|found Hprev He| |prev found Ha Hprev He|
                   |dot' svg' found Hg' Hprev He|prev found Ha Hprev He| | | ]; subst.
  - destruct Hcases as [[= -> ->]|[= -> ->]]; vm_compute in He; discriminate He.
  - symmetry in Hprev. apply last_eq_snoc in Hprev as (pre2 & ->).
    exists pre2. rewrite <- app_assoc. cbn [app].
    assert (Hd : (dot', svg') = (dot_name, svg_name)).
    { apply list_elem_of_In in Hg'. simpl in Hg'.
      destruct Hg' as [[= <- <-]|[[= <- <-]|[]]];
        destruct Hcases as [[= -> ->]|[= -> ->]];
        first [reflexivity | vm_compute in He; discriminate He]. }
    injection Hd as -> ->. reflexivity.
  - destruct Hcases as [[= -> ->]|[= -> ->]]; vm_compute in He; discriminate He.
Qed.

(** X23.  Every command is run in the temporary directory, and it is one of
    three: simFDS on [system], directly after the binary was looked for and
    found; [dot] on the state space, directly after its file was read; [dot]
    on the dependency graph, directly after its text, which is not empty,
    was written. *)
Theorem compute_commands_guarded {W E} `{!OS W E} (system_text : str) (w : W) :
  trace_of (compute_system_artifacts system_text w) = [] \/
  exists dir body,
    trace_of (compute_system_artifacts system_text w) =
      EMkdtemp dir :: body ++ [ERmtree dir] /\
    forall pre argv cwd code post,
      body = pre ++ ERun argv cwd code :: post ->
      cwd = Path dir /\
      ((argv = simfds_command /\ last pre = Some (EExists SIMFDS_PATH true)) \/
       (argv = dot_command (file dir "system-statespace.svg")
                           (file dir "system-statespace.dot") /\
        last pre = Some (ERead (file dir "system-statespace.dot"))) \/
       (argv = dot_command (file dir "system-dep.svg") (file dir "system-dep.dot") /\
        exists s, s <> [] /\ build_dependency_dot system_text = Ok s /\
                  last pre = Some (EWrite (file dir "system-dep.dot") s))).
Proof.
  destruct (compute_protocol system_text w) as [H|(dir & body & H & Hp)];
    [left; exact H|right].
  exists dir, body. split; [exact H|].
  intros pre argv cwd code post Hb. specialize (Hp pre _ post Hb).
  inversion Hp as [| |code'| |code'| | | | |s code' Hs Hd]; subst;
    (split; [reflexivity|]).
  - left. auto.
  - right. left. auto.
  - right. right. split; [reflexivity|]. exists s. auto.
Qed.

Lemma lstrip_head s c : head (Py.lstrip s) = Some c -> isspace c = false.
Proof.
  induction s as [|d s IH]; [discriminate|]. cbn [Py.lstrip].
  destruct (isspace d) eqn:Hd; [exact IH|]. intros [= <-]. exact Hd.
Qed.

Lemma head_app_nonempty {A} (l1 l2 : list A) : l1 <> [] -> head (l1 ++ l2) = head l1.
Proof. destruct l1; [congruence|reflexivity]. Qed.

Lemma last_rev {A} (l : list A) : last (rev l) = head l.
Proof.
  destruct l as [|x l]; [reflexivity|]. cbn [rev head]. apply last_snoc.
Qed.

Lemma rstrip_prefix s : exists ws, s = Py.rstrip s ++ ws.
Proof.
  unfold Py.rstrip. destruct (lstrip_split (rev s)) as (ws & E & _).
  exists (rev ws). rewrite <- rev_app_distr, <- E, rev_involutive. reflexivity.
Qed.

Lemma strip_trimmed s : trimmed (Py.strip s).
Proof.
  intros c [H|H].
  - unfold Py.strip in H. destruct (rstrip_prefix (Py.lstrip s)) as (ws & E).
    destruct (Py.rstrip (Py.lstrip s)) as [|d r] eqn:Er; [discriminate|].
    apply (lstrip_head s). rewrite E. exact H.
  - unfold Py.strip, Py.rstrip in H. rewrite last_rev in H.
    apply lstrip_head in H. exact H.
Qed.

Lemma lstrip_blank s : all isspace s -> Py.lstrip s = [].
Proof.
  induction 1 as [|c s Hc _ IH]; [reflexivity|]. cbn [Py.lstrip]. rewrite Hc. exact IH.
Qed.

Lemma strip_blank s : all isspace s -> Py.strip s = [].
Proof. intros H. unfold Py.strip. rewrite lstrip_blank by exact H. reflexivity. Qed.

Lemma default_text_nonempty : DEFAULT_SYSTEM_TEXT <> [].
Proof. discriminate. Qed.

(** X20.  A POST to [index] stores in the session the text it computes with
    and shows: the submitted text without the whitespace at its ends, or the
    default text when nothing else is left.  The text stored is never
    empty. *)
Theorem index_post_stores_text {W E} `{!OS W E}
    (fields session : gmap str str) (w : W) :
  match answer_of (index (Request (L "POST") fields) session w) with
  | Returned (resp, session') =>
      exists text a,
        session' = <[L "system_text" := text]> session /\
        answer_of (compute_system_artifacts text w) = Returned a /\
        resp = index_page text a /\
        text <> [] /\
        ((text = Py.strip (default [] (fields !! L "system_text")) /\ trimmed text) \/
         (text = DEFAULT_SYSTEM_TEXT /\
          Py.strip (default [] (fields !! L "system_text")) = [])) /\
        (all isspace (default [] (fields !! L "system_text")) ->
         text = DEFAULT_SYSTEM_TEXT)
  | Raised _ => True
  end.
Proof.
  unfold index. cbn [method form].
  rewrite bool_decide_eq_true_2 by reflexivity.
  set (submitted := default [] (fields !! L "system_text")).
  set (text := match Py.strip submitted with [] => DEFAULT_SYSTEM_TEXT | s => s end).
  unfold iobind, answer_of.
  destruct (compute_system_artifacts text w) as [[w1 t1] [a|e]] eqn:Ec; [|exact I].
  cbn [ret fst snd]. exists text, a.
  split; [reflexivity|]. split; [rewrite Ec; reflexivity|]. split; [reflexivity|].
  subst text. destruct (Py.strip submitted) as [|c s] eqn:Es.
  - split; [apply default_text_nonempty|]. split; [right; auto|auto].
  - split; [discriminate|]. split.
    + left. split; [reflexivity|]. rewrite <- Es. apply strip_trimmed.
    + intros Hb. rewrite strip_blank in Es by exact Hb. discriminate.
Qed.


Lemma trace_bind_ret {W E A B} (m : io W E A) (f : A -> B) (w : W) :
  trace_of (iobind m (fun a => ret (f a)) w) = trace_of (m w).
Proof.
  unfold iobind, trace_of, ret. destruct (m w) as [[w1 t1] [a|e]]; cbn [fst snd];
    [apply app_nil_r|reflexivity].
Qed.

(** X24.  After a POST to [index] that returned, [graph_view] of either
    kind does to the surroundings what [compute_system_artifacts] does for
    the text that the page of [index] showed: the two routes compute from
    the same text. *)
Theorem graph_view_uses_posted_text {W E} `{!OS W E}
    (fields session : gmap str str) (w : W) :
  match answer_of (index (Request (L "POST") fields) session w) with
  | Returned (resp, session') =>
      exists text a,
        resp = index_page text a /\
        forall kind w',
          kind ∈ [L "statespace"; L "dependency"] ->
          trace_of (graph_view kind session' w') =
            trace_of (compute_system_artifacts text w')
  | Raised _ => True
  end.
Proof.
  unfold index. cbn [method form].
  rewrite bool_decide_eq_true_2 by reflexivity.
  set (text := match Py.strip (default [] (fields !! L "system_text")) with
               | [] => DEFAULT_SYSTEM_TEXT | s => s end).
  unfold iobind at 1, answer_of.
  destruct (compute_system_artifacts text w) as [[w1 t1] [a|e]]; [|exact I].
  cbn [ret fst snd]. exists text, a. split; [reflexivity|].
  intros kind w' Hk. unfold graph_view.
  rewrite bool_decide_eq_true_2 by exact Hk.
  rewrite lookup_insert_eq.
  change (default DEFAULT_SYSTEM_TEXT (Some text)) with text.
  unfold iobind, trace_of.
  destruct (compute_system_artifacts text w') as [[w2 t2] [a'|e']]; [|reflexivity].
  destruct (bool_decide (kind = L "statespace")).
  - destruct (statespace_svg a'); cbn [ret fst snd]; apply app_nil_r.
  - destruct (depgraph_svg a'); cbn [ret fst snd]; apply app_nil_r.
Qed.

(** * The program on a small machine *)

(** On the small machine the computation returns for the default text: the
    dependency graph is written and drawn, nothing else is found, and the
    directory is empty again at the end. *)
Example compute_on_small_machine :
  exists dep_dot_src,
    build_dependency_dot DEFAULT_SYSTEM_TEXT = Ok dep_dot_src /\
    @compute_system_artifacts _ _ small_machine DEFAULT_SYSTEM_TEXT [] =
      ([],
       [ EMkdtemp (L "/tmp/tmp1");
         EWrite (file (L "/tmp/tmp1") "system.pds") DEFAULT_SYSTEM_TEXT;
         EExists (@SIMFDS_PATH _ _ small_machine) false;
         EExists (file (L "/tmp/tmp1") "system-statespace.dot") false;
         EExists (file (L "/tmp/tmp1") "system-limitcycles.txt") false;
         EWrite (file (L "/tmp/tmp1") "system-dep.dot") dep_dot_src;
         ERun [L "dot"; L "-Tsvg"; L "-o";
               L "/tmp/tmp1/system-dep.svg"; L "/tmp/tmp1/system-dep.dot"]
              (Path (L "/tmp/tmp1")) (Some 0%Z);
         EExists (file (L "/tmp/tmp1") "system-dep.svg") true;
         ERead (file (L "/tmp/tmp1") "system-dep.svg");
         ERmtree (L "/tmp/tmp1") ],
       Returned (Artifacts [] (L "<svg/>") [] [])).
Proof.
  eexists. split; [vm_compute; reflexivity|]. vm_compute. reflexivity.
Qed.

(** There [graph_view] shows the dependency graph and redirects for the
    state space, of which there is no image. *)
Example graph_view_on_small_machine :
  answer_of (@graph_view _ _ small_machine (L "dependency") ∅ []) =
    Returned (Render (L "graph_view.html")
                [ (L "title", L "Dependency graph " ++ [8211] ++ L " Jaguar");
                  (L "svg", L "<svg/>") ]) /\
  answer_of (@graph_view _ _ small_machine (L "statespace") ∅ []) =
    Returned (RedirectTo (L "index")).
Proof.
  split; vm_compute; reflexivity.
Qed.
